(** * onvif-generate-interfaces: the schema-to-declaration compiler of
      [src/processor.ts], embedded and verified.

    The development follows the source file top to bottom: the string
    helpers of the name normalizer ([dataTypes], [cleanName], [camelCase]),
    the shape of the parsed schema tree, the declaration nodes handed to
    the printer, the [Processor] methods ([addNode], [createProperty],
    [generateElementType], [generateComplexTypeInterface], [suffix]) and
    the registry shared by all processors.

    Conventions.
    - A JavaScript string is a [string]; schema identifiers are ASCII and
      a character is an [ascii], with case conversion acting on the 26
      letters.
    - [undefined] properties are [None]; a test [!x] on an optional string
      is [falsy x], true for [undefined] and for the empty string.
    - The XML parser delivers every child element as an array with at
      least one entry (a key with no child is absent), so child arrays are
      the non-empty [array]s below and [a[0]] is [first a].
    - An element without attributes has no [meta], and an element with
      neither attributes nor children is parsed as the empty string: the
      [meta] of an [xs:any] is optional ([IAny]), and an entry of an
      inline [xs:complexType] is an object or a text ([Entry]).
    - Exceptions are values: [Throw (Error msg)] for the [throw new Error]
      of the source, [Throw TypeError] for a property read on [undefined],
      a property written on a string, or a call of what is no function.
    - The plain object [imports] of [suffix] is the list of its own
      properties in the order of creation; [JSObject] has what a plain
      object adds to that: the members inherited from [Object.prototype],
      and the order of [Object.entries], array indices first.
    - The generator writes into the tree it reads (a name derived from
      [ref], the [use] of an attribute, the type of an element with an
      inline complex type, the sequence and attributes taken over from an
      extension). Every node is visited once, so the tree stays immutable
      here and the written value is passed on to the code that reads it. *)

From Stdlib Require Import String Ascii List Bool Arith Lia ZArith.
From stdpp Require Import strings gmap list.

Open Scope string_scope.
Open Scope list_scope.

(** ** JavaScript string primitives *)

Module JS.

Definition is_lower (c : ascii) : bool :=
  (97 <=? nat_of_ascii c)%nat && (nat_of_ascii c <=? 122)%nat.

Definition is_upper (c : ascii) : bool :=
  (65 <=? nat_of_ascii c)%nat && (nat_of_ascii c <=? 90)%nat.

Definition upper_char (c : ascii) : ascii :=
  if is_lower c then ascii_of_nat (nat_of_ascii c - 32) else c.

Definition lower_char (c : ascii) : ascii :=
  if is_upper c then ascii_of_nat (nat_of_ascii c + 32) else c.

(** [s.toUpperCase()] and [s.toLowerCase()]. *)
Fixpoint toUpperCase (s : string) : string :=
  match s with
  | EmptyString => EmptyString
  | String c s' => String (upper_char c) (toUpperCase s')
  end.

Fixpoint toLowerCase (s : string) : string :=
  match s with
  | EmptyString => EmptyString
  | String c s' => String (lower_char c) (toLowerCase s')
  end.

(** [s.charAt(i)]: the one-character string at [i], or the empty string. *)
Fixpoint charAt (i : nat) (s : string) : string :=
  match s, i with
  | EmptyString, _ => EmptyString
  | String c _, O => String c EmptyString
  | String _ s', S i' => charAt i' s'
  end.

(** [s.slice(n)] for a non-negative [n]. *)
Fixpoint slice (n : nat) (s : string) : string :=
  match n, s with
  | O, _ => s
  | S _, EmptyString => EmptyString
  | S n', String _ s' => slice n' s'
  end.

(** [s.indexOf(c)] for a one-character needle: [-1] when absent. *)
Fixpoint indexOf (c : ascii) (s : string) : Z :=
  match s with
  | EmptyString => (-1)%Z
  | String d s' =>
      if Ascii.eqb d c then 0%Z
      else match indexOf c s' with
           | Zneg _ => (-1)%Z
           | i => (i + 1)%Z
           end
  end.

(** A string in a boolean position. *)
Definition truthy (s : string) : bool :=
  match s with EmptyString => false | String _ _ => true end.

(** [!x] for [x : string | undefined]. *)
Definition falsy (x : option string) : bool :=
  match x with
  | None => true
  | Some s => negb (truthy s)
  end.

(** [x === 'lit'] for [x : string | undefined]. *)
Definition equals (x : option string) (lit : string) : bool :=
  match x with
  | None => false
  | Some s => String.eqb s lit
  end.

(** Membership in the character class [[-.]]. *)
Definition hyphen_or_period (c : ascii) : bool :=
  Ascii.eqb c "-" || Ascii.eqb c ".".

(** [/[-.]/g.test(s)]. *)
Fixpoint test_hyphen_period (s : string) : bool :=
  match s with
  | EmptyString => false
  | String c s' => hyphen_or_period c || test_hyphen_period s'
  end.

(** [s.replace(/[-.]/g, '')]. *)
Fixpoint strip_hyphen_period (s : string) : string :=
  match s with
  | EmptyString => EmptyString
  | String c s' =>
      if hyphen_or_period c then strip_hyphen_period s'
      else String c (strip_hyphen_period s')
  end.

(** Interpolation of an optional string in a template literal. *)
Definition template (x : option string) : string :=
  match x with
  | None => "undefined"
  | Some s => s
  end.

End JS.

(** ** Primitive type mapper and name normalizer *)

Definition dataTypes (xsdType : option string) : string :=
  match xsdType with
  | None => "unknown"
  | Some xsdType =>
      if negb (JS.truthy xsdType) then "unknown"
      else if String.eqb xsdType "xs:double" then "number"
      else if String.eqb xsdType "xs:float" then "number"
      else if String.eqb xsdType "xs:int" then "number"
      else if String.eqb xsdType "xs:integer" then "number"
      else if String.eqb xsdType "xs:short" then "number"
      else if String.eqb xsdType "xs:signedInt" then "number"
      else if String.eqb xsdType "xs:unsignedInt" then "number"
      else if String.eqb xsdType "xs:unsignedShort" then "number"
      else if String.eqb xsdType "xs:dateTime" then "Date"
      else if String.eqb xsdType "xs:token" then "string"
      else if String.eqb xsdType "xs:anyURI" then "AnyURI"
      else if String.eqb xsdType "xs:anyType" then "any"
      else if String.eqb xsdType "xs:hexBinary" then "unknown"
      else if String.eqb xsdType "xs:base64Binary" then "unknown"
      else if String.eqb xsdType "xs:duration" then "Duration"
      else if String.eqb xsdType "wsnt:NotificationMessageHolderType" then "unknown"
      else if String.eqb xsdType "soapenv:Envelope" then "unknown"
      else if String.eqb xsdType "soapenv:Fault" then "unknown"
      else if String.eqb xsdType "xs:anySimpleType" then "unknown"
      else if String.eqb xsdType "xs:QName" then "unknown"
      else if String.eqb xsdType "wsnt:TopicExpressionType" then "unknown"
      else if String.eqb xsdType "wsnt:QueryExpressionType" then "unknown"
      else if String.eqb xsdType "wsnt:AbsoluteOrRelativeTimeType" then "unknown"
      else if String.eqb xsdType "wsa:EndpointReferenceType" then "unknown"
      else if String.eqb xsdType "mpqf:MpegQueryType" then "unknown"
      else if String.eqb xsdType "xs:positiveInteger" then "PositiveInteger"
      else if String.eqb xsdType "xs:nonNegativeInteger" then "number"
      else if String.eqb xsdType "tt:Object" then "unknown"
      else if String.eqb xsdType "xs:time" then "Time"
      else JS.slice (Z.to_nat (JS.indexOf ":" xsdType + 1)) xsdType
  end.

Definition cleanName (name : string) : string :=
  if String.eqb name "Object" then "OnvifObject"
  else JS.strip_hyphen_period name.

Definition camelCase (name : string) : string :=
  let secondLetter := JS.charAt 1 name in
  let name :=
    if JS.truthy secondLetter
       && negb (String.eqb (JS.toUpperCase secondLetter) secondLetter)
    then JS.toLowerCase (JS.charAt 0 name) +:+ JS.slice 1 name
    else name in
  if JS.test_hyphen_period name then "'" +:+ name +:+ "'" else name.

(** [formatComment]: blank lines dropped, lines trimmed, markup tags
    removed, one line or a block. *)

Module Comment.

Definition whitespace (c : ascii) : bool :=
  let n := nat_of_ascii c in
  ((9 <=? n)%nat && (n <=? 13)%nat) || (n =? 32)%nat.

Fixpoint trimStart (s : string) : string :=
  match s with
  | EmptyString => EmptyString
  | String c s' => if whitespace c then trimStart s' else s
  end.

Fixpoint trimEnd (s : string) : string :=
  match s with
  | EmptyString => EmptyString
  | String c s' =>
      match trimEnd s' with
      | EmptyString => if whitespace c then EmptyString else String c EmptyString
      | t => String c t
      end
  end.

Definition trim (s : string) : string := trimEnd (trimStart s).

(** [s.split('\n')], with the line under construction in [line]. *)
Fixpoint split_lines (line : string) (s : string) : list string :=
  match s with
  | EmptyString => [line]
  | String c s' =>
      if Ascii.eqb c "010" then line :: split_lines EmptyString s'
      else split_lines (line +:+ String c EmptyString) s'
  end.

Fixpoint contains_gt (s : string) : bool :=
  match s with
  | EmptyString => false
  | String c s' => Ascii.eqb c ">" || contains_gt s'
  end.

(** [s.replace(/<[^>]*>/g, '')]: [in_tag] is set between a [<] that has
    a closing [>] ahead and that [>]. *)
Fixpoint strip_tags (in_tag : bool) (s : string) : string :=
  match s with
  | EmptyString => EmptyString
  | String c s' =>
      if in_tag then
        strip_tags (negb (Ascii.eqb c ">")) s'
      else if Ascii.eqb c "<" && contains_gt s' then strip_tags true s'
      else String c (strip_tags false s')
  end.

Definition formatComment (str : string) : string :=
  let strs :=
    List.map (fun a => strip_tags false (trim a))
      (List.filter (fun a => negb (String.eqb (trim a) EmptyString))
         (split_lines EmptyString str)) in
  match strs with
  | [] => EmptyString
  | [only] => "* " +:+ only +:+ " "
  | first :: others =>
      "*" +:+ String "010" " * " +:+ first +:+ String "010" EmptyString
      +:+ String.concat (String "010" EmptyString) (List.map (fun a => " * " +:+ a) others)
      +:+ String "010" " "
  end.

End Comment.

(** ** The parsed schema tree *)

(** A child array as the parser builds it: never empty. *)
Record array (A : Type) := Array { first : A; rest : list A }.
Arguments Array {A} first rest.
Arguments first {A} a.
Arguments rest {A} a.

Definition to_list {A : Type} (a : array A) : list A := first a :: rest a.

(** The [meta] object: the XML attributes of a node ([IAttribute.meta]). *)
Module Meta.
Record t := make {
  type : option string;
  name : option string;
  ref : option string;
  maxOccurs : option string;
  minOccurs : option string;
  use : option string;
  namespace : option string;
  processContents : option string;
}.

Definition empty : t := make None None None None None None None None.

Definition set_type (v : option string) (m : t) : t :=
  make v (name m) (ref m) (maxOccurs m) (minOccurs m) (use m)
    (namespace m) (processContents m).

Definition set_name (v : option string) (m : t) : t :=
  make (type m) v (ref m) (maxOccurs m) (minOccurs m) (use m)
    (namespace m) (processContents m).

Definition set_use (v : option string) (m : t) : t :=
  make (type m) (name m) (ref m) (maxOccurs m) (minOccurs m) v
    (namespace m) (processContents m).
End Meta.

(** One [xs:annotation] child: bare text, or an object holding
    [xs:documentation]. *)
Inductive Annotation :=
| AnnotationText (text : string)
| AnnotationDocumentation (documentation : array string).

Definition Annotations := option (array Annotation).

Record IAttribute := {
  meta : Meta.t;
  annotation : Annotations;
}.

(** An [xs:any] as the parser leaves it: the [meta] object is there only
    when the element has an attribute. *)
Record IAny := {
  any_meta : option Meta.t;
  any_annotation : Annotations;
}.

Record Enumeration := { value : string }.

Record Restriction := {
  restriction_base : string;
  enumeration : option (array Enumeration);
}.

Record ISimpleType := {
  simple_meta : Meta.t;
  simple_annotation : Annotations;
  restriction : option (array Restriction);
  list_itemType : option (array string);
}.

(** An entry of an [xs:complexType] array: an object, or the text the
    parser leaves for an element without attributes and children. *)
Inductive Entry (CT : Type) :=
| EntryObject (complexType : CT)
| EntryText (text : string).
Arguments EntryObject {CT} complexType.
Arguments EntryText {CT} text.

(** An element of a sequence, the sequence, and the extension of a
    complexContent, over the type [CT] of complex types they nest. *)
Record SequenceElement (CT : Type) := {
  element_meta : Meta.t;
  element_complexType : option (array (Entry CT));
  element_annotation : Annotations;
}.
Arguments element_meta {CT} s.
Arguments element_complexType {CT} s.
Arguments element_annotation {CT} s.

Record Sequence (CT : Type) := {
  element : option (array (SequenceElement CT));
  any : option (array IAny);
}.
Arguments element {CT} s.
Arguments any {CT} s.

Record Extension (CT : Type) := {
  base : string;
  extension_sequence : option (array (Sequence CT));
  extension_attribute : option (array IAttribute);
}.
Arguments base {CT} e.
Arguments extension_sequence {CT} e.
Arguments extension_attribute {CT} e.

Record ComplexContent (CT : Type) := {
  extension : array (Extension CT);
}.
Arguments extension {CT} c.

#[warnings="-register-all"]
Inductive IComplexType := ComplexType {
  complex_meta : Meta.t;
  complex_annotation : Annotations;
  complexContent : option (array (ComplexContent IComplexType));
  attribute : option (array IAttribute);
  sequence : option (array (Sequence IComplexType));
}.

(** An entry of a top-level element's [xs:complexType] array. *)
Definition ComplexTypeEntry : Type := Entry IComplexType.

Record IElement := {
  top_name : string;
  top_type : option string;
  top_complexType : option (array ComplexTypeEntry);
  top_annotation : Annotations;
}.

Record ISchemaDefinition := {
  xs_simpleType : option (array ISimpleType);
  xs_complexType : option (array IComplexType);
  xs_element : option (array IElement);
}.

(** ** Declaration nodes *)

#[warnings="-register-all"]
Inductive TypeNode :=
| TypeReference (typeName : string)
| ArrayType (elementType : TypeNode)
| LiteralType (text : string)
| UnionType (types : list TypeNode).

(** The nodes the generator builds with [ts.factory]; every declaration
    carries the export modifier. [SyntheticLeadingComment] is a node with
    the comment [ts.addSyntheticLeadingComment] attaches to it. *)
#[warnings="-register-all"]
Inductive Node :=
| Identifier (text : string)
| TypeAliasDeclaration (name : string) (type : TypeNode)
| PropertySignature (name : string) (questionToken : bool) (type : TypeNode)
| InterfaceDeclaration (name : string) (heritageClauses : option (list string))
    (members : list Node)
| ImportDeclaration (namedImports : list string) (moduleSpecifier : string)
| SyntheticLeadingComment (comment : string) (node : Node).

(** ** Exceptions and processor state *)

Inductive exn :=
| Error (message : string)
| TypeError.

Inductive result (A : Type) :=
| Ok (a : A)
| Throw (e : exn).
Arguments Ok {A} a.
Arguments Throw {A} e.

Record IType := { IType_name : option string }.

(** The fields of a [Processor] object that generation reads and writes. *)
Record Processor := {
  fileName : string;
  nodes : list Node;
  declaredTypes : list string;
  usedTypes : list string;
}.

(** A processor at work: its own fields, the registry its [links] field
    points to (one [Map] shared by all processors), and the lines its
    methods write to the console. *)
Record State := {
  this : Processor;
  links : gmap string IType;
  console : list string;
}.

(** [Set<string>] in insertion order. *)
Module StringSet.
Definition has (x : string) (s : list string) : bool :=
  existsb (String.eqb x) s.

Definition add (x : string) (s : list string) : list string :=
  if has x s then s else s ++ [x].

Definition difference (s other : list string) : list string :=
  List.filter (fun x => negb (has x other)) s.
End StringSet.

Definition M (A : Type) : Type := State -> result (A * State).

Definition ret {A : Type} (a : A) : M A := fun st => Ok (a, st).

Definition bind {A B : Type} (m : M A) (k : A -> M B) : M B :=
  fun st =>
    match m st with
    | Ok (a, st') => k a st'
    | Throw e => Throw e
    end.

Definition throw {A : Type} (e : exn) : M A := fun _ => Throw e.

Declare Scope gen_scope.
Delimit Scope gen_scope with gen.
Notation "'let*' x ':=' m 'in' k" := (bind m (fun x => k))
  (at level 10, x pattern, m at level 100, k at level 200) : gen_scope.
Notation "m ';;' k" := (bind m (fun _ => k))
  (at level 100, k at level 200, right associativity) : gen_scope.

(** [xs.map(f)] with the effects of [f] in array order. *)
Fixpoint mapM {A B : Type} (f : A -> M B) (xs : list A) : M (list B) :=
  match xs with
  | [] => ret []
  | x :: xs' =>
      (let* y := f x in
       let* ys := mapM f xs' in
       ret (y :: ys))%gen
  end.

(** [xs.forEach(f)]. *)
Fixpoint forEach {A : Type} (f : A -> M unit) (xs : list A) : M unit :=
  match xs with
  | [] => ret tt
  | x :: xs' => (f x ;; forEach f xs')%gen
  end.

Definition usedTypes_add (typeName : string) : M unit :=
  fun st =>
    Ok (tt, {| this := {| fileName := fileName (this st);
                          nodes := nodes (this st);
                          declaredTypes := declaredTypes (this st);
                          usedTypes := StringSet.add typeName (usedTypes (this st)) |};
               links := links st;
               console := console st |}).

Definition console_log (line : string) (st : State) : State :=
  {| this := this st; links := links st; console := console st ++ [line] |}.

(** ** The [Processor] methods *)

Definition createAnnotationIfExists (xs_annotation : Annotations) (node : Node)
  : Node :=
  match xs_annotation with
  | Some a =>
      let annotation :=
        match first a with
        | AnnotationText text => text
        | AnnotationDocumentation documentation => first documentation
        end in
      SyntheticLeadingComment (Comment.formatComment annotation) node
  | None => node
  end.

Definition addNode (name : string) (node : Node) : M unit :=
  fun st =>
    let links' :=
      match links st !! name with
      | Some _ => links st
      | None => <[name := {| IType_name := Some (fileName (this st)) |}]> (links st)
      end in
    if StringSet.has name (declaredTypes (this st)) then
      Ok (tt, console_log
                (name +:+ " in " +:+ JS.template (links' !! name ≫= IType_name)
                 +:+ " already declared")
                {| this := this st; links := links'; console := console st |})
    else
      Ok (tt, {| this := {| fileName := fileName (this st);
                            nodes := nodes (this st) ++ [node];
                            declaredTypes := StringSet.add name (declaredTypes (this st));
                            usedTypes := usedTypes (this st) |};
                 links := links';
                 console := console st |}).

(** [typeName.charAt(0) === typeName.charAt(0).toUpperCase()]. *)
Definition startsUpperCase (typeName : string) : bool :=
  String.eqb (JS.charAt 0 typeName) (JS.toUpperCase (JS.charAt 0 typeName)).

Definition generateSimpleTypeInterface (simpleType : ISimpleType) : M unit :=
  match Meta.name (simple_meta simpleType) with
  | None => throw TypeError
  | Some name =>
      let name := cleanName name in
      match restriction simpleType, list_itemType simpleType with
      | Some r, _ =>
          match enumeration (first r) with
          | Some values =>
              addNode name
                (createAnnotationIfExists (simple_annotation simpleType)
                   (TypeAliasDeclaration name
                      (UnionType
                         (List.map (fun enumValue => LiteralType (value enumValue))
                            (to_list values)))))
          | None =>
              let typeName := dataTypes (Some (restriction_base (first r))) in
              ((if startsUpperCase typeName then usedTypes_add typeName else ret tt) ;;
               addNode name
                 (createAnnotationIfExists (simple_annotation simpleType)
                    (TypeAliasDeclaration name (TypeReference typeName))))%gen
          end
      | None, Some l =>
          addNode name
            (createAnnotationIfExists (simple_annotation simpleType)
               (TypeAliasDeclaration name
                  (ArrayType (TypeReference (dataTypes (Some (first l)))))))
      | None, None => ret tt
      end
  end.

(** The condition under which [createProperty] leaves the question token
    out. *)
Definition required (m : Meta.t) : bool :=
  (JS.equals (Meta.use m) "required"
   || JS.equals (Meta.minOccurs m) "1"
   || (JS.falsy (Meta.minOccurs m) && JS.falsy (Meta.maxOccurs m)))
  && negb (JS.equals (Meta.use m) "optional").

(** The name of the property: [meta.name], or the [ref] without its first
    six characters when there is no name. *)
Definition propertyName (m : Meta.t) : option string :=
  match Meta.ref m with
  | Some ref =>
      if JS.falsy (Meta.name m) && JS.truthy ref then Some (JS.slice 6 ref)
      else Meta.name m
  | None => Meta.name m
  end.

Definition createProperty (attribute : IAttribute) : M Node :=
  let typeName := cleanName (dataTypes (Meta.type (meta attribute))) in
  let type := TypeReference typeName in
  let type :=
    if JS.equals (Meta.maxOccurs (meta attribute)) "unbounded"
    then ArrayType type else type in
  match propertyName (meta attribute) with
  | None => throw TypeError
  | Some name =>
      let property :=
        PropertySignature (camelCase name)
          (negb (required (meta attribute))) type in
      ((if startsUpperCase typeName then usedTypes_add typeName else ret tt) ;;
       ret (createAnnotationIfExists (annotation attribute) property))%gen
  end.

Definition extendInterface (interfaceName : string) : M (option (list string)) :=
  if JS.truthy interfaceName then
    (usedTypes_add interfaceName ;; ret (Some [interfaceName]))%gen
  else ret None.

(** [extendsName.slice(extendsName.indexOf(':') + 1)]. *)
Definition localName (extendsName : string) : string :=
  JS.slice (Z.to_nat (JS.indexOf ":" extendsName + 1)) extendsName.

(** The members built from [xs:attribute]: an attribute is optional unless
    it says [use="required"]. *)
Definition attributeMembers (xs_attribute : option (array IAttribute))
  : M (list Node) :=
  match xs_attribute with
  | Some attributes =>
      mapM (fun attribute =>
              let m := meta attribute in
              let m :=
                if JS.equals (Meta.use m) "required" then m
                else Meta.set_use (Some "optional") m in
              createProperty {| meta := m; annotation := annotation attribute |})
        (to_list attributes)
  | None => ret []
  end.

(** The index signature for an [xs:any] with [namespace="##any"]:
    [xs:any[0].meta.namespace] is read when there is an [xs:any], which
    throws a [TypeError] when its first entry has no [meta]. *)
Definition anyMembers {CT : Type} (s : Sequence CT) : M (list Node) :=
  match any s with
  | Some a =>
      match any_meta (first a) with
      | Some m =>
          if JS.equals (Meta.namespace m) "##any" then
            ret [createAnnotationIfExists (any_annotation (first a))
                   (PropertySignature "[key: string]" false
                      (TypeReference "unknown"))]
          else ret []
      | None => throw TypeError
      end
  | None => ret []
  end.

(** The member for one element of a sequence; [generate] is
    [generateComplexTypeInterface] on the inline complex type, which takes
    the element's name: [xs:complexType[0].meta = ...] is an assignment to
    a property of the first entry, and throws a [TypeError] when that
    entry is text. *)
Definition elementMember {CT : Type} (generate : option string -> CT -> M unit)
    (attribute : SequenceElement CT) : M Node :=
  match element_complexType attribute with
  | Some complexTypes =>
      match first complexTypes with
      | EntryObject complexType =>
          (generate (Meta.name (element_meta attribute)) complexType ;;
           createProperty
             {| meta := Meta.set_type
                          (Some ("tt:" +:+ JS.template
                                             (Meta.name (element_meta attribute))))
                          (element_meta attribute);
                annotation := element_annotation attribute |})%gen
      | EntryText _ => throw TypeError
      end
  | None =>
      createProperty
        {| meta := element_meta attribute;
           annotation := element_annotation attribute |}
  end.

(** The rest of [generateComplexTypeInterface] once the heritage is
    settled: members from the attributes, then from the sequence in
    effect, then the declaration. [generate] is the method itself, for the
    inline complex types. *)
Definition generateMembers (generate : option string -> IComplexType -> M unit)
    (name : string) (xs_annotation : Annotations)
    (heritage : option (list string))
    (xs_attribute : option (array IAttribute))
    (xs_sequence : option (array (Sequence IComplexType))) : M unit :=
  (let* members := attributeMembers xs_attribute in
   let declare members :=
     addNode name
       (createAnnotationIfExists xs_annotation
          (InterfaceDeclaration (cleanName name) heritage members)) in
   match xs_sequence with
   | Some s =>
       match element (first s) with
       | None =>
           if String.eqb name "Capabilities" then ret tt
           else
             let* wildcard := anyMembers (first s) in
             declare (members ++ wildcard)
       | Some elements =>
           let* properties := mapM (elementMember generate) (to_list elements) in
           let* wildcard := anyMembers (first s) in
           declare (members ++ properties ++ wildcard)
       end
   | None => declare members
   end)%gen.

Definition generateComplexTypeInterface_body
    (generate : option string -> IComplexType -> M unit)
    (name : option string) (complexType : IComplexType) : M unit :=
  match name with
  | None => throw TypeError
  | Some name =>
      match complexContent complexType with
      | Some c =>
          let extension := first (extension (first c)) in
          let heritageName := localName (base extension) in
          if String.eqb name heritageName then ret tt
          else
            (let* heritage := extendInterface heritageName in
             match sequence complexType with
             | Some _ =>
                 throw (Error "complexType['xs:sequence'] in complexContent: complexType.meta.name")
             | None =>
                 generateMembers generate name (complex_annotation complexType)
                   heritage
                   (match extension_attribute extension with
                    | Some a => Some a
                    | None => attribute complexType
                    end)
                   (extension_sequence extension)
             end)%gen
      | None =>
          generateMembers generate name (complex_annotation complexType) None
            (attribute complexType) (sequence complexType)
      end
  end.

(** [generateComplexTypeInterface] reads one field of [complexType.meta],
    the name, and the caller of an inline complex type overwrites that
    [meta] with the element's name first:
    [generateComplexTypeInterfaceAs name] is the method on a complex type
    whose [meta.name] is [name]. *)
Fixpoint generateComplexTypeInterfaceAs (name : option string)
    (complexType : IComplexType) {struct complexType} : M unit :=
  generateComplexTypeInterface_body generateComplexTypeInterfaceAs name complexType.

Definition generateComplexTypeInterface (complexType : IComplexType) : M unit :=
  generateComplexTypeInterfaceAs (Meta.name (complex_meta complexType)) complexType.

(** [generateElementType] on an element with a [type] attribute and no
    inline complex type: an empty interface that inherits from the type. *)
Definition generateElementType_typed (element : IElement) (type : string)
  : M (option Node) :=
  fun st =>
    if String.eqb (fileName (this st)) "devicemgmt"
       && String.eqb (top_name element) "Capabilities"
       && String.eqb type "tds:DeviceServiceCapabilities"
    then Ok (Some (Identifier "// 'Capabilities' in deviceMgmt"), st)
    else
      let name := cleanName (top_name element) in
      let extendsName := cleanName type in
      let heritageName := localName extendsName in
      if String.eqb name heritageName then Ok (None, st)
      else
        (let* heritage := extendInterface heritageName in
         addNode name
           (createAnnotationIfExists (top_annotation element)
              (InterfaceDeclaration name heritage [])) ;;
         ret None)%gen st.

Definition generateElementType (element : IElement) : M (option Node) :=
  let otherwise : M (option Node) :=
    match top_type element with
    | Some type =>
        if JS.truthy type then generateElementType_typed element type
        else ret None
    | None => ret None
    end in
  match top_complexType element with
  | Some entries =>
      match first entries with
      | EntryObject complexType =>
          (generateComplexTypeInterfaceAs (Some (top_name element)) complexType ;;
           ret None)%gen
      | EntryText _ => otherwise
      end
  | None => otherwise
  end.

(** [prefix], after [process] has stored the parsed [schema]. *)
Definition prefix (schema : option ISchemaDefinition) : M (list Node) :=
  let each {A B : Type} (f : A -> M B) (xs : option (array A)) : M unit :=
    match xs with
    | Some xs => forEach (fun x => f x ;; ret tt)%gen (to_list xs)
    | None => ret tt
    end in
  (match schema with
   | Some schema =>
       each generateSimpleTypeInterface (xs_simpleType schema) ;;
       each generateComplexTypeInterface (xs_complexType schema) ;;
       each generateElementType (xs_element schema)
   | None => ret tt
   end ;;
   fun st => Ok (nodes (this st), st))%gen.

(** ** Plain objects *)

(** [suffix] keeps its [imports] in a plain object, [{}]: a key that
    [Object.prototype] defines reads as the inherited member, and
    [Object.entries] lists the keys that are array indices first, in
    ascending order, before the other keys in the order of creation. *)
Module JSObject.

(** The members of [Object.prototype]; each of them is truthy. *)
Definition prototype : list string :=
  ["constructor"; "__defineGetter__"; "__defineSetter__"; "hasOwnProperty";
   "__lookupGetter__"; "__lookupSetter__"; "isPrototypeOf";
   "propertyIsEnumerable"; "toString"; "valueOf"; "__proto__";
   "toLocaleString"].

Definition inherited (key : string) : bool :=
  existsb (String.eqb key) prototype.

Definition digit (c : ascii) : option N :=
  let n := N_of_ascii c in
  if ((48 <=? n) && (n <=? 57))%N then Some (n - 48)%N else None.

Fixpoint decimal (acc : N) (s : string) : option N :=
  match s with
  | EmptyString => Some acc
  | String c s' =>
      match digit c with
      | Some d => decimal (10 * acc + d)%N s'
      | None => None
      end
  end.

(** [key] as an array index: the canonical decimal numeral of an integer
    from 0 to 2^32 - 2. *)
Definition array_index (key : string) : option N :=
  match key with
  | EmptyString => None
  | String "0" EmptyString => Some 0%N
  | String "0" _ => None
  | _ =>
      match decimal 0 key with
      | Some n => if (n <? 4294967295)%N then Some n else None
      | None => None
      end
  end.

Fixpoint insert_index {A : Type} (n : N) (x : A) (l : list (N * A))
  : list (N * A) :=
  match l with
  | [] => [(n, x)]
  | (m, y) :: l' =>
      if (n <=? m)%N then (n, x) :: l else (m, y) :: insert_index n x l'
  end.

(** The own properties [o], in the order of creation, whose key is an
    array index, in ascending order of the index. *)
Definition indexed {A : Type} (o : list (string * A)) : list (N * (string * A)) :=
  fold_right (fun kv acc =>
                match array_index (fst kv) with
                | Some n => insert_index n kv acc
                | None => acc
                end) [] o.

Definition named {A : Type} (kv : string * A) : bool :=
  match array_index (fst kv) with
  | Some _ => false
  | None => true
  end.

(** [Object.entries(o)] for the own properties [o] in the order of
    creation. *)
Definition entries {A : Type} (o : list (string * A)) : list (string * A) :=
  List.map snd (indexed o) ++ List.filter named o.

End JSObject.

(** ** The import resolver *)

(** The own properties of the [imports] object of [suffix], in the order
    of creation: each owning module with its types in the order met. *)
Fixpoint imports_push (fileName type : string)
    (imports : list (string * list string)) : list (string * list string) :=
  match imports with
  | [] => [(fileName, [type])]
  | (f, types) :: imports' =>
      if String.eqb f fileName then (f, types ++ [type]) :: imports'
      else (f, types) :: imports_push fileName type imports'
  end.

(** Whether [imports] has an own property [fileName]. *)
Definition has_own (fileName : string) (imports : list (string * list string))
  : bool :=
  existsb (String.eqb fileName) (List.map fst imports).

Definition ImportsNeeded (p : Processor) : list string :=
  StringSet.difference (usedTypes p) (declaredTypes p).

(** The owner [links.get(type)?.name] when it is a non-empty string. *)
Definition owner (links : gmap string IType) (type : string) : option string :=
  match links !! type ≫= IType_name with
  | Some fileName => if JS.truthy fileName then Some fileName else None
  | None => None
  end.

(** One turn of the loop of [suffix]. [imports[fileName]] is truthy for an
    own property, whose array takes the type, and for an inherited member,
    which has no [push]: the call throws a [TypeError]. *)
Definition suffix_step (links : gmap string IType)
    (acc : list (string * list string) * list string) (type : string)
  : result (list (string * list string) * list string) :=
  match owner links type with
  | None => Ok (fst acc, snd acc ++ ["Type " +:+ type +:+ " not found in links"])
  | Some fileName =>
      if has_own fileName (fst acc) then
        Ok (imports_push fileName type (fst acc), snd acc)
      else if JSObject.inherited fileName then Throw TypeError
      else Ok (imports_push fileName type (fst acc), snd acc)
  end.

(** A loop whose body may throw. *)
Fixpoint fold_result {A B : Type} (f : A -> B -> result A) (l : list B) (a : A)
  : result A :=
  match l with
  | [] => Ok a
  | x :: l' =>
      match f a x with
      | Ok a' => fold_result f l' a'
      | Throw e => Throw e
      end
  end.

Definition suffix_imports (links : gmap string IType) (p : Processor)
    (console : list string)
  : result (list (string * list string) * list string) :=
  fold_result (suffix_step links) (ImportsNeeded p) ([], console).

Definition importNode (entry : string * list string) : Node :=
  ImportDeclaration (snd entry) ("./" +:+ fst entry).

(** [suffix(links)]. *)
Definition suffix (links' : gmap string IType) (st : State) : result State :=
  match suffix_imports links' (this st) (console st) with
  | Ok (imports, console') =>
      let importNodes := List.map importNode (JSObject.entries imports) in
      Ok {| this := {| fileName := fileName (this st);
                       nodes := importNodes ++ Identifier (String "010" EmptyString)
                                  :: nodes (this st);
                       declaredTypes := declaredTypes (this st);
                       usedTypes := usedTypes (this st) |};
            links := links st;
            console := console' |}
  | Throw e => Throw e
  end.

(** ** The run *)

Definition BASICS_FILENAME : string := "basics".

Definition builtInTypes : list (string * string) :=
  [("AnyURI", "string"); ("FilterType", "any"); ("NCName", "string");
   ("Duration", "string")].

Definition generateBuiltIns : list Node * gmap string IType :=
  (List.map (fun '(name, typeName) =>
               TypeAliasDeclaration name (TypeReference typeName)) builtInTypes,
   fold_left (fun links '(name, _) =>
                <[name := {| IType_name := Some BASICS_FILENAME |}]> links)
     builtInTypes ∅).

(** A source document once read: the module name derived from its path
    and the schema found in it. *)
Record Document := {
  document_fileName : string;
  document_schema : option ISchemaDefinition;
}.

Definition newProcessor (fileName : string) : Processor :=
  {| fileName := fileName; nodes := []; declaredTypes := []; usedTypes := [] |}.

(** All processors of a run with the registry they share and the console
    lines of their methods (the progress lines of the run are left out). *)
Record World := {
  processors : list Processor;
  registry : gmap string IType;
  output : list string;
}.

(** One document: a new processor on the shared registry runs [prefix]
    and joins the processors. *)
Definition process_document (w : World) (d : Document) : result World :=
  match prefix (document_schema d)
          {| this := newProcessor (document_fileName d);
             links := registry w;
             console := output w |} with
  | Ok (_, st) =>
      Ok {| processors := processors w ++ [this st];
            registry := links st;
            output := console st |}
  | Throw e => Throw e
  end.

Fixpoint process_documents (w : World) (ds : list Document) : result World :=
  match ds with
  | [] => Ok w
  | d :: ds' =>
      match process_document w d with
      | Ok w' => process_documents w' ds'
      | Throw e => Throw e
      end
  end.

(** [proc.suffix(this.links)] for every processor, the last one first:
    the registry is the final one. *)
Definition resolve_all (w : World) : result World :=
  match
    fold_result
      (fun '(done, out) p =>
         match suffix (registry w)
                 {| this := p; links := registry w; console := out |} with
         | Ok st => Ok (done ++ [this st], console st)
         | Throw e => Throw e
         end)
      (rev (processors w)) ([], output w)
  with
  | Ok (ps, out) => Ok {| processors := ps; registry := registry w; output := out |}
  | Throw e => Throw e
  end.

(** [InterfaceProcessor.start] on the schema documents and the service
    descriptions found, in that order. *)
Definition start (xsds wsdls : list Document) : result World :=
  match process_documents
          {| processors := []; registry := snd generateBuiltIns; output := [] |}
          (xsds ++ wsdls) with
  | Ok w => resolve_all w
  | Throw e => Throw e
  end.

(** Calls of [addNode] coming from the processors of a world in any
    order: [(i, name, node)] is processor [i] calling
    [addNode(name, node)]. *)
Definition addNode_from (w : World) (call : nat * string * Node) : World :=
  let '(i, name, node) := call in
  match processors w !! i with
  | Some p =>
      match addNode name node
              {| this := p; links := registry w; console := output w |} with
      | Ok (_, st) =>
          {| processors := <[i := this st]> (processors w);
             registry := links st;
             output := console st |}
      | Throw _ => w
      end
  | None => w
  end.

Definition addNode_calls (calls : list (nat * string * Node)) (w : World) : World :=
  fold_left addNode_from calls w.

(** ** Vocabulary of the properties *)

(** [imports] brings [type] in from module [fileName]. *)
Definition imported (imports : list (string * list string))
    (fileName type : string) : Prop :=
  exists types, In (fileName, types) imports /\ In type types.

(** An optional attribute value that is absent or the empty string. *)
Definition blank (x : option string) : bool :=
  match x with
  | None => true
  | Some EmptyString => true
  | Some (String _ _) => false
  end.

(** The optionality precedence the generator follows, tier by tier. *)
Definition optional_by_precedence (m : Meta.t) : bool :=
  if JS.equals (Meta.use m) "optional" then true
  else if JS.equals (Meta.use m) "required"
          || JS.equals (Meta.minOccurs m) "1"
          || (blank (Meta.minOccurs m) && blank (Meta.maxOccurs m))
  then false
  else true.

(** The second character of [name] is a lower-case letter. *)
Definition second_is_lower (name : string) : bool :=
  match name with
  | String _ (String c _) => JS.is_lower c
  | _ => false
  end.

(** [name] with its leading character in lower case. *)
Definition lower_first (name : string) : string :=
  match name with
  | EmptyString => EmptyString
  | String c rest => String (JS.lower_char c) rest
  end.

(** Literal-key quoting, exactly when there is a hyphen or a period. *)
Definition quoted (name : string) : string :=
  if JS.test_hyphen_period name then "'" +:+ name +:+ "'" else name.

(** The rules as the specification words them. *)
Module AsSpecified.

(** Optional unconditionally for [use="optional"]; required for
    [use="required"], [minOccurs="1"], or neither [minOccurs] nor
    [maxOccurs] present at all; optional otherwise. *)
Definition optional_by_precedence (m : Meta.t) : bool :=
  if JS.equals (Meta.use m) "optional" then true
  else if JS.equals (Meta.use m) "required"
          || JS.equals (Meta.minOccurs m) "1"
          || (negb (bool_decide (is_Some (Meta.minOccurs m)))
              && negb (bool_decide (is_Some (Meta.maxOccurs m))))
  then false
  else true.

(** Lower-cases the leading character unless the second character is
    already lower-case; quotes when there is a hyphen or a period. *)
Definition camelCase (name : string) : string :=
  quoted (if second_is_lower name then name else lower_first name).

End AsSpecified.

(** A step that touches nothing but [usedTypes]. *)
Definition only_uses (st st' : State) : Prop :=
  fileName (this st') = fileName (this st)
  /\ nodes (this st') = nodes (this st)
  /\ declaredTypes (this st') = declaredTypes (this st)
  /\ links st' = links st
  /\ console st' = console st.

(** Every mapping of the registry of [st] is still there in [st']. *)
Definition registry_kept (st st' : State) : Prop :=
  forall (name : string) (owner : IType),
    links st !! name = Some owner -> links st' !! name = Some owner.

(** The entries of an optional child array. *)
Definition entries {A : Type} (xs : option (array A)) : list A :=
  match xs with
  | Some xs => to_list xs
  | None => []
  end.

(** The sequence in effect when members are built: the one of the
    extension under a complexContent, the type's own otherwise. *)
Definition sequence_in_effect (complexType : IComplexType)
  : option (array (Sequence IComplexType)) :=
  match complexContent complexType with
  | Some c => extension_sequence (first (extension (first c)))
  | None => sequence complexType
  end.

(** The type extends itself: the local name of its extension base is its
    own name. *)
Definition extends_itself (name : string) (complexType : IComplexType) : Prop :=
  exists c, complexContent complexType = Some c
            /\ localName (base (first (extension (first c)))) = name.

(** The inline complex type of an element of a sequence, when the first
    entry of its [xs:complexType] is an object. *)
Definition nested_type (e : SequenceElement IComplexType) : option IComplexType :=
  match element_complexType e with
  | Some entries =>
      match first entries with
      | EntryObject complexType => Some complexType
      | EntryText _ => None
      end
  | None => None
  end.

(** The construct the generator refuses: a complexContent extension of
    another type together with an own sequence, on the type itself or on
    an inline complex type that generation reaches from it. *)
Inductive conflicting : option string -> IComplexType -> Prop :=
| conflicting_here name complexType c s :
    complexContent complexType = Some c ->
    localName (base (first (extension (first c)))) <> name ->
    sequence complexType = Some s ->
    conflicting (Some name) complexType
| conflicting_inline name complexType s elements e inline :
    ~ extends_itself name complexType ->
    sequence_in_effect complexType = Some s ->
    element (first s) = Some elements ->
    In e (to_list elements) ->
    nested_type e = Some inline ->
    conflicting (Meta.name (element_meta e)) inline ->
    conflicting (Some name) complexType.

(** The inline complex type of a top-level element, when its first
    [xs:complexType] entry is an object. *)
Definition inline_type (e : IElement) : option IComplexType :=
  match top_complexType e with
  | Some entries =>
      match first entries with
      | EntryObject complexType => Some complexType
      | EntryText _ => None
      end
  | None => None
  end.


(** ** Sample inputs *)

Module Sample.

Definition fresh (fileName : string) : State :=
  {| this := newProcessor fileName; links := ∅; console := [] |}.

Definition named (name : string) : Meta.t :=
  Meta.set_name (Some name) Meta.empty.

(** [<xs:any namespace="##any" processContents="lax"/>]. *)
Definition wildcard : array IAny :=
  Array {| any_meta := Some (Meta.make None None None None None None
                               (Some "##any") (Some "lax"));
           any_annotation := None |} [].

(** A sequence holding the wildcard and no element. *)
Definition open_sequence : array (Sequence IComplexType) :=
  Array {| element := None; any := Some wildcard |} [].

(** A complex type whose only content is [open_sequence]. *)
Definition open_type (name : string) : IComplexType :=
  ComplexType (named name) None None None (Some open_sequence).

(** [<xs:complexContent><xs:extension base=...>] with a sequence. *)
Definition extending (base : string)
    (xs_sequence : option (array (Sequence IComplexType)))
  : array (ComplexContent IComplexType) :=
  Array {| extension := Array {| base := base;
                                 extension_sequence := xs_sequence;
                                 extension_attribute := None |} [] |} [].

(** A sequence of elements. *)
Definition elements (first : SequenceElement IComplexType)
    (rest : list (SequenceElement IComplexType))
  : array (Sequence IComplexType) :=
  Array {| element := Some (Array first rest); any := None |} [].

(** An element with a type attribute, or with an inline complex type. *)
Definition typed (name type : string) : SequenceElement IComplexType :=
  {| element_meta := Meta.set_type (Some type) (named name);
     element_complexType := None;
     element_annotation := None |}.

Definition inline (name : string) (complexType : IComplexType)
  : SequenceElement IComplexType :=
  {| element_meta := named name;
     element_complexType := Some (Array (EntryObject complexType) []);
     element_annotation := None |}.

(** [<xs:element name="Count" type="xs:int" minOccurs=...>] with an empty
    [minOccurs]. *)
Definition empty_minOccurs : IAttribute :=
  {| meta := Meta.make (Some "xs:int") (Some "Count") None None
               (Some EmptyString) None None None;
     annotation := None |}.

(** Two documents that declare [Capabilities]; the second also has a
    property of that type. *)
Definition twice_declared (fileName : string) : Document :=
  {| document_fileName := fileName;
     document_schema :=
       Some {| xs_simpleType := None;
               xs_complexType :=
                 Some (Array
                         (ComplexType (named "Capabilities") None None None
                            None)
                         [ComplexType (named "Service") None None None
                            (Some (elements
                                     (typed "Capabilities" "tt:Capabilities")
                                     []))]);
               xs_element := None |} |}.

End Sample.

(** Documents for the import resolver: one that declares a type and
    nothing else, and one whose only type has an element of each of the
    given types, named after it. *)
Module Plain.

Definition declaring (fileName type : string) : Document :=
  {| document_fileName := fileName;
     document_schema :=
       Some {| xs_simpleType := None;
               xs_complexType :=
                 Some (Array (ComplexType (Sample.named type) None None None None)
                         []);
               xs_element := None |} |}.

Definition referring (fileName : string) (types : list string) : Document :=
  {| document_fileName := fileName;
     document_schema :=
       Some {| xs_simpleType := None;
               xs_complexType :=
                 Some (Array
                         (ComplexType (Sample.named "Service") None None None
                            (Some (Array
                                     {| element :=
                                          match types with
                                          | [] => None
                                          | type :: types' =>
                                              Some (Array
                                                      (Sample.typed (localName type) type)
                                                      (List.map
                                                         (fun t => Sample.typed (localName t) t)
                                                         types'))
                                          end;
                                        any := None |} [])))
                         []);
               xs_element := None |} |}.

End Plain.

(** ** Induction over nested complex types *)

Definition all_option {A : Type} (Q : A -> Prop) (o : option A) : Prop :=
  match o with
  | Some a => Q a
  | None => True
  end.

Definition all_array {A : Type} (Q : A -> Prop) (a : array A) : Prop :=
  Forall Q (to_list a).

Section Nested_induction.

Variable P : IComplexType -> Prop.

Definition all_element (e : SequenceElement IComplexType) : Prop :=
  all_option P (nested_type e).

Definition all_sequence (s : Sequence IComplexType) : Prop :=
  all_option (all_array all_element) (element s).

Definition all_content (c : ComplexContent IComplexType) : Prop :=
  all_array (fun e => all_option (all_array all_sequence) (extension_sequence e))
    (extension c).

Hypothesis step :
  forall complexType,
    all_option (all_array all_content) (complexContent complexType) ->
    all_option (all_array all_sequence) (sequence complexType) ->
    P complexType.

Definition prove_option {A : Type} (Q : A -> Prop) (f : forall a, Q a)
    (o : option A) : all_option Q o :=
  match o with
  | Some a => f a
  | None => I
  end.

Definition prove_list {A : Type} (Q : A -> Prop) (f : forall a, Q a)
  : forall l : list A, Forall Q l :=
  fix go l :=
    match l with
    | [] => @List.Forall_nil A Q
    | x :: l' => @List.Forall_cons A Q x l' (f x) (go l')
    end.

Definition prove_array {A : Type} (Q : A -> Prop) (f : forall a, Q a)
    (a : array A) : all_array Q a :=
  @List.Forall_cons A Q (first a) (rest a) (f (first a)) (prove_list Q f (rest a)).

Fixpoint IComplexType_nested_ind (complexType : IComplexType) : P complexType :=
  let sequences :=
    prove_option _
      (prove_array _
         (fun s : Sequence IComplexType =>
            prove_option _
              (prove_array _
                 (fun e : SequenceElement IComplexType =>
                    match element_complexType e as o
                          return all_option P
                                   match o with
                                   | Some entries =>
                                       match first entries with
                                       | EntryObject complexType => Some complexType
                                       | EntryText _ => None
                                       end
                                   | None => None
                                   end
                    with
                    | Some entries =>
                        match first entries as en
                              return all_option P
                                       match en with
                                       | EntryObject complexType => Some complexType
                                       | EntryText _ => None
                                       end
                        with
                        | EntryObject complexType =>
                            IComplexType_nested_ind complexType
                        | EntryText _ => I
                        end
                    | None => I
                    end))
              (element s))) in
  match complexType with
  | ComplexType m a content attributes own =>
      step (ComplexType m a content attributes own)
        (prove_option _
           (prove_array _
              (fun c : ComplexContent IComplexType =>
                 prove_array _
                   (fun e : Extension IComplexType =>
                      sequences (extension_sequence e))
                   (extension c)))
           content)
        (sequences own)
  end.

End Nested_induction.

(** ** Vocabulary of the further properties *)

(** [s] has no colon. *)
Definition unqualified (s : string) : Prop := JS.indexOf ":" s = (-1)%Z.

(** Generation from [st] to [st'] only appended: the module keeps its
    name, and its nodes, declared types, used types and console lines are
    the former ones followed by new ones. *)
Definition appends (st st' : State) : Prop :=
  fileName (this st') = fileName (this st)
  /\ (exists added, nodes (this st') = nodes (this st) ++ added)
  /\ (exists added, declaredTypes (this st') = declaredTypes (this st) ++ added)
  /\ (exists added, usedTypes (this st') = usedTypes (this st) ++ added)
  /\ (exists added, console st' = console st ++ added).

(** The identifier of a type alias or interface declaration, with or
    without a leading comment. *)
Fixpoint declared_name (node : Node) : option string :=
  match node with
  | TypeAliasDeclaration name _ => Some name
  | InterfaceDeclaration name _ _ => Some name
  | SyntheticLeadingComment _ node => declared_name node
  | _ => None
  end.

(** [node] is the declaration kept for the declared type [name]: its
    identifier is [name] or [name] cleaned. *)
Definition declares (name : string) (node : Node) : Prop :=
  declared_name node = Some name \/ declared_name node = Some (cleanName name).

(** What holds of a module between two calls of its methods: no name is
    declared twice, no name is recorded as used twice, the nodes are the
    declarations of the declared names, one each and in the same order,
    and every declared name is in the registry. *)
Definition module_invariant (st : State) : Prop :=
  List.NoDup (declaredTypes (this st))
  /\ List.NoDup (usedTypes (this st))
  /\ Forall2 declares (declaredTypes (this st)) (nodes (this st))
  /\ forall name, In name (declaredTypes (this st)) -> is_Some (links st !! name).

(** The invariant for every processor of a world, on the shared registry. *)
Definition world_invariant (w : World) : Prop :=
  forall p, In p (processors w) ->
            module_invariant {| this := p; links := registry w; console := output w |}.

(** The registry entry of a type that module [fileName] owns. *)
Definition owned_by (fileName : string) : IType :=
  {| IType_name := Some fileName |}.

(** From [st] to [st'] the module only appended, and every registry entry
    of [st'] was there in [st] or names the module as the owner of a type
    it declares. *)
Definition registers_own (st st' : State) : Prop :=
  appends st st'
  /\ forall name o,
       links st' !! name = Some o ->
       links st !! name = Some o
       \/ (o = owned_by (fileName (this st')) /\ In name (declaredTypes (this st'))).

(** [name] is one of the built-in types. *)
Definition built_in (name : string) : Prop :=
  In name (List.map fst builtInTypes).

(** Every registry entry is a built-in type owned by the basics module or
    names a module of the run that declares the type. *)
Definition registry_sound (w : World) : Prop :=
  forall name o,
    registry w !! name = Some o ->
    (built_in name /\ o = owned_by BASICS_FILENAME)
    \/ exists p, In p (processors w)
                 /\ o = owned_by (fileName p)
                 /\ In name (declaredTypes p).

(** [q] is [p] after [suffix] on the registry [links'], from some
    console, and what that call left on the console is in [final]. *)
Definition resolved (links' : gmap string IType) (final : list string)
    (p q : Processor) : Prop :=
  exists out st,
    suffix links' {| this := p; links := links'; console := out |} = Ok st
    /\ q = this st
    /\ forall line, In line (console st) -> In line final.

(** Two documents of one run: [common] declares a name and a vector,
    [device] a position that uses both, a built-in type and a date. *)
Module Run.

Definition common_schema : ISchemaDefinition :=
  {| xs_simpleType :=
       Some (Array {| simple_meta := Sample.named "Name";
                      simple_annotation := None;
                      restriction :=
                        Some (Array {| restriction_base := "xs:string";
                                       enumeration := None |} []);
                      list_itemType := None |} []);
     xs_complexType :=
       Some (Array
               (ComplexType (Sample.named "Vector") None None
                  (Some (Array {| meta := Meta.set_type (Some "xs:float")
                                            (Sample.named "x");
                                  annotation := None |} []))
                  None)
               []);
     xs_element := None |}.

Definition common : Document :=
  {| document_fileName := "common"; document_schema := Some common_schema |}.

Definition device : Document :=
  {| document_fileName := "device";
     document_schema :=
       Some {| xs_simpleType := None;
               xs_complexType :=
                 Some (Array
                         (ComplexType (Sample.named "Position") None None None
                            (Some (Sample.elements
                                     (Sample.typed "PanTilt" "tt:Vector")
                                     [Sample.typed "Label" "tt:Name";
                                      Sample.typed "Address" "xs:anyURI";
                                      Sample.typed "Since" "xs:dateTime"])))
                         []);
               xs_element := None |} |}.

(** The run over the two documents, and the module of [device] when it
    is over. *)
Definition finished : World :=
  match start [common; device] [] with
  | Ok w => w
  | Throw _ => {| processors := []; registry := ∅; output := [] |}
  end.

Definition device_module : Processor :=
  match processors finished with
  | p :: _ => p
  | [] => newProcessor EmptyString
  end.

End Run.

(** The exception a call ends with, if it ends with one. *)
Definition failure {A : Type} (r : result A) : option exn :=
  match r with
  | Ok _ => None
  | Throw e => Some e
  end.

(** [m] ends the same way from every state: with the exception [e], or
    without one. *)
Definition uniform {A : Type} (m : M A) (e : option exn) : Prop :=
  forall st, failure (m st) = e.

(** The type names a type node refers to. *)
Fixpoint typeReferences (type : TypeNode) : list string :=
  match type with
  | TypeReference typeName => [typeName]
  | ArrayType elementType => typeReferences elementType
  | LiteralType _ => []
  | UnionType types => flat_map typeReferences types
  end.

(** The type names a node refers to: in its type, in its heritage clause
    and in its members. *)
Fixpoint references (node : Node) : list string :=
  match node with
  | Identifier _ => []
  | TypeAliasDeclaration _ type => typeReferences type
  | PropertySignature _ _ type => typeReferences type
  | InterfaceDeclaration _ heritageClauses members =>
      match heritageClauses with
      | Some names => names
      | None => []
      end ++ flat_map references members
  | ImportDeclaration _ _ => []
  | SyntheticLeadingComment _ node => references node
  end.

(** Every type name in upper case that [ns] refer to is in [used]. *)
Definition covers (used : list string) (ns : list Node) : Prop :=
  forall n t,
    In n ns -> In t (references n) -> startsUpperCase t = true -> In t used.

(** The used types of the module cover its nodes. *)
Definition covered (st : State) : Prop :=
  covers (usedTypes (this st)) (nodes (this st)).

(** A simple type that is a list, not a restriction, of items whose type
    name is in upper case. *)
Definition list_of_named (simpleType : ISimpleType) : bool :=
  match restriction simpleType, list_itemType simpleType with
  | None, Some l => startsUpperCase (dataTypes (Some (first l)))
  | _, _ => false
  end.

(** The simple types of a document. *)
Definition simpleTypes (d : Document) : list ISimpleType :=
  match document_schema d with
  | Some schema => entries (xs_simpleType schema)
  | None => []
  end.

(** What a call leaves of the module itself: its result and the
    processor's own fields, without the registry and the console. *)
Definition view {A : Type} (r : result (A * State)) : result (A * Processor) :=
  match r with
  | Ok (a, st) => Ok (a, this st)
  | Throw e => Throw e
  end.

(** [m] is local to the module: its result and what it makes of the
    processor's own fields depend on those fields alone. *)
Definition local {A : Type} (m : M A) : Prop :=
  forall st1 st2, this st1 = this st2 -> view (m st1) = view (m st2).

(** [p] is the module of the document [d] when its first pass ends, on
    some registry and console. *)
Definition module_of (d : Document) (p : Processor) : Prop :=
  exists links' out ns st',
    prefix (document_schema d)
      {| this := newProcessor (document_fileName d);
         links := links'; console := out |} = Ok (ns, st')
    /\ p = this st'.

(** A complete tag in a line: a [<] with a [>] somewhere after it. *)
Fixpoint has_tag (s : string) : bool :=
  match s with
  | EmptyString => false
  | String c s' => (Ascii.eqb c "<" && Comment.contains_gt s') || has_tag s'
  end.

(** Whether a string holds a line break. *)
Fixpoint has_newline (s : string) : bool :=
  match s with
  | EmptyString => false
  | String c s' => Ascii.eqb c "010" || has_newline s'
  end.

(** The document [d] declares the top-level type [name]: its module has
    [name] in its declared types when its first pass ends. *)
Definition document_declares (d : Document) (name : string) : Prop :=
  exists p, module_of d p /\ In name (declaredTypes p).

(** Whether the registry names the module [f] as the owner of [t]. *)
Definition owned (links' : gmap string IType) (f t : string) : bool :=
  match links' !! t with
  | Some {| IType_name := Some g |} => String.eqb g f
  | _ => false
  end.

(** The elements of [l] that are not in [seen], each at its first
    occurrence. *)
Fixpoint first_seen (seen l : list string) : list string :=
  match l with
  | [] => []
  | x :: l' =>
      if existsb (String.eqb x) seen then first_seen seen l'
      else x :: first_seen (x :: seen) l'
  end.

(** * Properties *)

(** ** Characters and strings *)

Lemma upper_char_differs (c : ascii) :
  String.eqb (JS.toUpperCase (String c EmptyString)) (String c EmptyString)
  = negb (JS.is_lower c).
Proof. destruct c as [[] [] [] [] [] [] [] []]; reflexivity. Qed.

Lemma lower_char_hyphen_period (c : ascii) :
  JS.hyphen_or_period (JS.lower_char c) = JS.hyphen_or_period c.
Proof. destruct c as [[] [] [] [] [] [] [] []]; reflexivity. Qed.

Lemma strip_hyphen_period_clean (s : string) :
  JS.test_hyphen_period s = false -> JS.strip_hyphen_period s = s.
Proof.
  induction s as [|c s IH]; simpl; [reflexivity|].
  destruct (JS.hyphen_or_period c); simpl; [discriminate|].
  intros H. now rewrite IH.
Qed.

Lemma test_strip_hyphen_period (s : string) :
  JS.test_hyphen_period (JS.strip_hyphen_period s) = false.
Proof.
  induction s as [|c s IH]; simpl; [reflexivity|].
  destruct (JS.hyphen_or_period c) eqn:E; simpl; [assumption|].
  now rewrite E.
Qed.

Lemma falsy_blank (x : option string) : JS.falsy x = blank x.
Proof. destruct x as [[|c s]|]; reflexivity. Qed.

Lemma cleanName_is_clean (name : string) :
  JS.test_hyphen_period (cleanName name) = false.
Proof.
  unfold cleanName. destruct (String.eqb name "Object"); [reflexivity|].
  apply test_strip_hyphen_period.
Qed.

Lemma cleanName_clean (name : string) :
  JS.test_hyphen_period name = false -> name <> "Object" -> cleanName name = name.
Proof.
  intros Hclean Hname. unfold cleanName.
  destruct (String.eqb_spec name "Object") as [->|_]; [congruence|].
  now apply strip_hyphen_period_clean.
Qed.

(** ** Scenarios *)

Example camelCase_Token : camelCase "Token" = "token".
Proof. reflexivity. Qed.

Example camelCase_PTZStatus : camelCase "PTZStatus" = "PTZStatus".
Proof. reflexivity. Qed.

Example camelCase_hyphen : camelCase "Content-Type" = "'content-Type'".
Proof. reflexivity. Qed.

Example dataTypes_prefixed : dataTypes (Some "tt:Vector2D") = "Vector2D".
Proof. reflexivity. Qed.

Example dataTypes_no_prefix : dataTypes (Some "Vector2D") = "Vector2D".
Proof. reflexivity. Qed.

(** The scenarios of a simple type with an enumeration and of a complex
    type with a required attribute and a repeatable element. *)
Example enumeration_scenario :
  generateSimpleTypeInterface
    {| simple_meta := Sample.named "MoveStatus";
       simple_annotation := None;
       restriction :=
         Some (Array {| restriction_base := "xs:string";
                        enumeration := Some (Array {| value := "Idle" |}
                                               [{| value := "Active" |}]) |} []);
       list_itemType := None |}
    (Sample.fresh "onvif")
  = Ok (tt,
        {| this := {| fileName := "onvif";
                      nodes := [TypeAliasDeclaration "MoveStatus"
                                  (UnionType [LiteralType "Idle"; LiteralType "Active"])];
                      declaredTypes := ["MoveStatus"];
                      usedTypes := [] |};
           links := <["MoveStatus" := {| IType_name := Some "onvif" |}]> ∅;
           console := [] |}).
Proof. reflexivity. Qed.

Example attribute_and_repeatable_element_scenario :
  exists st',
    generateComplexTypeInterface
      (ComplexType (Sample.named "Holder") None None
         (Some (Array {| meta := Meta.make (Some "xs:string") (Some "token") None
                                   None None (Some "required") None None;
                         annotation := None |} []))
         (Some (Sample.elements
                  {| element_meta := Meta.make (Some "tt:Item") (Some "items") None
                                       (Some "unbounded") None None None None;
                     element_complexType := None;
                     element_annotation := None |} [])))
      (Sample.fresh "onvif")
    = Ok (tt, st')
    /\ nodes (this st')
       = [InterfaceDeclaration "Holder" None
            [PropertySignature "token" false (TypeReference "string");
             PropertySignature "items" true (ArrayType (TypeReference "Item"))]]
    /\ usedTypes (this st') = ["Item"].
Proof. eexists. split; [vm_compute; reflexivity|split; reflexivity]. Qed.

Example cleanName_not_idempotent_in_general :
  cleanName (cleanName "Ob-ject") <> cleanName "Ob-ject".
Proof. vm_compute. discriminate. Qed.

(** ** Name normalizer *)

(** C9. [cleanName] applied twice to a name without hyphens and periods
    gives what one application gives (such a name is in fact left as it
    is, unless it is ["Object"]); [cleanName "Object"] is the alias
    ["OnvifObject"]; [cleanName "a-b.c"] is ["abc"]. *)
Theorem cleanName_idempotent_on_clean_names :
  (forall name : string,
      JS.test_hyphen_period name = false ->
      cleanName (cleanName name) = cleanName name
      /\ (name <> "Object" -> cleanName name = name))
  /\ cleanName "Object" = "OnvifObject"
  /\ cleanName "a-b.c" = "abc".
Proof.
  split; [|split; reflexivity].
  intros name Hclean. split; [|now apply cleanName_clean].
  unfold cleanName at 2 3.
  destruct (String.eqb name "Object") eqn:E; [reflexivity|].
  rewrite (strip_hyphen_period_clean name Hclean).
  unfold cleanName. rewrite E. now apply strip_hyphen_period_clean.
Qed.

Lemma cleanName_idempotent_witness :
  JS.test_hyphen_period "VideoSource" = false
  /\ cleanName (cleanName "VideoSource") = cleanName "VideoSource".
Proof.
  split; [reflexivity|].
  exact (proj1 (proj1 cleanName_idempotent_on_clean_names "VideoSource"
                  eq_refl)).
Defined.

(** C8, as the code has it. [camelCase] lower-cases the leading character
    exactly when the second character is a lower-case letter, and leaves
    the name as it is when the second character is missing, upper-case or
    no letter; the outcome is wrapped in single quotes exactly when it
    contains a hyphen or a period, which is exactly when [name] does. *)
Theorem camelCase_lowers_before_lower_case :
  forall name : string,
    camelCase name
    = quoted (if second_is_lower name then lower_first name else name)
    /\ JS.test_hyphen_period
         (if second_is_lower name then lower_first name else name)
       = JS.test_hyphen_period name.
Proof.
  intros [|c [|d r]]; try (split; reflexivity).
  unfold camelCase, second_is_lower, lower_first.
  change (JS.charAt 1 (String c (String d r))) with (String d EmptyString).
  rewrite upper_char_differs, negb_involutive.
  change (JS.toLowerCase (JS.charAt 0 (String c (String d r)))
          +:+ JS.slice 1 (String c (String d r)))
    with (String (JS.lower_char c) (String d r)).
  destruct (JS.is_lower d); cbn [JS.truthy andb]; split; try reflexivity.
  cbn [JS.test_hyphen_period]. now rewrite lower_char_hyphen_period.
Qed.

(** C8, as stated, fails: ["Token"] has a lower-case second character and
    its leading character is lower-cased all the same, and ["PTZ"] has
    none and keeps its leading character. *)
Lemma camelCase_not_as_specified :
  second_is_lower "Token" = true
  /\ camelCase "Token" = "token"
  /\ AsSpecified.camelCase "Token" = "Token"
  /\ second_is_lower "PTZ" = false
  /\ camelCase "PTZ" = "PTZ"
  /\ AsSpecified.camelCase "PTZ" = "pTZ".
Proof. repeat split. Qed.

(** ** Member builder *)

Lemma required_precedence (m : Meta.t) :
  negb (required m) = optional_by_precedence m.
Proof.
  unfold required, optional_by_precedence. rewrite !falsy_blank.
  destruct (JS.equals (Meta.use m) "optional"),
    (JS.equals (Meta.use m) "required"),
    (JS.equals (Meta.minOccurs m) "1"),
    (blank (Meta.minOccurs m)), (blank (Meta.maxOccurs m)); reflexivity.
Qed.

(** C1, as the code has it. Whenever the attribute or element has a name
    (its own, or one taken from [ref]), [createProperty] returns a
    property whose question token follows the precedence: [use="optional"]
    makes it optional; otherwise [use="required"], [minOccurs="1"], or
    [minOccurs] and [maxOccurs] both absent or empty make it required;
    anything else is optional. *)
Theorem createProperty_optionality :
  forall (attribute : IAttribute) (name : string) (st : State),
    propertyName (meta attribute) = Some name ->
    exists type st',
      createProperty attribute st
      = Ok (createAnnotationIfExists (annotation attribute)
              (PropertySignature (camelCase name)
                 (optional_by_precedence (meta attribute)) type), st').
Proof.
  intros attribute name st Hname. unfold createProperty. rewrite Hname.
  rewrite required_precedence. unfold bind.
  destruct (startsUpperCase _); simpl; eauto.
Qed.

Lemma createProperty_optionality_witness :
  exists type st',
    createProperty
      {| meta := Meta.make (Some "tt:Item") (Some "Items") None
                   (Some "unbounded") (Some "0") None None None;
         annotation := None |}
      (Sample.fresh "onvif")
    = Ok (PropertySignature "items" true type, st').
Proof.
  apply (createProperty_optionality
           {| meta := Meta.make (Some "tt:Item") (Some "Items") None
                        (Some "unbounded") (Some "0") None None None;
              annotation := None |} "Items").
  reflexivity.
Defined.

(** C1, as stated, fails: an empty [minOccurs] is present and is not ["1"], the
    stated rule makes the property optional, and [createProperty] emits it
    without a question token. *)
Lemma createProperty_empty_minOccurs_is_required :
  AsSpecified.optional_by_precedence (meta Sample.empty_minOccurs) = true
  /\ createProperty Sample.empty_minOccurs (Sample.fresh "onvif")
     = Ok (PropertySignature "count" false (TypeReference "number"),
           Sample.fresh "onvif").
Proof. split; reflexivity. Qed.

(** ** The generation monad *)

Lemma bind_Ok {A B : Type} (m : M A) (k : A -> M B) (st : State) (r : B * State) :
  bind m k st = Ok r <-> exists a st', m st = Ok (a, st') /\ k a st' = Ok r.
Proof.
  unfold bind. destruct (m st) as [[a st']|e]; split.
  - eauto.
  - now intros (a0 & st0 & [= <- <-] & H).
  - discriminate.
  - now intros (a0 & st0 & [=] & _).
Qed.

Lemma bind_Throw {A B : Type} (m : M A) (k : A -> M B) (st : State) (e : exn) :
  bind m k st = @Throw (B * State) e
  <-> m st = Throw e \/ exists a st', m st = Ok (a, st') /\ k a st' = Throw e.
Proof.
  unfold bind. destruct (m st) as [[a st']|e']; split.
  - eauto.
  - intros [[=]|(a0 & st0 & [= <- <-] & H)]. exact H.
  - intros [= ->]. now left.
  - intros [[= ->]|(a0 & st0 & [=] & _)]. reflexivity.
Qed.

Lemma only_uses_refl (st : State) : only_uses st st.
Proof. repeat split. Qed.

Lemma only_uses_trans (st1 st2 st3 : State) :
  only_uses st1 st2 -> only_uses st2 st3 -> only_uses st1 st3.
Proof.
  unfold only_uses. intros (?&?&?&?&?) (?&?&?&?&?).
  repeat split; congruence.
Qed.

Lemma usedTypes_add_only_uses (typeName : string) (st : State) (r : unit) (st' : State) :
  usedTypes_add typeName st = Ok (r, st') -> only_uses st st'.
Proof. intros [= _ <-]. repeat split. Qed.

Lemma createProperty_only_uses (attribute : IAttribute) (st : State)
    (node : Node) (st' : State) :
  createProperty attribute st = Ok (node, st') -> only_uses st st'.
Proof.
  unfold createProperty. destruct (propertyName _); [|discriminate].
  intros H. apply bind_Ok in H as (u & st1 & H1 & [= _ <-]).
  destruct (startsUpperCase _).
  - eapply usedTypes_add_only_uses; eassumption.
  - injection H1 as _ <-. apply only_uses_refl.
Qed.

Lemma createProperty_Throw (attribute : IAttribute) (st : State) (e : exn) :
  createProperty attribute st = Throw e -> e = TypeError.
Proof.
  unfold createProperty. destruct (propertyName _); [|now intros [= <-]].
  intros H. apply bind_Throw in H as [H|(u & st1 & _ & [=])].
  destruct (startsUpperCase _); discriminate.
Qed.

Lemma mapM_only_uses {A : Type} (f : A -> M Node) (xs : list A) :
  (forall x st y st', f x st = Ok (y, st') -> only_uses st st') ->
  forall st ys st', mapM f xs st = Ok (ys, st') -> only_uses st st'.
Proof.
  intros Hf. induction xs as [|x xs IH]; intros st ys st'; simpl.
  - intros [= _ <-]. apply only_uses_refl.
  - intros H. apply bind_Ok in H as (y & st1 & H1 & H).
    apply bind_Ok in H as (ys' & st2 & H2 & [= _ <-]).
    eapply only_uses_trans; eauto.
Qed.

Lemma attributeMembers_only_uses (xs_attribute : option (array IAttribute))
    (st : State) (members : list Node) (st' : State) :
  attributeMembers xs_attribute st = Ok (members, st') -> only_uses st st'.
Proof.
  destruct xs_attribute as [attributes|]; unfold attributeMembers.
  - apply mapM_only_uses. intros x s y s'. apply createProperty_only_uses.
  - intros [= _ <-]. apply only_uses_refl.
Qed.

Lemma attributeMembers_Throw (xs_attribute : option (array IAttribute))
    (st : State) (e : exn) :
  attributeMembers xs_attribute st = Throw e -> e = TypeError.
Proof.
  destruct xs_attribute as [attributes|]; [|discriminate].
  unfold attributeMembers. generalize (to_list attributes) as l.
  intros l. revert st. induction l as [|x l IH]; intros st; simpl; [discriminate|].
  intros H. apply bind_Throw in H as [H|(y & st1 & _ & H)].
  - eapply createProperty_Throw; eassumption.
  - apply bind_Throw in H as [H|(ys & st2 & _ & [=])]. eauto.
Qed.

Lemma anyMembers_Ok {CT : Type} (s : Sequence CT) (st : State)
    (wildcard : list Node) (st' : State) :
  anyMembers s st = Ok (wildcard, st') -> st' = st.
Proof.
  unfold anyMembers. destruct (any s) as [a|]; [|now intros [= _ <-]].
  destruct (any_meta (first a)) as [m|]; [|discriminate].
  destruct (JS.equals _ _); now intros [= _ <-].
Qed.

Lemma anyMembers_Throw {CT : Type} (s : Sequence CT) (st : State) (e : exn) :
  anyMembers s st = Throw e -> e = TypeError.
Proof.
  unfold anyMembers. destruct (any s) as [a|]; [|discriminate].
  destruct (any_meta (first a)) as [m|]; [|now intros [= <-]].
  destruct (JS.equals _ _); discriminate.
Qed.

Lemma extendInterface_Ok (interfaceName : string) (st : State) :
  exists heritage st',
    extendInterface interfaceName st = Ok (heritage, st') /\ only_uses st st'.
Proof.
  unfold extendInterface. destruct (JS.truthy interfaceName).
  - eexists _, _. split; [reflexivity|]. repeat split.
  - eexists _, _. split; [reflexivity|]. apply only_uses_refl.
Qed.

Lemma has_In (x : string) (s : list string) :
  StringSet.has x s = true <-> In x s.
Proof.
  unfold StringSet.has. rewrite existsb_exists. split.
  - intros (y & Hy & E). apply String.eqb_eq in E. now subst.
  - intros H. exists x. split; [assumption|apply String.eqb_refl].
Qed.

Lemma has_add (x : string) (s : list string) :
  StringSet.has x (StringSet.add x s) = true.
Proof.
  unfold StringSet.add. destruct (StringSet.has x s) eqn:E; [assumption|].
  apply has_In, in_or_app. right. now left.
Qed.

Lemma addNode_Ok (name : string) (node : Node) (st : State) :
  exists st', addNode name node st = Ok (tt, st')
              /\ StringSet.has name (declaredTypes (this st')) = true.
Proof.
  unfold addNode.
  destruct (StringSet.has name (declaredTypes (this st))) eqn:E.
  - eexists. split; [reflexivity|]. exact E.
  - eexists. split; [reflexivity|]. apply has_add.
Qed.


Lemma generateComplexTypeInterfaceAs_unfold (name : option string)
    (complexType : IComplexType) :
  generateComplexTypeInterfaceAs name complexType
  = generateComplexTypeInterface_body generateComplexTypeInterfaceAs name complexType.
Proof. destruct complexType; reflexivity. Qed.

(** The three cases of [elementMember]: an inline complex type, a text
    entry, no [xs:complexType]. *)
Lemma elementMember_cases {CT : Type} (generate : option string -> CT -> M unit)
    (e : SequenceElement CT) :
  (exists entries complexType,
      element_complexType e = Some entries
      /\ first entries = EntryObject complexType
      /\ elementMember generate e
         = (generate (Meta.name (element_meta e)) complexType ;;
            createProperty
              {| meta := Meta.set_type
                           (Some ("tt:" +:+ JS.template (Meta.name (element_meta e))))
                           (element_meta e);
                 annotation := element_annotation e |})%gen)
  \/ (exists entries text,
         element_complexType e = Some entries
         /\ first entries = EntryText text
         /\ elementMember generate e = throw TypeError)
  \/ (element_complexType e = None
      /\ elementMember generate e
         = createProperty {| meta := element_meta e;
                             annotation := element_annotation e |}).
Proof.
  unfold elementMember. destruct (element_complexType e) as [entries|]; [|auto].
  destruct (first entries) as [complexType|text] eqn:E; [left|right; left]; eauto.
Qed.

Lemma nested_type_Some (e : SequenceElement IComplexType)
    (entries : array (Entry IComplexType)) (complexType : IComplexType) :
  element_complexType e = Some entries ->
  first entries = EntryObject complexType ->
  nested_type e = Some complexType.
Proof. intros H1 H2. unfold nested_type. now rewrite H1, H2. Qed.

(** ** Complex types *)

(** C3. A complex type whose extension base, without its namespace
    prefix, is the type's own name: [generateComplexTypeInterface] returns
    normally and leaves the whole state as it was, so no declaration is
    emitted and nothing enters [usedTypes] or [declaredTypes]. *)
Theorem self_extension_is_skipped :
  forall (complexType : IComplexType) (name : string)
         (c : array (ComplexContent IComplexType)) (st : State),
    Meta.name (complex_meta complexType) = Some name ->
    complexContent complexType = Some c ->
    localName (base (first (extension (first c)))) = name ->
    generateComplexTypeInterface complexType st = Ok (tt, st).
Proof.
  intros complexType name c st Hname Hc Hbase.
  unfold generateComplexTypeInterface.
  rewrite generateComplexTypeInterfaceAs_unfold, Hname.
  unfold generateComplexTypeInterface_body. rewrite Hc, Hbase.
  now rewrite String.eqb_refl.
Qed.

Lemma self_extension_witness :
  generateComplexTypeInterface
    (ComplexType (Sample.named "Extension") None
       (Some (Sample.extending "tt:Extension" None)) None None)
    (Sample.fresh "onvif")
  = Ok (tt, Sample.fresh "onvif").
Proof.
  apply (self_extension_is_skipped _ "Extension"
           (Sample.extending "tt:Extension" None)); reflexivity.
Defined.




Lemma generateMembers_Ok (generate : option string -> IComplexType -> M unit)
    (name : string) (xs_annotation : Annotations) (heritage : option (list string))
    (xs_attribute : option (array IAttribute))
    (xs_sequence : option (array (Sequence IComplexType))) (st st' : State) :
  generateMembers generate name xs_annotation heritage xs_attribute xs_sequence st
  = Ok (tt, st') ->
  StringSet.has name (declaredTypes (this st')) = true
  \/ (name = "Capabilities"
      /\ exists s, xs_sequence = Some s /\ element (first s) = None).
Proof.
  unfold generateMembers. intros H.
  apply bind_Ok in H as (members & st1 & _ & H).
  assert (Hdeclare : forall node st0,
             addNode name node st0 = Ok (tt, st') ->
             StringSet.has name (declaredTypes (this st')) = true).
  { intros node st0 Hadd.
    destruct (addNode_Ok name node st0) as (st2 & E & Hhas). congruence. }
  destruct xs_sequence as [s|]; [|left; eauto].
  destruct (element (first s)) as [elements|] eqn:Hel.
  - apply bind_Ok in H as (properties & st2 & _ & H).
    apply bind_Ok in H as (wildcard & st3 & _ & H). left; eauto.
  - destruct (String.eqb_spec name "Capabilities") as [->|_]; [right; eauto|].
    apply bind_Ok in H as (wildcard & st3 & _ & H). left; eauto.
Qed.

Lemma generateMembers_Capabilities
    (generate : option string -> IComplexType -> M unit)
    (xs_annotation : Annotations) (heritage : option (list string))
    (xs_attribute : option (array IAttribute))
    (s : array (Sequence IComplexType)) (st st' : State) :
  element (first s) = None ->
  generateMembers generate "Capabilities" xs_annotation heritage xs_attribute
    (Some s) st = Ok (tt, st') ->
  only_uses st st'.
Proof.
  unfold generateMembers. intros Hel H.
  apply bind_Ok in H as (members & st1 & Hattr & H).
  rewrite Hel in H. injection H as <-.
  eapply attributeMembers_only_uses; eassumption.
Qed.

Lemma generateElementType_otherwise (e : IElement) :
  inline_type e = None ->
  generateElementType e
  = match top_type e with
    | Some type =>
        if JS.truthy type then generateElementType_typed e type else ret None
    | None => ret None
    end.
Proof.
  unfold generateElementType, inline_type.
  destruct (top_complexType e) as [entries0|]; [|reflexivity].
  destruct (first entries0); [discriminate|reflexivity].
Qed.

Lemma generateElementType_inline (e : IElement) (complexType : IComplexType) :
  inline_type e = Some complexType ->
  generateElementType e
  = (generateComplexTypeInterfaceAs (Some (top_name e)) complexType ;;
     ret None)%gen.
Proof.
  unfold generateElementType, inline_type.
  destruct (top_complexType e) as [entries0|]; [|discriminate].
  destruct (first entries0); [now intros [= ->]|discriminate].
Qed.

(** C10, as the code has it. A complex type named ["Capabilities"] whose
    sequence in effect has no element array: whenever
    [generateComplexTypeInterface] returns, the nodes, the declared types
    and the registry are as before, with or without a [##any] wildcard in
    the sequence, and it does return, with the state untouched, when the
    type has no complexContent and no attribute. A top-level element named
    ["Capabilities"] of type ["tds:DeviceServiceCapabilities"] in the
    module ["devicemgmt"], with no inline complex type, leaves the state
    untouched as well. These are the only names that hold a declaration
    back: after a normal return the type is declared in the module unless
    it extends itself or is the ["Capabilities"] case, and a typed
    top-level element is declared unless it inherits from itself or is the
    ["devicemgmt"] case. The identifier of a declaration is the name
    without its hyphens and periods for every name but ["Object"]. *)
Theorem Capabilities_are_the_only_names_held_back :
  (forall (complexType : IComplexType) (s : array (Sequence IComplexType))
          (st : State),
      Meta.name (complex_meta complexType) = Some "Capabilities" ->
      sequence_in_effect complexType = Some s ->
      element (first s) = None ->
      (forall st',
          generateComplexTypeInterface complexType st = Ok (tt, st') ->
          nodes (this st') = nodes (this st)
          /\ declaredTypes (this st') = declaredTypes (this st)
          /\ links st' = links st)
      /\ (complexContent complexType = None ->
          attribute complexType = None ->
          generateComplexTypeInterface complexType st = Ok (tt, st)))
  /\ (forall (e : IElement) (st : State),
         fileName (this st) = "devicemgmt" ->
         top_name e = "Capabilities" ->
         top_type e = Some "tds:DeviceServiceCapabilities" ->
         inline_type e = None ->
         generateElementType e st
         = Ok (Some (Identifier "// 'Capabilities' in deviceMgmt"), st))
  /\ (forall (complexType : IComplexType) (name : string) (st st' : State),
         Meta.name (complex_meta complexType) = Some name ->
         generateComplexTypeInterface complexType st = Ok (tt, st') ->
         StringSet.has name (declaredTypes (this st')) = true
         \/ extends_itself name complexType
         \/ (name = "Capabilities"
             /\ exists s, sequence_in_effect complexType = Some s
                          /\ element (first s) = None))
  /\ (forall (e : IElement) (type : string) (st : State) (r : option Node)
             (st' : State),
         inline_type e = None ->
         top_type e = Some type ->
         JS.truthy type = true ->
         generateElementType e st = Ok (r, st') ->
         StringSet.has (cleanName (top_name e)) (declaredTypes (this st')) = true
         \/ cleanName (top_name e) = localName (cleanName type)
         \/ (fileName (this st) = "devicemgmt"
             /\ top_name e = "Capabilities"
             /\ type = "tds:DeviceServiceCapabilities"))
  /\ (forall name : string,
         name <> "Object" -> cleanName name = JS.strip_hyphen_period name).
Proof.
  split; [|split; [|split; [|split]]];
    [| | | |intros name Hname; unfold cleanName;
            now destruct (String.eqb_spec name "Object")].
  - intros complexType s st Hname Heff Hel.
    unfold generateComplexTypeInterface, sequence_in_effect in *.
    rewrite generateComplexTypeInterfaceAs_unfold, Hname.
    unfold generateComplexTypeInterface_body. split.
    + intros st'. destruct (complexContent complexType) as [c|].
      * destruct (String.eqb _ _); [now intros [= <-]|].
        intros H. apply bind_Ok in H as (heritage & st1 & Hext & H).
        destruct (extendInterface_Ok
                    (localName (base (first (extension (first c))))) st)
          as (h & st2 & E & Huses).
        rewrite E in Hext. injection Hext as -> ->.
        destruct (sequence complexType); [discriminate|].
        rewrite Heff in H.
        apply generateMembers_Capabilities in H; [|assumption].
        destruct (only_uses_trans _ _ _ Huses H) as (_ & ? & ? & ? & _).
        auto.
      * rewrite Heff. intros H.
        apply generateMembers_Capabilities in H; [|assumption].
        destruct H as (_ & ? & ? & ? & _). auto.
    + intros Hc Hattr. rewrite Hc in *. rewrite Hattr, Heff.
      unfold generateMembers, attributeMembers, bind, ret.
      now rewrite Hel.
  - intros e st Hfile Hname Htype Hinline.
    rewrite (generateElementType_otherwise e Hinline), Htype.
    unfold generateElementType_typed. cbn [JS.truthy].
    now rewrite Hfile, Hname.
  - intros complexType name st st' Hname.
    unfold generateComplexTypeInterface, sequence_in_effect, extends_itself.
    rewrite generateComplexTypeInterfaceAs_unfold, Hname.
    unfold generateComplexTypeInterface_body.
    destruct (complexContent complexType) as [c|].
    + destruct (String.eqb_spec name
                  (localName (base (first (extension (first c)))))) as [E|_].
      * intros _. right; left. eauto.
      * intros H. apply bind_Ok in H as (heritage & st1 & _ & H).
        destruct (sequence complexType); [discriminate|].
        apply generateMembers_Ok in H as [H|H]; auto.
    + intros H. apply generateMembers_Ok in H as [H|H]; auto.
  - intros e type st r st' Hinline Htype Htruthy.
    rewrite (generateElementType_otherwise e Hinline), Htype, Htruthy.
    unfold generateElementType_typed.
    destruct (String.eqb_spec (fileName (this st)) "devicemgmt") as [Ef|_];
      destruct (String.eqb_spec (top_name e) "Capabilities") as [En|_];
      destruct (String.eqb_spec type "tds:DeviceServiceCapabilities") as [Et|_];
      cbn [andb]; auto;
      (destruct (String.eqb_spec (cleanName (top_name e))
                   (localName (cleanName type))) as [E|_]; [auto|];
       intros H; apply bind_Ok in H as (heritage & st1 & _ & H);
       apply bind_Ok in H as (u & st2 & Hadd & [= _ <-]);
       destruct (addNode_Ok (cleanName (top_name e))
                   (createAnnotationIfExists (top_annotation e)
                      (InterfaceDeclaration (cleanName (top_name e)) heritage []))
                   st1) as (st3 & E3 & Hhas);
       destruct u; rewrite E3 in Hadd; injection Hadd as <-; auto).
Qed.

Lemma Capabilities_witness :
  generateComplexTypeInterface (Sample.open_type "Capabilities")
    (Sample.fresh "devicemgmt")
  = Ok (tt, Sample.fresh "devicemgmt")
  /\ generateElementType
       {| top_name := "Capabilities";
          top_type := Some "tds:DeviceServiceCapabilities";
          top_complexType := None;
          top_annotation := None |}
       (Sample.fresh "devicemgmt")
     = Ok (Some (Identifier "// 'Capabilities' in deviceMgmt"),
           Sample.fresh "devicemgmt").
Proof.
  split.
  - apply (proj2 (proj1 Capabilities_are_the_only_names_held_back
                    (Sample.open_type "Capabilities") Sample.open_sequence
                    (Sample.fresh "devicemgmt") eq_refl eq_refl eq_refl));
      reflexivity.
  - apply (proj1 (proj2 Capabilities_are_the_only_names_held_back));
      reflexivity.
Defined.

(** C10, as stated, fails in its last clause: the name ["Object"] is a
    third literal name with a case of its own. The type is declared under
    the name ["Object"] with the identifier ["OnvifObject"], where any
    other name without hyphens and periods, ["Objects"] say, keeps its
    identifier. *)
Lemma Object_is_special_too :
  (exists st',
      generateComplexTypeInterface
        (ComplexType (Sample.named "Object") None None None None)
        (Sample.fresh "onvif") = Ok (tt, st')
      /\ nodes (this st') = [InterfaceDeclaration "OnvifObject" None []]
      /\ declaredTypes (this st') = ["Object"])
  /\ (exists st',
         generateComplexTypeInterface
           (ComplexType (Sample.named "Objects") None None None None)
           (Sample.fresh "onvif") = Ok (tt, st')
         /\ nodes (this st') = [InterfaceDeclaration "Objects" None []]
         /\ declaredTypes (this st') = ["Objects"])
  /\ JS.test_hyphen_period "Object" = false.
Proof.
  split; [|split; [|reflexivity]];
    (eexists; split; [vm_compute; reflexivity|split; reflexivity]).
Qed.

(** ** The fatal construct *)

Lemma mapM_elementMember_Error
    (generate : option string -> IComplexType -> M unit)
    (l : list (SequenceElement IComplexType)) (st : State) (msg : string) :
  mapM (elementMember generate) l st = Throw (Error msg) ->
  exists e inline st0,
    In e l /\ nested_type e = Some inline
    /\ generate (Meta.name (element_meta e)) inline st0
       = Throw (Error msg).
Proof.
  revert st. induction l as [|e l IH]; intros st; simpl; [discriminate|].
  intros H. apply bind_Throw in H as [H|(y & st1 & _ & H)].
  - destruct (elementMember_cases generate e)
      as [(entries & inline & He & Hfirst & E)|[(entries & text & _ & _ & E)|[_ E]]];
      rewrite E in H.
    + apply bind_Throw in H as [H|(u & st1 & _ & H)].
      * exists e, inline, st. eauto using nested_type_Some.
      * apply createProperty_Throw in H. discriminate.
    + discriminate.
    + apply createProperty_Throw in H. discriminate.
  - apply bind_Throw in H as [H|(ys & st2 & _ & [=])].
    destruct (IH _ H) as (e' & inline & st0 & Hin & ? & ?).
    exists e', inline, st0. auto.
Qed.

Lemma addNode_Throw (name : string) (node : Node) (st : State) (e : exn) :
  addNode name node st <> Throw e.
Proof.
  destruct (addNode_Ok name node st) as (st' & E & _). congruence.
Qed.

Lemma generateMembers_Error
    (generate : option string -> IComplexType -> M unit)
    (name : string) (xs_annotation : Annotations) (heritage : option (list string))
    (xs_attribute : option (array IAttribute))
    (xs_sequence : option (array (Sequence IComplexType)))
    (st : State) (msg : string) :
  generateMembers generate name xs_annotation heritage xs_attribute xs_sequence st
  = Throw (Error msg) ->
  exists s elements e inline st0,
    xs_sequence = Some s /\ element (first s) = Some elements
    /\ In e (to_list elements) /\ nested_type e = Some inline
    /\ generate (Meta.name (element_meta e)) inline st0
       = Throw (Error msg).
Proof.
  unfold generateMembers. intros H.
  apply bind_Throw in H as [H|(members & st1 & _ & H)].
  { apply attributeMembers_Throw in H. discriminate. }
  destruct xs_sequence as [s|]; [|now apply addNode_Throw in H].
  destruct (element (first s)) as [elements|] eqn:Hel.
  - apply bind_Throw in H as [H|(properties & st2 & _ & H)];
      [|(apply bind_Throw in H as [H|(wildcard & st3 & _ & H)];
       [apply anyMembers_Throw in H; discriminate|now apply addNode_Throw in H])].
    apply mapM_elementMember_Error in H as (e & inline & st0 & ? & ? & ?).
    exists s, elements, e, inline, st0. auto.
  - destruct (String.eqb name "Capabilities"); [discriminate|].
    (apply bind_Throw in H as [H|(wildcard & st3 & _ & H)];
       [apply anyMembers_Throw in H; discriminate|now apply addNode_Throw in H]).
Qed.

Lemma all_sequence_reached (P : IComplexType -> Prop)
    (xs_sequence : option (array (Sequence IComplexType)))
    (s : array (Sequence IComplexType))
    (elements : array (SequenceElement IComplexType))
    (e : SequenceElement IComplexType) (inline : IComplexType) :
  all_option (all_array (all_sequence P)) xs_sequence ->
  xs_sequence = Some s ->
  element (first s) = Some elements ->
  In e (to_list elements) ->
  nested_type e = Some inline ->
  P inline.
Proof.
  intros Hall -> Hel Hin Hinline.
  unfold all_option in Hall. unfold all_array at 1 in Hall.
  unfold to_list at 1 in Hall.
  apply Forall_inv in Hall. unfold all_sequence, all_option in Hall.
  rewrite Hel in Hall. unfold all_array in Hall.
  rewrite List.Forall_forall in Hall. specialize (Hall e Hin).
  unfold all_element in Hall. now rewrite Hinline in Hall.
Qed.

Lemma generate_Error_conflicting (complexType : IComplexType) :
  forall (name : option string) (st : State) (msg : string),
    generateComplexTypeInterfaceAs name complexType st = Throw (Error msg) ->
    conflicting name complexType.
Proof.
  induction complexType as [complexType IHcontent IHown]
    using IComplexType_nested_ind.
  intros name st msg. rewrite generateComplexTypeInterfaceAs_unfold.
  unfold generateComplexTypeInterface_body.
  destruct name as [name|]; [|discriminate].
  destruct (complexContent complexType) as [c|] eqn:Hc.
  - destruct (String.eqb_spec name
                (localName (base (first (extension (first c)))))) as [E|NE];
      [discriminate|].
    intros H. apply bind_Throw in H as [H|(heritage & st1 & _ & H)].
    { destruct (extendInterface_Ok
                  (localName (base (first (extension (first c))))) st)
        as (h & st2 & E & _). congruence. }
    destruct (sequence complexType) as [s|] eqn:Hs.
    + eapply conflicting_here; eauto.
    + apply generateMembers_Error in H
        as (s & elements & e & inline & st0 & Hseq & Hel & Hin & Hinline & H).
      eapply conflicting_inline; eauto.
      * intros (c' & Hc' & E). congruence.
      * unfold sequence_in_effect. now rewrite Hc.
      * unfold all_option in IHcontent. unfold all_array at 1 in IHcontent.
        unfold to_list at 1 in IHcontent. apply Forall_inv in IHcontent.
        unfold all_content in IHcontent. unfold all_array at 1 in IHcontent.
        unfold to_list at 1 in IHcontent. apply Forall_inv in IHcontent.
        eapply (all_sequence_reached _ _ _ _ _ _ IHcontent Hseq Hel Hin Hinline).
        eassumption.
  - intros H. apply generateMembers_Error in H
      as (s & elements & e & inline & st0 & Hseq & Hel & Hin & Hinline & H).
    eapply conflicting_inline; eauto.
    + intros (c' & Hc' & E). congruence.
    + unfold sequence_in_effect. now rewrite Hc.
    + eapply (all_sequence_reached _ _ _ _ _ _ IHown Hseq Hel Hin Hinline).
      eassumption.
Qed.

Lemma forEach_Throw {A : Type} (f : A -> M unit) (xs : list A) (st : State)
    (e : exn) :
  forEach f xs st = Throw e -> exists x st0, In x xs /\ f x st0 = Throw e.
Proof.
  revert st. induction xs as [|x xs IH]; intros st; simpl; [discriminate|].
  intros H. apply bind_Throw in H as [H|(u & st1 & _ & H)].
  - exists x, st. auto.
  - destruct (IH _ H) as (x' & st0 & ? & ?). exists x', st0. auto.
Qed.

Lemma generateSimpleTypeInterface_Throw (simpleType : ISimpleType) (st : State)
    (e : exn) :
  generateSimpleTypeInterface simpleType st = Throw e -> e = TypeError.
Proof.
  unfold generateSimpleTypeInterface.
  destruct (Meta.name (simple_meta simpleType)); [|now intros [= <-]].
  destruct (restriction simpleType) as [r|].
  - destruct (enumeration (first r)); [intros H; now apply addNode_Throw in H|].
    intros H. apply bind_Throw in H as [H|(u & st1 & _ & H)].
    + destruct (startsUpperCase _); discriminate.
    + now apply addNode_Throw in H.
  - destruct (list_itemType simpleType); [|discriminate].
    intros H. now apply addNode_Throw in H.
Qed.

Lemma generateElementType_Error (e : IElement) (st : State) (msg : string) :
  generateElementType e st = Throw (Error msg) ->
  exists complexType,
    inline_type e = Some complexType
    /\ conflicting (Some (top_name e)) complexType.
Proof.
  destruct (inline_type e) as [complexType|] eqn:Hinline.
  - rewrite (generateElementType_inline e complexType Hinline).
    intros H. apply bind_Throw in H as [H|(u & st1 & _ & [=])].
    apply generate_Error_conflicting in H. eauto.
  - rewrite (generateElementType_otherwise e Hinline).
    destruct (top_type e) as [type|]; [|discriminate].
    destruct (JS.truthy type); [|discriminate].
    unfold generateElementType_typed.
    destruct (_ && _); [discriminate|].
    destruct (String.eqb _ _); [discriminate|].
    intros H. apply bind_Throw in H as [H|(heritage & st1 & _ & H)].
    + destruct (extendInterface_Ok (localName (cleanName type)) st)
        as (h & st2 & E & _). congruence.
    + apply bind_Throw in H as [H|(u & st2 & _ & [=])].
      now apply addNode_Throw in H.
Qed.

Lemma prefix_Error (schema : ISchemaDefinition) (st : State) (msg : string) :
  prefix (Some schema) st = Throw (Error msg) ->
  (exists complexType,
      In complexType (entries (xs_complexType schema))
      /\ conflicting (Meta.name (complex_meta complexType)) complexType)
  \/ (exists e complexType,
         In e (entries (xs_element schema))
         /\ inline_type e = Some complexType
         /\ conflicting (Some (top_name e)) complexType).
Proof.
  unfold prefix. intros H.
  apply bind_Throw in H as [H|(u & st1 & _ & [=])].
  assert (Heach : forall (A B : Type) (f : A -> M B) (xs : option (array A)) s0,
             match xs with
             | Some xs => forEach (fun x => f x ;; ret tt)%gen (to_list xs)
             | None => ret tt
             end s0 = Throw (Error msg) ->
             exists x s1, In x (entries xs) /\ f x s1 = Throw (Error msg)).
  { intros A B f [xs|] s0 Hxs; [|discriminate].
    apply forEach_Throw in Hxs as (x & s1 & Hin & Hx).
    apply bind_Throw in Hx as [Hx|(b & s2 & _ & [=])]. exists x, s1. auto. }
  apply bind_Throw in H as [H|(u1 & st2 & _ & H)].
  { apply Heach in H as (x & s1 & _ & H).
    apply generateSimpleTypeInterface_Throw in H. discriminate. }
  apply bind_Throw in H as [H|(u2 & st3 & _ & H)].
  - apply Heach in H as (complexType & s1 & Hin & H).
    apply generate_Error_conflicting in H. left. eauto.
  - apply Heach in H as (e & s1 & Hin & H).
    apply generateElementType_Error in H as (complexType & ? & ?).
    right. eauto.
Qed.

(** C4, as the code has it. A complex type with a complexContent
    extension of another type (the base's local name is not the type's own
    name) and an own [xs:sequence] makes [generateComplexTypeInterface]
    throw its [Error]. No other construct does: when the method throws an
    [Error], the type itself or an inline complex type that generation
    reaches from it is such a type; so a type with a complexContent
    extension and no own sequence throws an [Error] only on account of an
    inline complex type among the elements of the extension's sequence.
    And when the generation of a whole document throws an [Error], one of
    its top-level complex types, or the inline complex type of one of its
    top-level elements, is or reaches such a type. *)
Theorem extension_with_own_sequence_is_fatal :
  (forall (complexType : IComplexType) (name : string)
          (c : array (ComplexContent IComplexType))
          (s : array (Sequence IComplexType)) (st : State),
      Meta.name (complex_meta complexType) = Some name ->
      complexContent complexType = Some c ->
      localName (base (first (extension (first c)))) <> name ->
      sequence complexType = Some s ->
      generateComplexTypeInterface complexType st
      = Throw (Error "complexType['xs:sequence'] in complexContent: complexType.meta.name"))
  /\ (forall (complexType : IComplexType) (st : State) (msg : string),
         generateComplexTypeInterface complexType st = Throw (Error msg) ->
         conflicting (Meta.name (complex_meta complexType)) complexType)
  /\ (forall (complexType : IComplexType)
             (c : array (ComplexContent IComplexType)) (st : State) (msg : string),
         complexContent complexType = Some c ->
         sequence complexType = None ->
         generateComplexTypeInterface complexType st = Throw (Error msg) ->
         exists s elements e inline,
           extension_sequence (first (extension (first c))) = Some s
           /\ element (first s) = Some elements
           /\ In e (to_list elements)
           /\ nested_type e = Some inline
           /\ conflicting (Meta.name (element_meta e)) inline)
  /\ (forall (schema : ISchemaDefinition) (st : State) (msg : string),
         prefix (Some schema) st = Throw (Error msg) ->
         (exists complexType,
             In complexType (entries (xs_complexType schema))
             /\ conflicting (Meta.name (complex_meta complexType)) complexType)
         \/ (exists e complexType,
                In e (entries (xs_element schema))
                /\ inline_type e = Some complexType
                /\ conflicting (Some (top_name e)) complexType)).
Proof.
  split; [|split; [|split]].
  - intros complexType name c s st Hname Hc Hbase Hs.
    unfold generateComplexTypeInterface.
    rewrite generateComplexTypeInterfaceAs_unfold, Hname.
    unfold generateComplexTypeInterface_body. rewrite Hc.
    destruct (String.eqb_spec name
                (localName (base (first (extension (first c)))))) as [E|_];
      [congruence|].
    destruct (extendInterface_Ok
                (localName (base (first (extension (first c))))) st)
      as (h & st1 & E & _).
    unfold bind. now rewrite E, Hs.
  - intros complexType st msg. apply generate_Error_conflicting.
  - intros complexType c st msg Hc Hs H.
    apply generate_Error_conflicting in H.
    inversion H as [name ct c' s' Hc' _ Hs' | name ct s elements e inline
                                                 _ Heff Hel Hin Hinline Hnested];
      subst; [congruence|].
    unfold sequence_in_effect in Heff. rewrite Hc in Heff.
    exists s, elements, e, inline. auto.
  - apply prefix_Error.
Qed.

Lemma extension_with_own_sequence_witness :
  generateComplexTypeInterface
    (ComplexType (Sample.named "PTZNode") None
       (Some (Sample.extending "tt:DeviceEntity" None)) None
       (Some Sample.open_sequence))
    (Sample.fresh "onvif")
  = Throw (Error "complexType['xs:sequence'] in complexContent: complexType.meta.name").
Proof.
  apply (proj1 extension_with_own_sequence_is_fatal _ "PTZNode"
           (Sample.extending "tt:DeviceEntity" None) Sample.open_sequence);
    solve [reflexivity | discriminate].
Defined.

(** C4, as stated, fails twice. A type that extends itself and has an own
    sequence is skipped without an error; and a type with an extension and
    no own sequence throws when an inline complex type of the extension's
    sequence has both. *)
Lemma extension_with_own_sequence_not_always_fatal :
  generateComplexTypeInterface
    (ComplexType (Sample.named "PTZNode") None
       (Some (Sample.extending "tt:PTZNode" None)) None
       (Some Sample.open_sequence))
    (Sample.fresh "onvif")
  = Ok (tt, Sample.fresh "onvif")
  /\ generateComplexTypeInterface
       (ComplexType (Sample.named "PTZNode") None
          (Some (Sample.extending "tt:DeviceEntity"
                   (Some (Sample.elements
                            (Sample.inline "Extension"
                               (ComplexType Meta.empty None
                                  (Some (Sample.extending "tt:Base" None)) None
                                  (Some Sample.open_sequence)))
                            []))))
          None None)
       (Sample.fresh "onvif")
     = Throw (Error "complexType['xs:sequence'] in complexContent: complexType.meta.name").
Proof. split; reflexivity. Qed.

(** ** Import resolver *)

Lemma difference_In (x : string) (s other : list string) :
  In x (StringSet.difference s other) <-> In x s /\ ~ In x other.
Proof.
  unfold StringSet.difference. rewrite filter_In, negb_true_iff.
  rewrite <- (has_In x other).
  destruct (StringSet.has x other); intuition congruence.
Qed.

Lemma imports_push_imported (f t : string) (imports : list (string * list string))
    (f' t' : string) :
  imported (imports_push f t imports) f' t'
  <-> imported imports f' t' \/ (f' = f /\ t' = t).
Proof.
  unfold imported. induction imports as [|[g types] imports IH]; simpl.
  - split.
    + intros (types & [[= <- <-]|[]] & [<-|[]]). auto.
    + intros [(types & [] & _)|[-> ->]]. exists [t]. split; now left.
  - destruct (String.eqb_spec g f) as [->|NE].
    + split.
      * intros (types' & [[= <- <-]|Hin] & Ht).
        -- apply in_app_or in Ht as [Ht|[<-|[]]]; [left|now right].
           exists types. split; [now left|assumption].
        -- left. exists types'. split; [now right|assumption].
      * intros [(types' & [[= <- <-]|Hin] & Ht)|[-> ->]].
        -- exists (types ++ [t]). split; [now left|].
           apply in_or_app. now left.
        -- exists types'. split; [now right|assumption].
        -- exists (types ++ [t]). split; [now left|].
           apply in_or_app. right. now left.
    + split.
      * intros (types' & [[= <- <-]|Hin] & Ht).
        -- left. exists types. split; [now left|assumption].
        -- assert (Hex : exists types0,
                      In (f', types0) (imports_push f t imports) /\ In t' types0)
             by eauto.
           apply IH in Hex as [(types'' & ? & ?)|?]; [left|now right].
           exists types''. split; [now right|assumption].
      * intros H.
        assert (Hex : (exists types0, In (f', types0) imports /\ In t' types0)
                      \/ (f' = f /\ t' = t) -> exists types0,
                     ((g, types) = (f', types0)
                      \/ In (f', types0) (imports_push f t imports))
                     /\ In t' types0).
        { intros Hor. apply IH in Hor as (types'' & ? & ?). eauto. }
        destruct H as [(types' & [[= <- <-]|Hin] & Ht)|E]; eauto.
        exists types. split; [now left|assumption].
Qed.

Lemma imports_push_keys (f t : string) (imports : list (string * list string)) :
  List.map fst (imports_push f t imports)
  = if existsb (String.eqb f) (List.map fst imports)
    then List.map fst imports
    else List.map fst imports ++ [f].
Proof.
  induction imports as [|[g types] imports IH]; simpl; [reflexivity|].
  rewrite (String.eqb_sym f g).
  destruct (String.eqb g f); simpl; [reflexivity|].
  rewrite IH. now destruct (existsb _ _).
Qed.

Lemma imports_push_NoDup (f t : string) (imports : list (string * list string)) :
  List.NoDup (List.map fst imports) ->
  List.NoDup (List.map fst (imports_push f t imports)).
Proof.
  intros Hnd. rewrite imports_push_keys.
  destruct (existsb _ _) eqn:E; [assumption|].
  apply List.NoDup_app;
    [assumption|constructor; [intros []|constructor]|].
  intros x Hx [->|[]].
  assert (existsb (String.eqb x) (List.map fst imports) = true); [|congruence].
  apply existsb_exists. exists x. split; [assumption|apply String.eqb_refl].
Qed.

(** What the loop of [suffix] leaves in [imports] and on the console when
    it ends, from any [imports] and console it starts with. *)
Lemma suffix_loop (links' : gmap string IType) (types : list string) :
  forall (imports : list (string * list string)) (out : list string)
         (r : list (string * list string) * list string),
    fold_result (suffix_step links') types (imports, out) = Ok r ->
    (List.NoDup (List.map fst imports) -> List.NoDup (List.map fst (fst r)))
    /\ (forall f t, imported (fst r) f t
                    <-> imported imports f t
                        \/ (In t types /\ owner links' t = Some f))
    /\ (forall t, In t types -> owner links' t = None ->
                  In ("Type " +:+ t +:+ " not found in links") (snd r))
    /\ (forall line, In line out -> In line (snd r)).
Proof.
  induction types as [|type types IH]; intros imports out r; simpl.
  - intros [= <-]. split; [auto|]. split; [|split].
    + intros f t. split; [intros H; now left|now intros [H|[[] _]]].
    + intros t [].
    + auto.
  - unfold suffix_step at 1. cbn [fst snd].
    destruct (owner links' type) as [fileName|] eqn:Howner.
    + assert (Hpush : fold_result (suffix_step links') types
                        (imports_push fileName type imports, out) = Ok r ->
                      (List.NoDup (List.map fst imports) ->
                       List.NoDup (List.map fst (fst r)))
                      /\ (forall f t, imported (fst r) f t
                                      <-> imported imports f t
                                          \/ ((type = t \/ In t types)
                                              /\ owner links' t = Some f))
                      /\ (forall t, type = t \/ In t types ->
                                    owner links' t = None ->
                                    In ("Type " +:+ t +:+ " not found in links")
                                       (snd r))
                      /\ (forall line, In line out -> In line (snd r))).
      { intros H. apply IH in H as (Hnd & Himp & Hwarn & Hout).
        split; [|split; [|split]].
        - intros H. apply Hnd. now apply imports_push_NoDup.
        - intros f t. rewrite Himp, imports_push_imported. split.
          + intros [[H|[-> ->]]|[H1 H2]]; auto.
          + intros [H|[[<-|H1] H2]]; auto.
            left. right. split; congruence.
        - intros t [<-|H1] H2; [congruence|]. now apply Hwarn.
        - assumption. }
      destruct (has_own fileName imports); [exact Hpush|].
      destruct (JSObject.inherited fileName); [discriminate|exact Hpush].
    + intros H. apply IH in H as (Hnd & Himp & Hwarn & Hout).
      split; [|split; [|split]].
      * assumption.
      * intros f t. rewrite Himp. split.
        -- intros [H|[H1 H2]]; auto.
        -- intros [H|[[<-|H1] H2]]; auto. congruence.
      * intros t [<-|H1] H2; [|now apply Hwarn].
        apply Hout, in_or_app. right. now left.
      * intros line Hline. apply Hout, in_or_app. now left.
Qed.

(** The loop throws only a [TypeError], and only at a type whose owner is
    named like a member of [Object.prototype]. *)
Lemma suffix_loop_Throw (links' : gmap string IType) (types : list string) :
  forall (imports : list (string * list string)) (out : list string) (e : exn),
    fold_result (suffix_step links') types (imports, out) = Throw e ->
    e = TypeError
    /\ exists t f, In t types /\ owner links' t = Some f
                   /\ JSObject.inherited f = true.
Proof.
  induction types as [|type types IH]; intros imports out e; simpl;
    [discriminate|].
  unfold suffix_step at 1. cbn [fst snd].
  assert (Hrest : forall acc,
             fold_result (suffix_step links') types acc = Throw e ->
             e = TypeError
             /\ exists t f, (type = t \/ In t types) /\ owner links' t = Some f
                            /\ JSObject.inherited f = true).
  { intros [imports' out'] H. apply IH in H as (-> & t & f & Hin & Ho & Hf).
    split; [reflexivity|]. exists t, f. auto. }
  destruct (owner links' type) as [fileName|] eqn:Howner; [|apply Hrest].
  destruct (has_own fileName imports); [apply Hrest|].
  destruct (JSObject.inherited fileName) eqn:Hf; [|apply Hrest].
  intros [= <-]. split; [reflexivity|]. exists type, fileName. auto.
Qed.

(** From an [imports] without an own property of such a name, it throws
    as soon as there is such a type. *)
Lemma suffix_loop_inherited (links' : gmap string IType) (types : list string) :
  forall (imports : list (string * list string)) (out : list string)
         (t f : string),
    (forall g, In g (List.map fst imports) -> JSObject.inherited g = false) ->
    In t types -> owner links' t = Some f -> JSObject.inherited f = true ->
    fold_result (suffix_step links') types (imports, out) = Throw TypeError.
Proof.
  induction types as [|type types IH]; intros imports out t f Hown Hin Ho Hf;
    [destruct Hin|]. simpl.
  unfold suffix_step at 1. cbn [fst snd].
  assert (Hpush : forall g ty,
             JSObject.inherited g = false ->
             forall h, In h (List.map fst (imports_push g ty imports)) ->
                       JSObject.inherited h = false).
  { intros g ty Hg h. rewrite imports_push_keys.
    destruct (existsb _ _); [apply Hown|].
    intros H. apply in_app_or in H as [H|[<-|[]]]; auto. }
  destruct (owner links' type) as [fileName|] eqn:Howner.
  - destruct (has_own fileName imports) eqn:Hhas.
    + assert (Hg : JSObject.inherited fileName = false).
      { apply Hown. unfold has_own in Hhas.
        apply existsb_exists in Hhas as (g & Hg & E).
        apply String.eqb_eq in E. now subst. }
      destruct Hin as [<-|Hin]; [congruence|].
      eapply IH; [now apply Hpush|eassumption..].
    + destruct (JSObject.inherited fileName) eqn:Hg; [reflexivity|].
      destruct Hin as [<-|Hin]; [congruence|].
      eapply IH; [now apply Hpush|eassumption..].
  - destruct Hin as [<-|Hin]; [congruence|].
    eapply IH; eassumption.
Qed.

Lemma owner_None (links' : gmap string IType) (type : string) :
  links' !! type = None -> owner links' type = None.
Proof. unfold owner. now intros ->. Qed.

(** [Object.entries] lists every own property once. *)
Lemma insert_index_Permutation {A : Type} (n : N) (x : A) (l : list (N * A)) :
  Permutation (JSObject.insert_index n x l) ((n, x) :: l).
Proof.
  induction l as [|[m y] l IH]; simpl; [reflexivity|].
  destruct (n <=? m)%N; [reflexivity|].
  rewrite IH. apply perm_swap.
Qed.

Lemma entries_Permutation {A : Type} (o : list (string * A)) :
  Permutation (JSObject.entries o) o.
Proof.
  unfold JSObject.entries. induction o as [|kv o IH]; simpl; [reflexivity|].
  unfold JSObject.named at 1.
  destruct (JSObject.array_index (fst kv)) as [n|]; simpl.
  - rewrite insert_index_Permutation. simpl. now rewrite IH.
  - rewrite <- Permutation_middle. now rewrite IH.
Qed.

Lemma entries_In {A : Type} (o : list (string * A)) (kv : string * A) :
  In kv (JSObject.entries o) <-> In kv o.
Proof.
  split; apply Permutation_in;
    [apply entries_Permutation|symmetry; apply entries_Permutation].
Qed.

Lemma entries_NoDup {A : Type} (o : list (string * A)) :
  List.NoDup (List.map fst o) -> List.NoDup (List.map fst (JSObject.entries o)).
Proof.
  apply Permutation_NoDup, Permutation_map. symmetry. apply entries_Permutation.
Qed.

Lemma entries_imported (o : list (string * list string)) (f t : string) :
  imported (JSObject.entries o) f t <-> imported o f t.
Proof.
  unfold imported. split; intros (types & H & Ht); exists types;
    (split; [now apply entries_In in H|assumption]) || 
    (split; [now apply entries_In|assumption]).
Qed.

(** With no array index among the keys, it lists them in the order of
    creation. *)
Lemma entries_named {A : Type} (o : list (string * A)) :
  (forall kv, In kv o -> JSObject.array_index (fst kv) = None) ->
  JSObject.entries o = o.
Proof.
  unfold JSObject.entries. intros H.
  assert (Hindexed : JSObject.indexed o = []).
  { induction o as [|kv o IH]; [reflexivity|]. simpl.
    rewrite (H kv (or_introl eq_refl)). apply IH.
    intros kv' Hkv'. apply H. now right. }
  rewrite Hindexed. simpl.
  induction o as [|kv o IH]; [reflexivity|]. simpl.
  unfold JSObject.named at 1. rewrite (H kv (or_introl eq_refl)).
  f_equal. apply IH; [intros kv' Hkv'; apply H; now right|].
  simpl in Hindexed. now rewrite (H kv (or_introl eq_refl)) in Hindexed.
Qed.

(** C6, where the code departs from it. The module [constructor]
    declares a type and the module [service] uses it: [suffix] throws a
    [TypeError] for [service] and the run ends there, with no import
    declaration for the type. The same two documents with the first
    module named [common] give [service] its import. *)
Lemma suffix_misses_plain_object_keys :
  start [Plain.declaring "constructor" "Vector";
         Plain.referring "service" ["tt:Vector"]] []
  = Throw TypeError
  /\ exists w p rest,
       start [Plain.declaring "common" "Vector";
              Plain.referring "service" ["tt:Vector"]] []
       = Ok w
       /\ processors w = p :: rest
       /\ usedTypes p = ["Vector"]
       /\ nodes p
          = [ImportDeclaration ["Vector"] "./common";
             Identifier (String "010" EmptyString);
             InterfaceDeclaration "Service" None
               [PropertySignature "vector" false (TypeReference "Vector")]].
Proof.
  split; [vm_compute; reflexivity|].
  eexists _, _, _. split; [vm_compute; reflexivity|].
  split; [reflexivity|]. split; reflexivity.
Qed.

(** ** The registry *)

Lemma addNode_links (name : string) (node : Node) (st : State) (u : unit)
    (st' : State) :
  addNode name node st = Ok (u, st') ->
  links st'
  = match links st !! name with
    | Some _ => links st
    | None => <[name := {| IType_name := Some (fileName (this st)) |}]> (links st)
    end.
Proof.
  unfold addNode.
  destruct (StringSet.has name (declaredTypes (this st)));
    intros [= _ <-]; reflexivity.
Qed.

Lemma addNode_keeps (name : string) (node : Node) (st : State) (u : unit)
    (st' : State) (key : string) (owner : IType) :
  addNode name node st = Ok (u, st') ->
  links st !! key = Some owner ->
  links st' !! key = Some owner.
Proof.
  intros H Hkey. rewrite (addNode_links _ _ _ _ _ H).
  destruct (links st !! name) eqn:E; [assumption|].
  rewrite lookup_insert_ne; [assumption|]. congruence.
Qed.

Lemma registry_kept_refl (st : State) : registry_kept st st.
Proof. intros name owner H. exact H. Qed.

Lemma registry_kept_trans (st1 st2 st3 : State) :
  registry_kept st1 st2 -> registry_kept st2 st3 -> registry_kept st1 st3.
Proof. intros H12 H23 name owner H. auto. Qed.

Lemma only_uses_kept (st st' : State) : only_uses st st' -> registry_kept st st'.
Proof. intros (_ & _ & _ & E & _) name owner H. now rewrite E. Qed.

Lemma addNode_kept (name : string) (node : Node) (st : State) (u : unit)
    (st' : State) :
  addNode name node st = Ok (u, st') -> registry_kept st st'.
Proof. intros H key owner. now apply (addNode_keeps _ _ _ _ _ _ _ H). Qed.

Lemma mapM_kept {A B : Type} (f : A -> M B) (xs : list A) :
  Forall (fun x => forall st y st', f x st = Ok (y, st') -> registry_kept st st') xs ->
  forall st ys st', mapM f xs st = Ok (ys, st') -> registry_kept st st'.
Proof.
  induction 1 as [|x xs Hx _ IH]; intros st ys st'; simpl.
  - intros [= _ <-]. apply registry_kept_refl.
  - intros H. apply bind_Ok in H as (y & st1 & H1 & H).
    apply bind_Ok in H as (ys' & st2 & H2 & [= _ <-]).
    eapply registry_kept_trans; eauto.
Qed.

Lemma forEach_kept {A : Type} (f : A -> M unit) (xs : list A) :
  (forall x st u st', f x st = Ok (u, st') -> registry_kept st st') ->
  forall st u st', forEach f xs st = Ok (u, st') -> registry_kept st st'.
Proof.
  intros Hf. induction xs as [|x xs IH]; intros st u st'; simpl.
  - intros [= _ <-]. apply registry_kept_refl.
  - intros H. apply bind_Ok in H as (u1 & st1 & H1 & H).
    eapply registry_kept_trans; eauto.
Qed.

Lemma elementMember_kept (generate : option string -> IComplexType -> M unit)
    (e : SequenceElement IComplexType) :
  all_element
    (fun ct => forall name st u st',
         generate name ct st = Ok (u, st') -> registry_kept st st') e ->
  forall st y st', elementMember generate e st = Ok (y, st') -> registry_kept st st'.
Proof.
  unfold all_element. intros Hall st y st'.
  destruct (elementMember_cases generate e)
    as [(entries & inline & He & Hfirst & ->)|[(entries & text & _ & _ & ->)|[_ ->]]];
    [rewrite (nested_type_Some _ _ _ He Hfirst) in Hall; cbn in Hall
    |discriminate|].
  - intros H. apply bind_Ok in H as (u & st1 & H1 & H2).
    eapply registry_kept_trans; [eapply Hall; eassumption|].
    eapply only_uses_kept, createProperty_only_uses; eassumption.
  - intros H. eapply only_uses_kept, createProperty_only_uses; eassumption.
Qed.

Lemma generateMembers_kept (generate : option string -> IComplexType -> M unit)
    (name : string) (xs_annotation : Annotations) (heritage : option (list string))
    (xs_attribute : option (array IAttribute))
    (xs_sequence : option (array (Sequence IComplexType))) :
  all_option
    (all_array
       (all_sequence
          (fun ct => forall name st u st',
               generate name ct st = Ok (u, st') -> registry_kept st st')))
    xs_sequence ->
  forall st u st',
    generateMembers generate name xs_annotation heritage xs_attribute xs_sequence st
    = Ok (u, st') ->
    registry_kept st st'.
Proof.
  intros Hall st u st'. unfold generateMembers. intros H.
  apply bind_Ok in H as (members & st1 & Hattr & H).
  apply attributeMembers_only_uses, only_uses_kept in Hattr.
  eapply registry_kept_trans; [exact Hattr|]. clear Hattr.
  destruct xs_sequence as [s|]; [|eapply addNode_kept; eassumption].
  unfold all_option in Hall. unfold all_array at 1 in Hall.
  unfold to_list at 1 in Hall. apply Forall_inv in Hall.
  unfold all_sequence, all_option in Hall.
  destruct (element (first s)) as [elements|].
  - apply bind_Ok in H as (properties & st2 & Hmap & H).
    apply bind_Ok in H as (wildcard & st3 & Hany & H).
    apply anyMembers_Ok in Hany as ->.
    eapply registry_kept_trans; [|eapply addNode_kept; eassumption].
    eapply mapM_kept; [|eassumption].
    eapply List.Forall_impl; [|exact Hall].
    intros e He. now apply elementMember_kept.
  - destruct (String.eqb name "Capabilities").
    + injection H as _ <-. apply registry_kept_refl.
    + apply bind_Ok in H as (wildcard & st3 & Hany & H).
      apply anyMembers_Ok in Hany as ->.
      eapply addNode_kept; eassumption.
Qed.

Lemma generateComplexTypeInterfaceAs_kept (complexType : IComplexType) :
  forall (name : option string) (st : State) (u : unit) (st' : State),
    generateComplexTypeInterfaceAs name complexType st = Ok (u, st') ->
    registry_kept st st'.
Proof.
  induction complexType as [complexType IHcontent IHown]
    using IComplexType_nested_ind.
  intros name st u st'. rewrite generateComplexTypeInterfaceAs_unfold.
  unfold generateComplexTypeInterface_body.
  destruct name as [name|]; [|discriminate].
  destruct (complexContent complexType) as [c|].
  - destruct (String.eqb _ _).
    { intros [= _ <-]. apply registry_kept_refl. }
    intros H. apply bind_Ok in H as (heritage & st1 & Hext & H).
    destruct (extendInterface_Ok
                (localName (base (first (extension (first c))))) st)
      as (h & st2 & E & Huses).
    rewrite E in Hext. injection Hext as -> ->.
    eapply registry_kept_trans; [apply only_uses_kept; exact Huses|].
    destruct (sequence complexType); [discriminate|].
    unfold all_option in IHcontent. unfold all_array at 1 in IHcontent.
    unfold to_list at 1 in IHcontent. apply Forall_inv in IHcontent.
    unfold all_content in IHcontent. unfold all_array at 1 in IHcontent.
    unfold to_list at 1 in IHcontent. apply Forall_inv in IHcontent.
    eapply generateMembers_kept; [exact IHcontent|exact H].
  - eapply generateMembers_kept. exact IHown.
Qed.

Lemma generateSimpleTypeInterface_kept (simpleType : ISimpleType) (st : State)
    (u : unit) (st' : State) :
  generateSimpleTypeInterface simpleType st = Ok (u, st') -> registry_kept st st'.
Proof.
  unfold generateSimpleTypeInterface.
  destruct (Meta.name (simple_meta simpleType)); [|discriminate].
  destruct (restriction simpleType) as [r|].
  - destruct (enumeration (first r)); [apply addNode_kept|].
    intros H. apply bind_Ok in H as (u1 & st1 & H1 & H).
    eapply registry_kept_trans; [|eapply addNode_kept; eassumption].
    destruct (startsUpperCase _).
    + eapply only_uses_kept, usedTypes_add_only_uses; eassumption.
    + injection H1 as _ <-. apply registry_kept_refl.
  - destruct (list_itemType simpleType); [apply addNode_kept|].
    intros [= _ <-]. apply registry_kept_refl.
Qed.

Lemma generateElementType_kept (e : IElement) (st : State) (r : option Node)
    (st' : State) :
  generateElementType e st = Ok (r, st') -> registry_kept st st'.
Proof.
  destruct (inline_type e) as [complexType|] eqn:Hinline.
  - rewrite (generateElementType_inline e complexType Hinline).
    intros H. apply bind_Ok in H as (u & st1 & H1 & [= _ <-]).
    eapply generateComplexTypeInterfaceAs_kept; eassumption.
  - rewrite (generateElementType_otherwise e Hinline).
    assert (Hnone : @ret (option Node) None st = Ok (r, st') ->
                    registry_kept st st').
    { intros [= _ <-]. apply registry_kept_refl. }
    destruct (top_type e) as [type|]; [|exact Hnone].
    destruct (JS.truthy type); [|exact Hnone].
    unfold generateElementType_typed.
    destruct (_ && _); [intros [= _ <-]; apply registry_kept_refl|].
    destruct (String.eqb _ _); [exact Hnone|].
    intros H. apply bind_Ok in H as (heritage & st1 & Hext & H).
    destruct (extendInterface_Ok (localName (cleanName type)) st)
      as (h & st2 & E & Huses).
    rewrite E in Hext. injection Hext as -> ->.
    apply bind_Ok in H as (u & st3 & Hadd & [= _ <-]).
    eapply registry_kept_trans; [apply only_uses_kept; exact Huses|].
    eapply addNode_kept; eassumption.
Qed.

Lemma prefix_kept (schema : option ISchemaDefinition) (st : State)
    (ns : list Node) (st' : State) :
  prefix schema st = Ok (ns, st') -> registry_kept st st'.
Proof.
  unfold prefix. intros H. apply bind_Ok in H as (u & st1 & H & [= _ <-]).
  destruct schema as [schema|]; [|injection H as _ <-; apply registry_kept_refl].
  apply bind_Ok in H as (u1 & st2 & H1 & H).
  apply bind_Ok in H as (u2 & st3 & H2 & H3).
  assert (Heach : forall (A B : Type) (f : A -> M B) (xs : option (array A))
                         s0 u0 s1,
             (forall x s y s', f x s = Ok (y, s') -> registry_kept s s') ->
             match xs with
             | Some xs => forEach (fun x => f x ;; ret tt)%gen (to_list xs)
             | None => ret tt
             end s0 = Ok (u0, s1) ->
             registry_kept s0 s1).
  { intros A B f [xs|] s0 u0 s1 Hf; [|intros [= _ <-]; apply registry_kept_refl].
    apply forEach_kept. intros x s y s' Hx.
    apply bind_Ok in Hx as (b & s2 & Hb & [= _ <-]). eauto. }
  eapply registry_kept_trans;
    [eapply Heach; [|exact H1]; apply generateSimpleTypeInterface_kept|].
  eapply registry_kept_trans; [eapply Heach; [|exact H2]|eapply Heach; [|exact H3]].
  - intros x s y s'. apply generateComplexTypeInterfaceAs_kept.
  - apply generateElementType_kept.
Qed.

Lemma process_documents_kept (ds : list Document) :
  forall (w w' : World) (name : string) (owner : IType),
    process_documents w ds = Ok w' ->
    registry w !! name = Some owner ->
    registry w' !! name = Some owner.
Proof.
  induction ds as [|d ds IH]; intros w w' name owner; simpl.
  - now intros [= <-].
  - unfold process_document.
    destruct (prefix (document_schema d) _) as [[ns st]|e] eqn:E; [|discriminate].
    intros H Hname. eapply IH; [exact H|].
    apply prefix_kept in E. now apply E.
Qed.

Lemma addNode_from_keeps (w : World) (call : nat * string * Node)
    (key : string) (owner : IType) :
  registry w !! key = Some owner ->
  registry (addNode_from w call) !! key = Some owner.
Proof.
  destruct call as [[i name] node]. unfold addNode_from.
  destruct (processors w !! i) as [p|]; [|auto].
  destruct (addNode name node _) as [[u st]|e] eqn:E; [|auto].
  intros H. cbn [registry]. eapply addNode_keeps in E; eauto.
Qed.

(** C7. Over any sequence of [addNode] calls made by any processors on
    the shared registry, a name that is mapped to an owner stays mapped to
    that owner: no call replaces the mapping and none removes it. The
    same holds over the documents of a run, where generation reaches the
    registry through [addNode] alone. *)
Theorem registry_is_write_once :
  (forall (calls : list (nat * string * Node)) (w : World)
          (name : string) (owner : IType),
      registry w !! name = Some owner ->
      registry (addNode_calls calls w) !! name = Some owner)
  /\ (forall (ds : list Document) (w w' : World) (name : string) (owner : IType),
         process_documents w ds = Ok w' ->
         registry w !! name = Some owner ->
         registry w' !! name = Some owner).
Proof.
  split; [|intros ds w w' name owner; apply process_documents_kept].
  unfold addNode_calls.
  induction calls as [|call calls IH]; intros w name owner H; simpl.
  - assumption.
  - apply IH. now apply addNode_from_keeps.
Qed.

Lemma registry_witness :
  registry
    (addNode_calls
       [(1, "Vector", Identifier "b"); (0, "Color", Identifier "a")]
       {| processors := [newProcessor "common"; newProcessor "onvif"];
          registry := <["Vector" := {| IType_name := Some "common" |}]> ∅;
          output := [] |})
  !! "Vector"
  = Some {| IType_name := Some "common" |}.
Proof.
  apply (proj1 registry_is_write_once). reflexivity.
Defined.

(** C2, as stated, fails: after a run over two such documents the
    registry names the first module, and the second module still declares
    the name itself and imports nothing. *)
Lemma second_declaration_is_not_dropped :
  exists w p2 p1,
    start [Sample.twice_declared "onvif"; Sample.twice_declared "media"] [] = Ok w
    /\ processors w = [p2; p1]
    /\ fileName p2 = "media"
    /\ registry w !! "Capabilities" = Some {| IType_name := Some "onvif" |}
    /\ In "Capabilities" (declaredTypes p2)
    /\ In "Capabilities" (usedTypes p2)
    /\ nodes p2
       = [Identifier (String "010" EmptyString);
          InterfaceDeclaration "Capabilities" None [];
          InterfaceDeclaration "Service" None
            [PropertySignature "capabilities" false (TypeReference "Capabilities")]].
Proof.
  eexists _, _, _. split; [vm_compute; reflexivity|].
  split; [reflexivity|]. split; [reflexivity|]. split; [reflexivity|].
  split; [now left|]. split; [now left|]. reflexivity.
Qed.

(** * Further properties *)

(** ** Qualified names *)

Lemma indexOf_range (c : ascii) (s : string) :
  JS.indexOf c s = (-1)%Z \/ (0 <= JS.indexOf c s)%Z.
Proof.
  induction s as [|d s IH]; simpl; [now left|].
  destruct (Ascii.eqb d c); [right; lia|].
  destruct (JS.indexOf c s) as [|i|i]; [right; lia|right; lia|now left].
Qed.

Lemma append_String (d : ascii) (a b : string) :
  String d a +:+ b = String d (a +:+ b).
Proof. reflexivity. Qed.

Lemma indexOf_found (c : ascii) (p l : string) :
  JS.indexOf c p = (-1)%Z ->
  JS.indexOf c (p +:+ String c l) = Z.of_nat (String.length p).
Proof.
  induction p as [|d p IH].
  - intros _. change (EmptyString +:+ String c l) with (String c l).
    simpl. now rewrite Ascii.eqb_refl.
  - rewrite append_String. simpl.
    destruct (Ascii.eqb d c); [discriminate|].
    destruct (indexOf_range c p) as [E|E].
    + intros _. rewrite (IH E). destruct (String.length p); simpl; lia.
    + destruct (JS.indexOf c p); lia.
Qed.

Lemma slice_append (p l : string) : JS.slice (String.length p) (p +:+ l) = l.
Proof.
  induction p as [|d p IH]; [now destruct l|].
  rewrite append_String. exact IH.
Qed.

Lemma localName_unqualified (s : string) : unqualified s -> localName s = s.
Proof. intros H. unfold localName. rewrite H. reflexivity. Qed.

Lemma append_assoc (a b c : string) : (a +:+ b) +:+ c = a +:+ b +:+ c.
Proof.
  induction a as [|d a IH]; [reflexivity|]. rewrite !append_String.
  now f_equal.
Qed.

Lemma localName_qualified (prefix local : string) :
  unqualified prefix -> localName (prefix +:+ String ":" local) = local.
Proof.
  intros H. unfold localName. rewrite (indexOf_found ":" prefix local H).
  replace (Z.to_nat (Z.of_nat (String.length prefix) + 1))
    with (String.length (prefix +:+ ":")).
  - change (prefix +:+ String ":" local) with (prefix +:+ ":" +:+ local).
    rewrite <- (append_assoc prefix ":" local). apply slice_append.
  - clear H. induction prefix as [|d p IH]; [reflexivity|].
    rewrite append_String. simpl String.length. rewrite IH. lia.
Qed.

(** X1. The local name of a qualified name: a name without a colon is its
    own local name, and [prefix:local], for a prefix without a colon, has
    the local name [local], whatever [local] holds. *)
Theorem localName_strips_one_prefix :
  (forall s : string, unqualified s -> localName s = s)
  /\ (forall prefix local : string,
         unqualified prefix ->
         localName (prefix +:+ String ":" local) = local).
Proof. split; [apply localName_unqualified|apply localName_qualified]. Qed.

Lemma localName_witness :
  localName "Vector2D" = "Vector2D" /\ localName "tt:Vector2D" = "Vector2D".
Proof.
  split.
  - apply (proj1 localName_strips_one_prefix). reflexivity.
  - apply (proj2 localName_strips_one_prefix "tt" "Vector2D"). reflexivity.
Defined.

(** X2. [dataTypes] answers with an unqualified name for an absent or
    empty type ([unknown]), for a type without a colon and for a type
    [prefix:local] with one colon: no namespace prefix reaches a
    declaration. *)
Theorem dataTypes_is_unqualified :
  dataTypes None = "unknown"
  /\ dataTypes (Some EmptyString) = "unknown"
  /\ (forall s : string, unqualified s -> unqualified (dataTypes (Some s)))
  /\ (forall prefix local : string,
         unqualified prefix -> unqualified local ->
         unqualified (dataTypes (Some (prefix +:+ String ":" local)))).
Proof.
  assert (H : forall x, unqualified (localName x) -> unqualified (dataTypes (Some x))).
  { intros x Hx. unfold dataTypes.
    destruct (negb (JS.truthy x)); [reflexivity|].
    repeat (match goal with
            | |- context [String.eqb x ?lit] =>
                destruct (String.eqb x lit); [reflexivity|]
            end).
    exact Hx. }
  split; [reflexivity|]. split; [reflexivity|]. split.
  - intros s Hs. apply H.
    now rewrite (localName_unqualified s Hs).
  - intros prefix local Hp Hl. apply H.
    now rewrite (localName_qualified prefix local Hp).
Qed.

Lemma dataTypes_witness :
  unqualified (dataTypes (Some "tt:Vector2D"))
  /\ unqualified (dataTypes (Some "xs:int")).
Proof.
  split.
  - apply (proj2 (proj2 (proj2 dataTypes_is_unqualified)) "tt" "Vector2D");
      reflexivity.
  - apply (proj2 (proj2 (proj2 dataTypes_is_unqualified)) "xs" "int");
      reflexivity.
Defined.

(** ** What generation keeps *)

(** Any relation between states that is reflexive and transitive and
    holds across the two writes of the processor, [usedTypes.add] and
    [addNode], holds across every generation method. *)
Section Respects.

Variable R : State -> State -> Prop.
Hypothesis R_refl : forall st, R st st.
Hypothesis R_trans : forall st1 st2 st3, R st1 st2 -> R st2 st3 -> R st1 st3.
Hypothesis R_usedTypes_add :
  forall typeName st u st', usedTypes_add typeName st = Ok (u, st') -> R st st'.
Hypothesis R_addNode :
  forall name node st u st',
    declares name node -> addNode name node st = Ok (u, st') -> R st st'.

Lemma declared_name_annotated (xs_annotation : Annotations) (node : Node) :
  declared_name (createAnnotationIfExists xs_annotation node) = declared_name node.
Proof. now destruct xs_annotation. Qed.

Lemma R_declare (name identifier : string) (xs_annotation : Annotations)
    (node : Node) (st : State) (u : unit) (st' : State) :
  declared_name node = Some identifier ->
  identifier = name \/ identifier = cleanName name ->
  addNode name (createAnnotationIfExists xs_annotation node) st = Ok (u, st') ->
  R st st'.
Proof.
  intros Hnode Hname. apply R_addNode. unfold declares.
  rewrite declared_name_annotated, Hnode. destruct Hname as [->| ->]; auto.
Qed.

Lemma createProperty_respects (attribute : IAttribute) (st : State)
    (node : Node) (st' : State) :
  createProperty attribute st = Ok (node, st') -> R st st'.
Proof.
  unfold createProperty. destruct (propertyName _); [|discriminate].
  intros H. apply bind_Ok in H as (u & st1 & H1 & [= _ <-]).
  destruct (startsUpperCase _); [eauto|].
  injection H1 as _ <-. apply R_refl.
Qed.

Lemma extendInterface_respects (interfaceName : string) (st : State)
    (heritage : option (list string)) (st' : State) :
  extendInterface interfaceName st = Ok (heritage, st') -> R st st'.
Proof.
  unfold extendInterface. destruct (JS.truthy interfaceName).
  - intros H. apply bind_Ok in H as (u & st1 & H1 & [= _ <-]). eauto.
  - intros [= _ <-]. apply R_refl.
Qed.

Lemma mapM_respects {A B : Type} (f : A -> M B) (xs : list A) :
  Forall (fun x => forall st y st', f x st = Ok (y, st') -> R st st') xs ->
  forall st ys st', mapM f xs st = Ok (ys, st') -> R st st'.
Proof.
  induction 1 as [|x xs Hx _ IH]; intros st ys st'; simpl.
  - intros [= _ <-]. apply R_refl.
  - intros H. apply bind_Ok in H as (y & st1 & H1 & H).
    apply bind_Ok in H as (ys' & st2 & H2 & [= _ <-]). eauto.
Qed.

Lemma forEach_respects {A : Type} (f : A -> M unit) (xs : list A) :
  (forall x st u st', f x st = Ok (u, st') -> R st st') ->
  forall st u st', forEach f xs st = Ok (u, st') -> R st st'.
Proof.
  intros Hf. induction xs as [|x xs IH]; intros st u st'; simpl.
  - intros [= _ <-]. apply R_refl.
  - intros H. apply bind_Ok in H as (u1 & st1 & H1 & H). eauto.
Qed.

Lemma attributeMembers_respects (xs_attribute : option (array IAttribute))
    (st : State) (members : list Node) (st' : State) :
  attributeMembers xs_attribute st = Ok (members, st') -> R st st'.
Proof.
  destruct xs_attribute as [attributes|]; unfold attributeMembers.
  - apply mapM_respects. apply List.Forall_forall.
    intros x _ s y s'. apply createProperty_respects.
  - intros [= _ <-]. apply R_refl.
Qed.

Lemma elementMember_respects (generate : option string -> IComplexType -> M unit)
    (e : SequenceElement IComplexType) :
  all_element
    (fun ct => forall name st u st', generate name ct st = Ok (u, st') -> R st st') e ->
  forall st y st', elementMember generate e st = Ok (y, st') -> R st st'.
Proof.
  unfold all_element. intros Hall st y st'.
  destruct (elementMember_cases generate e)
    as [(entries & inline & He & Hfirst & ->)|[(entries & text & _ & _ & ->)|[_ ->]]];
    [rewrite (nested_type_Some _ _ _ He Hfirst) in Hall; cbn in Hall
    |discriminate|].
  - intros H. apply bind_Ok in H as (u & st1 & H1 & H2).
    eapply R_trans; [eapply Hall; eassumption|].
    eapply createProperty_respects; eassumption.
  - apply createProperty_respects.
Qed.

Lemma generateMembers_respects (generate : option string -> IComplexType -> M unit)
    (name : string) (xs_annotation : Annotations) (heritage : option (list string))
    (xs_attribute : option (array IAttribute))
    (xs_sequence : option (array (Sequence IComplexType))) :
  all_option
    (all_array
       (all_sequence
          (fun ct => forall name st u st',
               generate name ct st = Ok (u, st') -> R st st')))
    xs_sequence ->
  forall st u st',
    generateMembers generate name xs_annotation heritage xs_attribute xs_sequence st
    = Ok (u, st') ->
    R st st'.
Proof.
  intros Hall st u st'. unfold generateMembers. intros H.
  apply bind_Ok in H as (members & st1 & Hattr & H).
  apply attributeMembers_respects in Hattr.
  eapply R_trans; [exact Hattr|]. clear Hattr.
  destruct xs_sequence as [s|]; [|eapply R_declare; [| |eassumption]; [reflexivity|auto]].
  unfold all_option in Hall. unfold all_array at 1 in Hall.
  unfold to_list at 1 in Hall. apply Forall_inv in Hall.
  unfold all_sequence, all_option in Hall.
  destruct (element (first s)) as [elements|].
  - apply bind_Ok in H as (properties & st2 & Hmap & H).
    apply bind_Ok in H as (wildcard & st3 & Hany & H).
    apply anyMembers_Ok in Hany as ->.
    eapply R_trans; [|eapply R_declare; [| |eassumption]; [reflexivity|auto]].
    eapply mapM_respects; [|eassumption].
    eapply List.Forall_impl; [|exact Hall].
    intros e He. now apply elementMember_respects.
  - destruct (String.eqb name "Capabilities");
      [injection H as _ <-; apply R_refl|].
    apply bind_Ok in H as (wildcard & st3 & Hany & H).
    apply anyMembers_Ok in Hany as ->.
    eapply R_declare; [| |eassumption]; [reflexivity|auto].
Qed.

Lemma generateComplexTypeInterfaceAs_respects (complexType : IComplexType) :
  forall (name : option string) (st : State) (u : unit) (st' : State),
    generateComplexTypeInterfaceAs name complexType st = Ok (u, st') -> R st st'.
Proof.
  induction complexType as [complexType IHcontent IHown]
    using IComplexType_nested_ind.
  intros name st u st'. rewrite generateComplexTypeInterfaceAs_unfold.
  unfold generateComplexTypeInterface_body.
  destruct name as [name|]; [|discriminate].
  destruct (complexContent complexType) as [c|].
  - destruct (String.eqb _ _).
    { intros [= _ <-]. apply R_refl. }
    intros H. apply bind_Ok in H as (heritage & st1 & Hext & H).
    apply extendInterface_respects in Hext.
    eapply R_trans; [exact Hext|].
    destruct (sequence complexType); [discriminate|].
    unfold all_option in IHcontent. unfold all_array at 1 in IHcontent.
    unfold to_list at 1 in IHcontent. apply Forall_inv in IHcontent.
    unfold all_content in IHcontent. unfold all_array at 1 in IHcontent.
    unfold to_list at 1 in IHcontent. apply Forall_inv in IHcontent.
    eapply generateMembers_respects; [exact IHcontent|exact H].
  - eapply generateMembers_respects. exact IHown.
Qed.

Lemma generateSimpleTypeInterface_respects (simpleType : ISimpleType) (st : State)
    (u : unit) (st' : State) :
  generateSimpleTypeInterface simpleType st = Ok (u, st') -> R st st'.
Proof.
  unfold generateSimpleTypeInterface.
  destruct (Meta.name (simple_meta simpleType)); [|discriminate].
  destruct (restriction simpleType) as [r|].
  - destruct (enumeration (first r));
      [intros H; eapply R_declare; [| |eassumption]; [reflexivity|auto]|].
    intros H. apply bind_Ok in H as (u1 & st1 & H1 & H).
    eapply R_trans; [|eapply R_declare; [| |eassumption]; [reflexivity|auto]].
    destruct (startsUpperCase _); [eauto|].
    injection H1 as _ <-. apply R_refl.
  - destruct (list_itemType simpleType);
      [intros H; eapply R_declare; [| |eassumption]; [reflexivity|auto]|].
    intros [= _ <-]. apply R_refl.
Qed.

Lemma generateElementType_respects (e : IElement) (st : State) (r : option Node)
    (st' : State) :
  generateElementType e st = Ok (r, st') -> R st st'.
Proof.
  destruct (inline_type e) as [complexType|] eqn:Hinline.
  - rewrite (generateElementType_inline e complexType Hinline).
    intros H. apply bind_Ok in H as (u & st1 & H1 & [= _ <-]).
    eapply generateComplexTypeInterfaceAs_respects; eassumption.
  - rewrite (generateElementType_otherwise e Hinline).
    assert (Hnone : @ret (option Node) None st = Ok (r, st') -> R st st').
    { intros [= _ <-]. apply R_refl. }
    destruct (top_type e) as [type|]; [|exact Hnone].
    destruct (JS.truthy type); [|exact Hnone].
    unfold generateElementType_typed.
    destruct (_ && _); [intros [= _ <-]; apply R_refl|].
    destruct (String.eqb _ _); [exact Hnone|].
    intros H. apply bind_Ok in H as (heritage & st1 & Hext & H).
    apply extendInterface_respects in Hext.
    apply bind_Ok in H as (u & st3 & Hadd & [= _ <-]).
    eapply R_trans; [exact Hext|]. eapply R_declare; [| |eassumption]; [reflexivity|auto].
Qed.

Lemma prefix_respects (schema : option ISchemaDefinition) (st : State)
    (ns : list Node) (st' : State) :
  prefix schema st = Ok (ns, st') -> R st st' /\ ns = nodes (this st').
Proof.
  unfold prefix. intros H. apply bind_Ok in H as (u & st1 & H & [= <- <-]).
  split; [|reflexivity].
  destruct schema as [schema|]; [|injection H as _ <-; apply R_refl].
  apply bind_Ok in H as (u1 & st2 & H1 & H).
  apply bind_Ok in H as (u2 & st3 & H2 & H3).
  assert (Heach : forall (A B : Type) (f : A -> M B) (xs : option (array A))
                         s0 u0 s1,
             (forall x s y s', f x s = Ok (y, s') -> R s s') ->
             match xs with
             | Some xs => forEach (fun x => f x ;; ret tt)%gen (to_list xs)
             | None => ret tt
             end s0 = Ok (u0, s1) ->
             R s0 s1).
  { intros A B f [xs|] s0 u0 s1 Hf; [|intros [= _ <-]; apply R_refl].
    apply forEach_respects. intros x s y s' Hx.
    apply bind_Ok in Hx as (b & s2 & Hb & [= _ <-]). eauto. }
  eapply R_trans;
    [eapply Heach; [|exact H1]; apply generateSimpleTypeInterface_respects|].
  eapply R_trans; [eapply Heach; [|exact H2]|eapply Heach; [|exact H3]].
  - intros x s y s'. apply generateComplexTypeInterfaceAs_respects.
  - apply generateElementType_respects.
Qed.

End Respects.

Lemma appends_refl (st : State) : appends st st.
Proof.
  unfold appends. split; [reflexivity|].
  repeat split; exists []; now rewrite app_nil_r.
Qed.

Lemma appends_trans (st1 st2 st3 : State) :
  appends st1 st2 -> appends st2 st3 -> appends st1 st3.
Proof.
  intros (Hf & (n & Hn) & (d & Hd) & (u & Hu) & (c & Hc))
         (Hf' & (n' & Hn') & (d' & Hd') & (u' & Hu') & (c' & Hc')).
  unfold appends. split; [congruence|].
  repeat split.
  - exists (n ++ n'). rewrite Hn', Hn. now rewrite <- app_assoc.
  - exists (d ++ d'). rewrite Hd', Hd. now rewrite <- app_assoc.
  - exists (u ++ u'). rewrite Hu', Hu. now rewrite <- app_assoc.
  - exists (c ++ c'). rewrite Hc', Hc. now rewrite <- app_assoc.
Qed.

Lemma add_appends (x : string) (s : list string) :
  exists added, StringSet.add x s = s ++ added.
Proof.
  unfold StringSet.add. destruct (StringSet.has x s).
  - exists []. now rewrite app_nil_r.
  - now exists [x].
Qed.

Lemma usedTypes_add_appends (typeName : string) (st : State) (u : unit)
    (st' : State) :
  usedTypes_add typeName st = Ok (u, st') -> appends st st'.
Proof.
  intros [= _ <-]. unfold appends. cbn. split; [reflexivity|].
  repeat split; try (exists []; now rewrite app_nil_r).
  apply add_appends.
Qed.

Lemma addNode_appends (name : string) (node : Node) (st : State) (u : unit)
    (st' : State) :
  declares name node -> addNode name node st = Ok (u, st') -> appends st st'.
Proof.
  intros _.
  unfold addNode. destruct (StringSet.has name (declaredTypes (this st))).
  - intros [= _ <-]. unfold appends, console_log. cbn. split; [reflexivity|].
    repeat split; try (exists []; now rewrite app_nil_r).
    eexists. reflexivity.
  - intros [= _ <-]. unfold appends. cbn. split; [reflexivity|].
    repeat split; try (exists []; now rewrite app_nil_r).
    + eexists. reflexivity.
    + apply add_appends.
Qed.

(** X3. The first pass over a schema only appends to its module: whatever
    the schema, when [prefix] returns, the module has the same name, and
    its nodes, its declared types, its used types and the console are the
    ones it had followed by new ones; the nodes returned are the
    module's. Nothing written earlier is removed, changed or reordered. *)
Theorem prefix_only_appends (schema : option ISchemaDefinition) (st : State)
    (ns : list Node) (st' : State) :
  prefix schema st = Ok (ns, st') ->
  appends st st' /\ ns = nodes (this st').
Proof.
  apply (prefix_respects appends appends_refl appends_trans
           usedTypes_add_appends addNode_appends).
Qed.

Lemma prefix_only_appends_witness :
  exists (ns : list Node) (st' : State),
    prefix (document_schema (Sample.twice_declared "onvif")) (Sample.fresh "onvif") = Ok (ns, st')
    /\ appends (Sample.fresh "onvif") st' /\ ns = nodes (this st').
Proof.
  eexists. eexists. split; [vm_compute; reflexivity|].
  apply (prefix_only_appends (document_schema (Sample.twice_declared "onvif")) (Sample.fresh "onvif")).
  vm_compute. reflexivity.
Defined.

Lemma add_NoDup (x : string) (s : list string) :
  List.NoDup s -> List.NoDup (StringSet.add x s).
Proof.
  intros H. unfold StringSet.add. destruct (StringSet.has x s) eqn:E; [assumption|].
  apply List.NoDup_app; [assumption|repeat constructor; intros []|].
  intros y Hy [<-|[]]. apply has_In in Hy. congruence.
Qed.

Lemma usedTypes_add_invariant (typeName : string) (st : State) (u : unit)
    (st' : State) :
  usedTypes_add typeName st = Ok (u, st') ->
  module_invariant st -> module_invariant st'.
Proof.
  intros [= _ <-] (Hd & Hu & Hn & Hl). unfold module_invariant. cbn.
  repeat split; auto using add_NoDup.
Qed.

Lemma addNode_invariant (name : string) (node : Node) (st : State) (u : unit)
    (st' : State) :
  declares name node ->
  addNode name node st = Ok (u, st') ->
  module_invariant st -> module_invariant st'.
Proof.
  unfold addNode. intros Hnode H (Hd & Hu & Hn & Hl).
  assert (Hkept : forall key,
             is_Some (links st !! key) ->
             is_Some (match links st !! name with
                      | Some _ => links st
                      | None => <[name := {| IType_name := Some (fileName (this st)) |}]>
                                  (links st)
                      end !! key)).
  { intros key Hkey. destruct (links st !! name) eqn:E; [assumption|].
    destruct (decide (name = key)) as [<-|Hne].
    - rewrite lookup_insert_eq. eauto.
    - now rewrite lookup_insert_ne. }
  destruct (StringSet.has name (declaredTypes (this st))) eqn:E;
    injection H as _ <-; unfold module_invariant, console_log; cbn.
  - repeat split; auto.
  - repeat split; auto using add_NoDup.
    + unfold StringSet.add. rewrite E. apply Forall2_app; [assumption|].
      now constructor.
    + intros key. unfold StringSet.add. rewrite E. intros Hin.
      apply in_app_or in Hin as [Hin|[<-|[]]]; [auto|].
      destruct (links st !! name) eqn:El; [rewrite El; eauto|].
      rewrite lookup_insert_eq. eauto.
Qed.

Lemma prefix_invariant (schema : option ISchemaDefinition) (st : State)
    (ns : list Node) (st' : State) :
  prefix schema st = Ok (ns, st') ->
  module_invariant st -> module_invariant st'.
Proof.
  intros H.
  apply (prefix_respects (fun st st' => module_invariant st -> module_invariant st'))
    in H; [tauto|auto|auto|..].
  - exact usedTypes_add_invariant.
  - exact addNode_invariant.
Qed.

(** X4. The first pass keeps a module well formed. If no name is declared
    twice, no name is recorded as used twice, there is one node per
    declared name and every declared name is in the registry, then the
    same holds when [prefix] returns, whatever the schema. A new
    processor is in that state, so every module is when its first pass
    ends: each declared name stands for exactly one node of the module and
    the registry knows it. *)
Theorem prefix_keeps_module_well_formed (schema : option ISchemaDefinition)
    (st : State) (ns : list Node) (st' : State) :
  prefix schema st = Ok (ns, st') ->
  module_invariant st ->
  module_invariant st'.
Proof.
  intros H.
  apply (prefix_respects (fun st st' => module_invariant st -> module_invariant st'))
    in H; [tauto|auto|auto|..].
  - exact usedTypes_add_invariant.
  - exact addNode_invariant.
Qed.

Lemma prefix_keeps_module_well_formed_witness :
  exists (ns : list Node) (st' : State),
    prefix (document_schema (Sample.twice_declared "onvif")) (Sample.fresh "onvif")
    = Ok (ns, st')
    /\ module_invariant st'.
Proof.
  eexists. eexists. split; [vm_compute; reflexivity|].
  eapply (prefix_keeps_module_well_formed
            (document_schema (Sample.twice_declared "onvif"))
            (Sample.fresh "onvif")).
  - vm_compute. reflexivity.
  - unfold module_invariant. cbn. repeat split; try constructor.
    intros name [].
Defined.

(** ** The run *)

Lemma registers_own_refl (st : State) : registers_own st st.
Proof. split; [apply appends_refl|auto]. Qed.

Lemma registers_own_trans (st1 st2 st3 : State) :
  registers_own st1 st2 -> registers_own st2 st3 -> registers_own st1 st3.
Proof.
  intros [Ha H] [Ha' H']. split; [eapply appends_trans; eassumption|].
  intros name o Hname. apply H' in Hname as [Hname|Hown]; [|now right].
  apply H in Hname as [Hname|[-> Hin]]; [now left|]. right.
  destruct Ha' as (Hf & _ & (d & Hd) & _). rewrite Hf, Hd.
  split; [reflexivity|]. apply in_or_app. now left.
Qed.

Lemma usedTypes_add_registers_own (typeName : string) (st : State) (u : unit)
    (st' : State) :
  usedTypes_add typeName st = Ok (u, st') -> registers_own st st'.
Proof.
  intros H. split; [eapply usedTypes_add_appends; eassumption|].
  injection H as _ <-. cbn. auto.
Qed.

Lemma addNode_registers_own (name : string) (node : Node) (st : State) (u : unit)
    (st' : State) :
  declares name node -> addNode name node st = Ok (u, st') -> registers_own st st'.
Proof.
  intros Hnode H. split; [eapply addNode_appends; eassumption|].
  intros key o. destruct (addNode_Ok name node st) as (st2 & H2 & Hdeclared).
  destruct u. rewrite H in H2. injection H2 as <-. apply has_In in Hdeclared.
  revert H. unfold addNode.
  assert (Hlinks : match links st !! name with
                   | Some _ => links st
                   | None => <[name := owned_by (fileName (this st))]> (links st)
                   end !! key = Some o ->
                   links st !! key = Some o
                   \/ (o = owned_by (fileName (this st)) /\ key = name)).
  { destruct (links st !! name) eqn:E; [auto|].
    destruct (decide (name = key)) as [<-|Hne].
    - rewrite lookup_insert_eq. intros [= <-]. auto.
    - rewrite lookup_insert_ne by assumption. auto. }
  unfold owned_by in Hlinks.
  destruct (StringSet.has name (declaredTypes (this st)));
    intros [= <-]; revert Hdeclared; unfold console_log; cbn;
    intros Hdeclared Hkey; apply Hlinks in Hkey as [Hkey|[-> ->]]; auto.
Qed.

Lemma prefix_registers_own (schema : option ISchemaDefinition) (st : State)
    (ns : list Node) (st' : State) :
  prefix schema st = Ok (ns, st') -> registers_own st st'.
Proof.
  intros H.
  now apply (prefix_respects registers_own registers_own_refl registers_own_trans
               usedTypes_add_registers_own addNode_registers_own) in H.
Qed.

Lemma process_document_fileName (w w' : World) (d : Document) :
  process_document w d = Ok w' ->
  exists p, processors w' = processors w ++ [p]
            /\ fileName p = document_fileName d.
Proof.
  unfold process_document.
  destruct (prefix (document_schema d) _) as [[ns st]|e] eqn:E; [|discriminate].
  intros [= <-]. exists (this st). split; [reflexivity|].
  apply prefix_registers_own in E as [(Hf & _) _]. exact Hf.
Qed.

Lemma process_document_sound (w w' : World) (d : Document) :
  process_document w d = Ok w' ->
  world_invariant w -> registry_sound w ->
  world_invariant w' /\ registry_sound w'.
Proof.
  unfold process_document.
  destruct (prefix (document_schema d) _) as [[ns st]|e] eqn:E; [|discriminate].
  intros [= <-] Hinv Hsound. split.
  - intros p Hp. cbn in Hp |- *. apply in_app_or in Hp as [Hp|[<-|[]]].
    + destruct (Hinv p Hp) as (Hd & Hu & Hn & Hl).
      unfold module_invariant. cbn in *. repeat split; auto.
      intros name Hname. destruct (Hl name Hname) as [o Ho].
      apply prefix_kept in E. exists o. now apply E.
    + apply prefix_invariant in E; [now destruct st|].
      unfold module_invariant. cbn. repeat split; try constructor.
      intros name [].
  - intros name o Hname. cbn in Hname |- *.
    apply prefix_registers_own in E as [_ Hown].
    apply Hown in Hname as [Hname|[-> Hin]].
    + cbn in Hname. apply Hsound in Hname as [Hname|(p & Hp & Hname)]; [now left|].
      right. exists p. split; [apply in_or_app; now left|assumption].
    + right. exists (this st). split; [apply in_or_app; right; now left|auto].
Qed.

Lemma process_documents_sound (ds : list Document) :
  forall (w w' : World),
    process_documents w ds = Ok w' ->
    world_invariant w -> registry_sound w ->
    world_invariant w' /\ registry_sound w'
    /\ List.map fileName (processors w')
       = List.map fileName (processors w) ++ List.map document_fileName ds.
Proof.
  induction ds as [|d ds IH]; intros w w'; simpl.
  - intros [= <-]. rewrite app_nil_r. auto.
  - destruct (process_document w d) as [w1|e] eqn:E; [|discriminate].
    intros H Hinv Hsound.
    destruct (process_document_sound w w1 d E Hinv Hsound) as [Hinv1 Hsound1].
    destruct (IH w1 w' H Hinv1 Hsound1) as (Hinv' & Hsound' & Hnames).
    split; [assumption|]. split; [assumption|].
    apply process_document_fileName in E as (p1 & Hp1 & Hf1).
    rewrite Hnames, Hp1, List.map_app, <- app_assoc. simpl. now rewrite Hf1.
Qed.

Lemma generateBuiltIns_registry (name : string) (o : IType) :
  snd generateBuiltIns !! name = Some o <->
  built_in name /\ o = owned_by BASICS_FILENAME.
Proof.
  unfold generateBuiltIns, built_in, builtInTypes, owned_by. cbn. split.
  - intros H.
    repeat (apply lookup_insert_Some in H as [[<- <-]|[_ H]]; [split; auto 6|]).
    now rewrite lookup_empty in H.
  - intros [[<-|[<-|[<-|[<-|[]]]]] ->]; reflexivity.
Qed.

Lemma suffix_Throw (links' : gmap string IType) (st : State) (e : exn) :
  suffix links' st = Throw e ->
  e = TypeError
  /\ exists t f, In t (ImportsNeeded (this st)) /\ owner links' t = Some f
                 /\ JSObject.inherited f = true.
Proof.
  unfold suffix, suffix_imports.
  destruct (fold_result _ _ _) as [[imports console']|e'] eqn:E; [discriminate|].
  intros [= <-]. eapply suffix_loop_Throw. exact E.
Qed.

Lemma suffix_Ok (links' : gmap string IType) (st : State) :
  (forall t f, In t (ImportsNeeded (this st)) -> owner links' t = Some f ->
               JSObject.inherited f = false) ->
  exists st', suffix links' st = Ok st'.
Proof.
  intros H. destruct (suffix links' st) as [st'|e] eqn:E; [eauto|].
  apply suffix_Throw in E as (_ & t & f & Hin & Ho & Hf).
  rewrite (H t f Hin Ho) in Hf. discriminate.
Qed.

Lemma suffix_console (links' : gmap string IType) (st st' : State) :
  suffix links' st = Ok st' ->
  forall line, In line (console st) -> In line (console st').
Proof.
  unfold suffix, suffix_imports.
  destruct (fold_result _ _ _) as [[imports console']|e] eqn:E; [|discriminate].
  intros [= <-] line Hline. cbn.
  apply suffix_loop in E as (_ & _ & _ & H). now apply H.
Qed.

Lemma resolve_loop (links' : gmap string IType) (ps : list Processor) :
  forall (done : list Processor) (out : list string)
         (r : list Processor * list string),
    fold_result
      (fun '(done, out) p =>
         match suffix links' {| this := p; links := links'; console := out |} with
         | Ok st => Ok (done ++ [this st], console st)
         | Throw e => Throw e
         end)
      ps (done, out) = Ok r ->
    (exists new, fst r = done ++ new /\ Forall2 (resolved links' (snd r)) ps new)
    /\ forall line, In line out -> In line (snd r).
Proof.
  induction ps as [|p ps IH]; intros done out r; simpl.
  - intros [= <-]. split; [|auto]. exists []. rewrite app_nil_r.
    split; [reflexivity|constructor].
  - destruct (suffix links' {| this := p; links := links'; console := out |})
      as [st|e] eqn:E; [|discriminate].
    intros H. apply IH in H as [(new & Hnew & Hall) Hout].
    split.
    + exists (this st :: new). split.
      * rewrite Hnew, <- app_assoc. reflexivity.
      * constructor; [|exact Hall]. exists out, st. auto.
    + intros line Hline. apply Hout. eapply suffix_console; [exact E|exact Hline].
Qed.

Lemma resolve_loop_Ok (links' : gmap string IType) (ps : list Processor) :
  (forall p out, In p ps ->
                 exists st,
                   suffix links' {| this := p; links := links'; console := out |}
                   = Ok st) ->
  forall (done : list Processor) (out : list string),
    exists r,
      fold_result
        (fun '(done, out) p =>
           match suffix links' {| this := p; links := links'; console := out |} with
           | Ok st => Ok (done ++ [this st], console st)
           | Throw e => Throw e
           end)
        ps (done, out) = Ok r.
Proof.
  induction ps as [|p ps IH]; intros Hps done out; simpl; [eauto|].
  destruct (Hps p out (or_introl eq_refl)) as [st ->].
  apply IH. intros p' out' Hp'. apply Hps. now right.
Qed.

Lemma resolve_all_processors (w w' : World) :
  resolve_all w = Ok w' ->
  Forall2 (resolved (registry w) (output w')) (rev (processors w)) (processors w')
  /\ registry w' = registry w.
Proof.
  unfold resolve_all.
  destruct (fold_result _ _ _) as [[ps out]|e] eqn:E; [|discriminate].
  intros [= <-]. cbn.
  apply resolve_loop in E as [(new & Hnew & Hall) _]. cbn in *. now subst.
Qed.

Lemma resolve_all_Ok (w : World) :
  (forall p t f, In p (processors w) -> In t (ImportsNeeded p) ->
                 owner (registry w) t = Some f -> JSObject.inherited f = false) ->
  exists w', resolve_all w = Ok w'.
Proof.
  intros H. unfold resolve_all.
  destruct (resolve_loop_Ok (registry w) (rev (processors w))) with
    (done := @nil Processor) (out := output w) as [[ps out] ->]; [|eauto].
  intros p out Hp. apply suffix_Ok. cbn. intros t f. apply H. now apply in_rev.
Qed.

Lemma resolved_keeps (links' : gmap string IType) (final : list string)
    (p q : Processor) :
  resolved links' final p q ->
  fileName q = fileName p
  /\ declaredTypes q = declaredTypes p
  /\ usedTypes q = usedTypes p.
Proof.
  intros (out & st & H & -> & _). unfold suffix in H.
  destruct (suffix_imports _ _ _) as [[imports console']|e]; [|discriminate].
  injection H as <-. cbn. auto.
Qed.

Lemma imports_push_clauses (f t : string) (imports : list (string * list string)) :
  (forall g ts, In (g, ts) imports -> ts <> [] /\ List.NoDup ts) ->
  (forall g, ~ imported imports g t) ->
  forall g ts, In (g, ts) (imports_push f t imports) -> ts <> [] /\ List.NoDup ts.
Proof.
  induction imports as [|[h types] imports IH]; simpl; intros Hok Hnew g ts.
  - intros [[= <- <-]|[]]. split; [discriminate|repeat constructor; intros []].
  - destruct (String.eqb h f).
    + intros [[= <- <-]|Hin]; [|eapply Hok; right; exact Hin].
      destruct (Hok h types (or_introl eq_refl)) as [Hne Hnd]. split.
      * intros E. apply app_eq_nil in E as [_ E]. discriminate.
      * apply List.NoDup_app; [assumption|repeat constructor; intros []|].
        intros x Hx [<-|[]]. apply (Hnew h). exists types.
        split; [now left|assumption].
    + intros [[= <- <-]|Hin]; [eapply Hok; left; reflexivity|].
      eapply IH; [| |exact Hin].
      * intros g' ts' H. eapply Hok. right. exact H.
      * intros g' (ts' & H1 & H2). apply (Hnew g'). exists ts'.
        split; [now right|assumption].
Qed.

Lemma suffix_loop_clauses (links' : gmap string IType) (types : list string) :
  forall (imports : list (string * list string)) (out : list string)
         (r : list (string * list string) * list string),
    fold_result (suffix_step links') types (imports, out) = Ok r ->
    List.NoDup types ->
    (forall g t, imported imports g t -> ~ In t types) ->
    (forall g ts, In (g, ts) imports -> ts <> [] /\ List.NoDup ts) ->
    forall g ts, In (g, ts) (fst r) -> ts <> [] /\ List.NoDup ts.
Proof.
  induction types as [|type types IH]; intros imports out r; simpl.
  - now intros [= <-].
  - unfold suffix_step at 1. cbn [fst snd]. intros H Hnd Hfresh Hok.
    apply List.NoDup_cons_iff in Hnd as [Hnew Hnd].
    assert (Hpush : forall fileName,
               fold_result (suffix_step links') types
                 (imports_push fileName type imports, out) = Ok r ->
               forall g ts, In (g, ts) (fst r) -> ts <> [] /\ List.NoDup ts).
    { intros fileName E. eapply IH; [exact E|assumption| |].
      - intros g t Himp Hin.
        apply imports_push_imported in Himp as [Himp|[_ ->]].
        + apply (Hfresh g t Himp). now right.
        + contradiction.
      - apply imports_push_clauses; [assumption|].
        intros g Himp. apply (Hfresh g type Himp). now left. }
    destruct (owner links' type) as [fileName|].
    + destruct (has_own fileName imports); [exact (Hpush _ H)|].
      destruct (JSObject.inherited fileName); [discriminate|exact (Hpush _ H)].
    + eapply IH; [exact H|assumption| |assumption].
      intros g t Himp Hin. apply (Hfresh g t Himp). now right.
Qed.

Lemma owner_Some (links' : gmap string IType) (type fileName : string) :
  owner links' type = Some fileName ->
  links' !! type = Some (owned_by fileName) /\ fileName <> EmptyString.
Proof.
  unfold owner. destruct (links' !! type) as [[[f|]]|]; simpl; try discriminate.
  destruct f; simpl; [discriminate|]. intros [= <-]. split; [reflexivity|discriminate].
Qed.

Lemma owner_found (links' : gmap string IType) (type fileName : string) :
  links' !! type = Some (owned_by fileName) ->
  fileName <> EmptyString ->
  owner links' type = Some fileName.
Proof.
  unfold owner. intros -> H. simpl. destruct fileName; [congruence|reflexivity].
Qed.

(** What [suffix] makes of a module, in one place. *)
Lemma resolved_module (links' : gmap string IType) (final : list string)
    (p0 p : Processor) :
  resolved links' final p0 p ->
  exists imports,
    nodes p = List.map importNode imports
              ++ Identifier (String "010" EmptyString) :: nodes p0
    /\ fileName p = fileName p0
    /\ declaredTypes p = declaredTypes p0
    /\ usedTypes p = usedTypes p0
    /\ List.NoDup (List.map fst imports)
    /\ (forall f t, imported imports f t
                    <-> (In t (usedTypes p0) /\ ~ In t (declaredTypes p0))
                        /\ owner links' t = Some f)
    /\ (forall t, In t (usedTypes p0) -> ~ In t (declaredTypes p0) ->
                  owner links' t = None ->
                  In ("Type " +:+ t +:+ " not found in links") final)
    /\ (List.NoDup (usedTypes p0) ->
        forall f ts, In (f, ts) imports -> ts <> [] /\ List.NoDup ts).
Proof.
  intros (out & st & Hst & -> & Hfinal). unfold suffix, suffix_imports in Hst.
  cbn [this console] in Hst.
  destruct (fold_result _ _ _) as [[own console']|e] eqn:E; [|discriminate].
  injection Hst as <-. cbn [this console nodes fileName declaredTypes usedTypes] in *.
  pose proof (suffix_loop_clauses _ _ _ _ _ E) as Hclauses.
  apply suffix_loop in E as (Hnd & Himp & Hwarn & _). cbn [fst snd] in *.
  exists (JSObject.entries own).
  split; [reflexivity|]. split; [reflexivity|]. split; [reflexivity|].
  split; [reflexivity|].
  split; [apply entries_NoDup, Hnd; constructor|].
  split; [|split].
  - intros f t. rewrite entries_imported, Himp. unfold ImportsNeeded.
    rewrite difference_In. split.
    + intros [(ts & [] & _)|H]. exact H.
    + intros H. now right.
  - intros t Hused Hdecl Hnone. apply Hfinal, Hwarn; [|assumption].
    now apply difference_In.
  - intros Hused f ts Hin. apply (proj1 (entries_In _ _)) in Hin.
    eapply Hclauses; [| | |exact Hin].
    + unfold ImportsNeeded, StringSet.difference. now apply List.NoDup_filter.
    + intros g t (ts' & [] & _).
    + intros g ts' [].
Qed.

Lemma Forall2_In_l {A B : Type} (Q : A -> B -> Prop) (l : list A) (l' : list B)
    (x : A) :
  Forall2 Q l l' -> In x l -> exists y, In y l' /\ Q x y.
Proof.
  induction 1 as [|a b l l' Hab _ IH]; [intros []|].
  intros [<-|Hin]; [exists b; split; [now left|assumption]|].
  destruct (IH Hin) as (y & Hy & Hxy). exists y. split; [now right|assumption].
Qed.

Lemma Forall2_In_r {A B : Type} (Q : A -> B -> Prop) (l : list A) (l' : list B)
    (y : B) :
  Forall2 Q l l' -> In y l' -> exists x, In x l /\ Q x y.
Proof.
  induction 1 as [|a b l l' Hab _ IH]; [intros []|].
  intros [<-|Hin]; [exists a; split; [now left|assumption]|].
  destruct (IH Hin) as (x & Hx & Hxy). exists x. split; [now right|assumption].
Qed.

Lemma Forall2_map_eq {A B C : Type} (Q : A -> B -> Prop) (f : A -> C) (g : B -> C)
    (l : list A) (l' : list B) :
  (forall x y, Q x y -> g y = f x) ->
  Forall2 Q l l' -> List.map g l' = List.map f l.
Proof.
  intros H. induction 1 as [|a b l l' Hab _ IH]; [reflexivity|].
  simpl. now rewrite IH, (H a b Hab).
Qed.

(** A run that succeeds is a first pass over the documents from the
    built-in registry, which leaves every module well formed and the
    registry sound, followed by [suffix] on every module, the last one
    first. *)
Lemma start_Ok (xsds wsdls : list Document) (w : World) :
  start xsds wsdls = Ok w ->
  exists w0,
    process_documents
      {| processors := []; registry := snd generateBuiltIns; output := [] |}
      (xsds ++ wsdls) = Ok w0
    /\ world_invariant w0
    /\ registry_sound w0
    /\ List.map fileName (processors w0) = List.map document_fileName (xsds ++ wsdls)
    /\ (forall name, built_in name ->
                     registry w0 !! name = Some (owned_by BASICS_FILENAME))
    /\ registry w = registry w0
    /\ Forall2 (resolved (registry w0) (output w)) (rev (processors w0))
         (processors w).
Proof.
  unfold start.
  destruct (process_documents _ _) as [w0|e] eqn:E; [|discriminate].
  intros H. exists w0.
  destruct (process_documents_sound _ _ _ E) as (Hinv & Hsound & Hnames).
  { intros p []. }
  { intros name o Ho. left. now apply generateBuiltIns_registry. }
  destruct (resolve_all_processors w0 w H) as [Hall Hreg].
  split; [reflexivity|].
  split; [assumption|]. split; [assumption|]. split; [assumption|].
  split; [|split; assumption].
  intros name Hname. eapply process_documents_kept; [exact E|].
  now apply generateBuiltIns_registry.
Qed.

(** Every module of a finished run, with the module [p0] it was when the
    first pass ended and the import clauses [suffix] gave it. *)
Lemma start_modules (xsds wsdls : list Document) (w : World) :
  start xsds wsdls = Ok w ->
  List.map fileName (processors w)
  = rev (List.map document_fileName (xsds ++ wsdls))
  /\ registry_sound w
  /\ (forall name, built_in name ->
                   registry w !! name = Some (owned_by BASICS_FILENAME))
  /\ forall p, In p (processors w) ->
       exists p0 imports,
         module_invariant {| this := p0; links := registry w; console := [] |}
         /\ nodes p = List.map importNode imports
                      ++ Identifier (String "010" EmptyString) :: nodes p0
         /\ fileName p = fileName p0
         /\ declaredTypes p = declaredTypes p0
         /\ usedTypes p = usedTypes p0
         /\ List.NoDup (List.map fst imports)
         /\ (forall f t, imported imports f t
                         <-> (In t (usedTypes p0) /\ ~ In t (declaredTypes p0))
                             /\ owner (registry w) t = Some f)
         /\ (forall t, In t (usedTypes p0) -> ~ In t (declaredTypes p0) ->
                       owner (registry w) t = None ->
                       In ("Type " +:+ t +:+ " not found in links") (output w))
         /\ (forall f ts, In (f, ts) imports -> ts <> [] /\ List.NoDup ts).
Proof.
  intros H.
  apply start_Ok in H as (w0 & _ & Hinv & Hsound & Hnames & Hbuilt & Hreg & Hall).
  split; [|split; [|split; [|]]].
  - rewrite <- Hnames, <- List.map_rev.
    eapply Forall2_map_eq; [|exact Hall].
    intros x y Hxy. now apply resolved_keeps in Hxy.
  - intros name o Hname. rewrite Hreg in Hname.
    apply Hsound in Hname as [Hname|(p0 & Hp0 & -> & Hin)]; [now left|]. right.
    apply in_rev in Hp0.
    destruct (Forall2_In_l _ _ _ _ Hall Hp0) as (p & Hp & Hres).
    apply resolved_keeps in Hres as (Hf & Hd & _).
    exists p. rewrite Hf, Hd. auto.
  - intros name Hname. rewrite Hreg. now apply Hbuilt.
  - intros p Hp. destruct (Forall2_In_r _ _ _ _ Hall Hp) as (p0 & Hp0 & Hres).
    apply in_rev in Hp0. specialize (Hinv p0 Hp0).
    apply resolved_module in Hres
      as (imports & Hn & Hf & Hd & Hu & Hnd & Himp & Hwarn & Hcl).
    exists p0, imports. rewrite Hreg.
    destruct Hinv as (I1 & I2 & I3 & I4).
    split; [repeat split; assumption|].
    repeat (split; [assumption|]). now apply Hcl.
Qed.

Lemma import_node_In (imports : list (string * list string)) (body : list Node)
    (declared : list string) (names : list string) (spec : string) :
  Forall2 declares declared body ->
  In (ImportDeclaration names spec)
     (List.map importNode imports ++ Identifier (String "010" EmptyString) :: body) ->
  exists f, spec = "./" +:+ f /\ In (f, names) imports.
Proof.
  intros Hbody Hin. apply in_app_or in Hin as [Hin|[Hin|Hin]].
  - apply in_map_iff in Hin as ([f ts] & [= <- <-] & Hin). now exists f.
  - discriminate.
  - destruct (Forall2_In_r _ _ _ _ Hbody Hin) as (name & _ & [H|H]); discriminate.
Qed.

Lemma map_injective_In {A B : Type} (f : A -> B) (l : list A) (x y : A) :
  List.NoDup (List.map f l) -> In x l -> In y l -> f x = f y -> x = y.
Proof.
  induction l as [|a l IH]; [intros _ []|]. simpl.
  intros Hnd. apply List.NoDup_cons_iff in Hnd as [Ha Hnd].
  intros [<-|Hx] [<-|Hy] E; auto.
  - exfalso. apply Ha. rewrite E. now apply in_map.
  - exfalso. apply Ha. rewrite <- E. now apply in_map.
Qed.

(** X5. When a run succeeds, its registry is sound. Every entry is a
    built-in type owned by the basics module or names a module of the run
    that declares the type; every type a module declares is in the
    registry; and the built-in types are still owned by the basics
    module. *)
Theorem start_registry_is_sound (xsds wsdls : list Document) (w : World) :
  start xsds wsdls = Ok w ->
  registry_sound w
  /\ (forall p name, In p (processors w) -> In name (declaredTypes p) ->
                     is_Some (registry w !! name))
  /\ (forall name, built_in name ->
                   registry w !! name = Some (owned_by BASICS_FILENAME)).
Proof.
  intros H. apply start_modules in H as (_ & Hsound & Hbuilt & Hmod).
  split; [assumption|]. split; [|assumption].
  intros p name Hp Hname.
  destruct (Hmod p Hp) as (p0 & imports & (_ & _ & _ & Hl) & _ & _ & Hd & _).
  apply Hl. cbn. now rewrite <- Hd.
Qed.

Lemma start_registry_is_sound_witness :
  exists w, start [Run.common; Run.device] [] = Ok w
            /\ registry w !! "Vector" = Some (owned_by "common")
            /\ registry_sound w.
Proof.
  eexists. split; [vm_compute; reflexivity|]. split; [vm_compute; reflexivity|].
  eapply (start_registry_is_sound [Run.common; Run.device] []).
  vm_compute. reflexivity.
Defined.

(** X6. When a run succeeds there is one module per document, named after
    it, the last document first. Each module is its import declarations,
    no two of them for the same module, then a line break, then the
    declarations of the types it declares, one per declared name and in
    the order of declaration, each under that name or that name cleaned;
    and no name is declared twice or recorded as used twice. *)
Theorem start_module_layout (xsds wsdls : list Document) (w : World) :
  start xsds wsdls = Ok w ->
  List.map fileName (processors w)
  = rev (List.map document_fileName (xsds ++ wsdls))
  /\ forall p, In p (processors w) ->
       List.NoDup (declaredTypes p)
       /\ List.NoDup (usedTypes p)
       /\ exists imports body,
            nodes p = List.map importNode imports
                      ++ Identifier (String "010" EmptyString) :: body
            /\ List.NoDup (List.map fst imports)
            /\ Forall2 declares (declaredTypes p) body.
Proof.
  intros H. apply start_modules in H as (Hnames & _ & _ & Hmod).
  split; [assumption|]. intros p Hp.
  destruct (Hmod p Hp)
    as (p0 & imports & (I1 & I2 & I3 & _) & Hn & _ & Hd & Hu & Hnd & _).
  cbn in I1, I2, I3. rewrite Hd, Hu.
  split; [assumption|]. split; [assumption|].
  exists imports, (nodes p0). auto.
Qed.

Lemma start_module_layout_witness :
  exists w, start [Run.common; Run.device] [] = Ok w
            /\ List.map fileName (processors w) = ["device"; "common"].
Proof.
  eexists. split; [vm_compute; reflexivity|].
  eapply (start_module_layout [Run.common; Run.device] []).
  vm_compute. reflexivity.
Defined.

(** X7. Every import declaration of a finished module is sound. It names
    a module [./f] with [f] not empty and brings in at least one type, no
    type twice; each type it brings in is used by the module, is not
    declared by it, has [f] as its owner in the registry, and is a
    built-in type of the basics module or is declared by a module of the
    run named [f]. *)
Theorem start_imports_are_sound (xsds wsdls : list Document) (w : World)
    (p : Processor) (names : list string) (spec : string) :
  start xsds wsdls = Ok w ->
  In p (processors w) ->
  In (ImportDeclaration names spec) (nodes p) ->
  exists f,
    spec = "./" +:+ f /\ f <> EmptyString
    /\ names <> [] /\ List.NoDup names
    /\ forall t, In t names ->
         In t (usedTypes p) /\ ~ In t (declaredTypes p)
         /\ registry w !! t = Some (owned_by f)
         /\ ((built_in t /\ f = BASICS_FILENAME)
             \/ exists q, In q (processors w) /\ fileName q = f
                          /\ In t (declaredTypes q)).
Proof.
  intros H Hp Hin. apply start_modules in H as (_ & Hsound & _ & Hmod).
  destruct (Hmod p Hp)
    as (p0 & imports & (_ & _ & I3 & _) & Hn & _ & Hd & Hu & _ & Himp & _ & Hcl).
  cbn in I3. rewrite Hn in Hin.
  apply (import_node_In _ _ _ _ _ I3) in Hin as (f & -> & Hin).
  destruct (Hcl f names Hin) as [Hne Hnd].
  assert (Hall : forall t, In t names ->
                           (In t (usedTypes p0) /\ ~ In t (declaredTypes p0))
                           /\ owner (registry w) t = Some f).
  { intros t Ht. apply Himp. now exists names. }
  exists f. split; [reflexivity|]. split.
  - destruct names as [|t names]; [congruence|].
    destruct (Hall t (or_introl eq_refl)) as [_ Ho].
    now apply owner_Some in Ho.
  - split; [assumption|]. split; [assumption|].
    intros t Ht. destruct (Hall t Ht) as [[H1 H2] Ho].
    apply owner_Some in Ho as [Ho _]. rewrite Hu, Hd.
    repeat (split; [assumption|]).
    apply Hsound in Ho as [[Hb [= ->]]|(q & Hq & [= ->] & Hdq)]; [now left|].
    right. now exists q.
Qed.

Lemma start_imports_are_sound_witness :
  In (ImportDeclaration ["Vector"; "Name"] "./common") (nodes Run.device_module)
  /\ exists f,
       "./common" = "./" +:+ f /\ f <> EmptyString
       /\ ["Vector"; "Name"] <> [] /\ List.NoDup ["Vector"; "Name"]
       /\ forall t, In t ["Vector"; "Name"] ->
            In t (usedTypes Run.device_module)
            /\ ~ In t (declaredTypes Run.device_module)
            /\ registry Run.finished !! t = Some (owned_by f)
            /\ ((built_in t /\ f = BASICS_FILENAME)
                \/ exists q, In q (processors Run.finished)
                             /\ fileName q = f /\ In t (declaredTypes q)).
Proof.
  split; [vm_compute; auto|].
  apply (start_imports_are_sound [Run.common; Run.device] [] Run.finished
           Run.device_module).
  - vm_compute. reflexivity.
  - vm_compute. auto.
  - vm_compute. auto.
Defined.

(** X8. No needed type is passed over in silence. When a run succeeds,
    every type that a module uses and does not declare is brought in by an
    import declaration of that module from the module the registry names
    as its owner, or, when the registry names no owner, is reported on the
    console as not found. *)
Theorem start_needed_types_are_imported_or_reported (xsds wsdls : list Document)
    (w : World) (p : Processor) (t : string) :
  start xsds wsdls = Ok w ->
  In p (processors w) ->
  In t (usedTypes p) ->
  ~ In t (declaredTypes p) ->
  match owner (registry w) t with
  | Some f =>
      exists names,
        In (ImportDeclaration names ("./" +:+ f)) (nodes p) /\ In t names
  | None => In ("Type " +:+ t +:+ " not found in links") (output w)
  end.
Proof.
  intros H Hp Hused Hdecl. apply start_modules in H as (_ & _ & _ & Hmod).
  destruct (Hmod p Hp)
    as (p0 & imports & _ & Hn & _ & Hd & Hu & _ & Himp & Hwarn & _).
  rewrite Hu in Hused. rewrite Hd in Hdecl.
  destruct (owner (registry w) t) as [f|] eqn:Ho; [|now apply Hwarn].
  destruct (proj2 (Himp f t)) as (names & Hin & Ht); [auto|].
  exists names. split; [|assumption]. rewrite Hn.
  apply in_or_app. left. apply in_map_iff. now exists (f, names).
Qed.

Lemma start_needed_types_witness :
  (exists names,
      In (ImportDeclaration names "./basics") (nodes Run.device_module)
      /\ In "AnyURI" names)
  /\ In "Type Date not found in links" (output Run.finished).
Proof.
  split.
  - apply (start_needed_types_are_imported_or_reported
             [Run.common; Run.device] [] Run.finished Run.device_module "AnyURI").
    + vm_compute. reflexivity.
    + vm_compute. auto.
    + vm_compute. auto 6.
    + vm_compute. intuition discriminate.
  - apply (start_needed_types_are_imported_or_reported
             [Run.common; Run.device] [] Run.finished Run.device_module "Date").
    + vm_compute. reflexivity.
    + vm_compute. auto.
    + vm_compute. auto 6.
    + vm_compute. intuition discriminate.
Defined.

(** X9. When the documents have different module names and none is named
    like the basics module, no finished module imports from itself. *)
Theorem start_no_module_imports_from_itself (xsds wsdls : list Document)
    (w : World) (p : Processor) (names : list string) :
  start xsds wsdls = Ok w ->
  List.NoDup (BASICS_FILENAME :: List.map document_fileName (xsds ++ wsdls)) ->
  In p (processors w) ->
  ~ In (ImportDeclaration names ("./" +:+ fileName p)) (nodes p).
Proof.
  intros H Hnd Hp Hin. apply start_modules in H as (Hnames & Hsound & _ & Hmod).
  apply List.NoDup_cons_iff in Hnd as [Hbasics Hnd].
  assert (Hnd' : List.NoDup (List.map fileName (processors w))).
  { rewrite Hnames. now apply List.NoDup_rev. }
  assert (Hbasics' : ~ In BASICS_FILENAME (List.map fileName (processors w))).
  { rewrite Hnames. now rewrite <- in_rev. }
  destruct (Hmod p Hp)
    as (p0 & imports & (_ & _ & I3 & _) & Hn & _ & Hd & _ & _ & Himp & _ & Hcl).
  cbn in I3. rewrite Hn in Hin.
  apply (import_node_In _ _ _ _ _ I3) in Hin as (f & Hf & Hin).
  injection Hf as Hf. change (fileName p = f) in Hf.
  destruct (Hcl f names Hin) as [Hne _].
  destruct names as [|t names]; [congruence|].
  destruct (proj1 (Himp f t)) as [[_ Hdecl] Ho].
  { exists (t :: names). split; [assumption|now left]. }
  apply owner_Some in Ho as [Ho _].
  apply Hsound in Ho as [[_ [= E]]|(q & Hq & [= E] & Hdq)].
  - apply Hbasics'. replace BASICS_FILENAME with (fileName p) by congruence.
    now apply in_map.
  - assert (q = p); [|subst q; rewrite Hd in Hdq; contradiction].
    apply (map_injective_In fileName (processors w)); auto. congruence.
Qed.

Lemma start_no_module_imports_from_itself_witness :
  ~ In (ImportDeclaration ["Vector"; "Name"] "./device") (nodes Run.device_module).
Proof.
  apply (start_no_module_imports_from_itself
           [Run.common; Run.device] [] Run.finished Run.device_module).
  - vm_compute. reflexivity.
  - repeat constructor; simpl; intuition discriminate.
  - vm_compute. auto.
Defined.

(** ** Failure *)

Lemma uniform_ret {A : Type} (a : A) : uniform (ret a) None.
Proof. intros st. reflexivity. Qed.

Lemma uniform_throw {A : Type} (e : exn) : uniform (@throw A e) (Some e).
Proof. intros st. reflexivity. Qed.

Lemma uniform_bind {A B : Type} (m : M A) (k : A -> M B) (e : option exn) :
  uniform m None -> (forall a, uniform (k a) e) -> uniform (bind m k) e.
Proof.
  intros Hm Hk st. unfold bind. specialize (Hm st).
  destruct (m st) as [[a st']|x]; [apply Hk|discriminate].
Qed.

Lemma uniform_bind_Throw {A B : Type} (m : M A) (k : A -> M B) (x : exn) :
  uniform m (Some x) -> uniform (bind m k) (Some x).
Proof.
  intros Hm st. unfold bind. specialize (Hm st).
  destruct (m st) as [[a st']|x']; [discriminate|exact Hm].
Qed.

Lemma uniform_bind_ex {A B : Type} (m : M A) (k : A -> M B) :
  (exists e, uniform m e) -> (exists e, forall a, uniform (k a) e) ->
  exists e, uniform (bind m k) e.
Proof.
  intros [[x|] Hm] [e Hk].
  - exists (Some x). now apply uniform_bind_Throw.
  - exists e. now apply uniform_bind.
Qed.

Lemma uniform_usedTypes_add (typeName : string) :
  uniform (usedTypes_add typeName) None.
Proof. intros st. reflexivity. Qed.

Lemma uniform_addNode (name : string) (node : Node) :
  uniform (addNode name node) None.
Proof.
  intros st. unfold addNode. now destruct (StringSet.has _ _).
Qed.

Lemma uniform_createProperty (attribute : IAttribute) :
  uniform (createProperty attribute)
    (match propertyName (meta attribute) with
     | Some _ => None
     | None => Some TypeError
     end).
Proof.
  unfold createProperty. destruct (propertyName _); [|apply uniform_throw].
  apply uniform_bind; [|intros; apply uniform_ret].
  destruct (startsUpperCase _); [apply uniform_usedTypes_add|apply uniform_ret].
Qed.

Lemma uniform_extendInterface (interfaceName : string) :
  uniform (extendInterface interfaceName) None.
Proof.
  unfold extendInterface. destruct (JS.truthy _); [|apply uniform_ret].
  apply uniform_bind; [apply uniform_usedTypes_add|intros; apply uniform_ret].
Qed.

Lemma uniform_mapM {A B : Type} (f : A -> M B) (xs : list A) :
  Forall (fun x => exists e, uniform (f x) e) xs ->
  exists e, uniform (mapM f xs) e.
Proof.
  induction 1 as [|x xs Hx _ IH]; simpl.
  - exists None. apply uniform_ret.
  - apply uniform_bind_ex; [exact Hx|].
    destruct IH as [[e|] IH].
    + exists (Some e). intros y. now apply uniform_bind_Throw.
    + exists None. intros y. apply uniform_bind; [assumption|].
      intros ys. apply uniform_ret.
Qed.

Lemma uniform_forEach {A : Type} (f : A -> M unit) (xs : list A) :
  (forall x, exists e, uniform (f x) e) ->
  exists e, uniform (forEach f xs) e.
Proof.
  intros Hf. induction xs as [|x xs IH]; simpl.
  - exists None. apply uniform_ret.
  - apply uniform_bind_ex; [apply Hf|].
    destruct IH as [e IH]. exists e. now intros _.
Qed.

Lemma uniform_attributeMembers (xs_attribute : option (array IAttribute)) :
  exists e, uniform (attributeMembers xs_attribute) e.
Proof.
  destruct xs_attribute as [attributes|]; unfold attributeMembers.
  - apply uniform_mapM, List.Forall_forall. intros x _.
    eexists. apply uniform_createProperty.
  - exists None. apply uniform_ret.
Qed.

Lemma uniform_elementMember (generate : option string -> IComplexType -> M unit)
    (e : SequenceElement IComplexType) :
  all_element (fun ct => forall name, exists x, uniform (generate name ct) x) e ->
  exists x, uniform (elementMember generate e) x.
Proof.
  unfold all_element. intros Hall.
  destruct (elementMember_cases generate e)
    as [(entries & inline & He & Hfirst & ->)|[(entries & text & _ & _ & ->)|[_ ->]]].
  - rewrite (nested_type_Some _ _ _ He Hfirst) in Hall. cbn in Hall.
    apply uniform_bind_ex; [apply Hall|].
    eexists. intros _. apply uniform_createProperty.
  - eexists. apply uniform_throw.
  - eexists. apply uniform_createProperty.
Qed.

Lemma uniform_anyMembers {CT : Type} (s : Sequence CT) :
  exists x, uniform (anyMembers s) x.
Proof.
  unfold anyMembers. destruct (any s) as [a|]; [|exists None; apply uniform_ret].
  destruct (any_meta (first a)) as [m|]; [|eexists; apply uniform_throw].
  exists None. destruct (JS.equals _ _); apply uniform_ret.
Qed.

Lemma uniform_generateMembers (generate : option string -> IComplexType -> M unit)
    (name : string) (xs_annotation : Annotations) (heritage : option (list string))
    (xs_attribute : option (array IAttribute))
    (xs_sequence : option (array (Sequence IComplexType))) :
  all_option
    (all_array
       (all_sequence
          (fun ct => forall name, exists x, uniform (generate name ct) x)))
    xs_sequence ->
  exists x,
    forall heritage,
      uniform
        (generateMembers generate name xs_annotation heritage xs_attribute
           xs_sequence) x.
Proof.
  intros Hall. unfold generateMembers.
  destruct (uniform_attributeMembers xs_attribute) as [[x|] Hattr].
  { exists (Some x). intros h. now apply uniform_bind_Throw. }
  destruct xs_sequence as [s|].
  - unfold all_option in Hall. unfold all_array at 1 in Hall.
    unfold to_list at 1 in Hall. apply Forall_inv in Hall.
    unfold all_sequence, all_option in Hall.
    destruct (uniform_anyMembers (first s)) as [xa Hany].
    destruct (element (first s)) as [elements|].
    + destruct (uniform_mapM (elementMember generate) (to_list elements))
        as [[x|] Hmap].
      { eapply List.Forall_impl; [|exact Hall].
        intros e He. now apply uniform_elementMember. }
      * exists (Some x). intros h. apply uniform_bind; [assumption|].
        intros members. now apply uniform_bind_Throw.
      * destruct xa as [xa|].
        -- exists (Some xa). intros h. apply uniform_bind; [assumption|].
           intros members. apply uniform_bind; [assumption|].
           intros properties. now apply uniform_bind_Throw.
        -- exists None. intros h. apply uniform_bind; [assumption|].
           intros members. apply uniform_bind; [assumption|].
           intros properties. apply uniform_bind; [assumption|].
           intros wildcard. apply uniform_addNode.
    + destruct (String.eqb name "Capabilities").
      * exists None. intros h. apply uniform_bind; [assumption|].
        intros members. apply uniform_ret.
      * destruct xa as [xa|].
        -- exists (Some xa). intros h. apply uniform_bind; [assumption|].
           intros members. now apply uniform_bind_Throw.
        -- exists None. intros h. apply uniform_bind; [assumption|].
           intros members. apply uniform_bind; [assumption|].
           intros wildcard. apply uniform_addNode.
  - exists None. intros h. apply uniform_bind; [assumption|].
    intros members. apply uniform_addNode.
Qed.

Lemma uniform_generateComplexTypeInterfaceAs (complexType : IComplexType) :
  forall name : option string,
    exists x, uniform (generateComplexTypeInterfaceAs name complexType) x.
Proof.
  induction complexType as [complexType IHcontent IHown]
    using IComplexType_nested_ind.
  intros name. rewrite generateComplexTypeInterfaceAs_unfold.
  unfold generateComplexTypeInterface_body.
  destruct name as [name|]; [|eexists; apply uniform_throw].
  destruct (complexContent complexType) as [c|].
  - destruct (String.eqb _ _); [exists None; apply uniform_ret|].
    destruct (sequence complexType).
    + eexists. apply uniform_bind; [apply uniform_extendInterface|].
      intros h. apply uniform_throw.
    + unfold all_option in IHcontent. unfold all_array at 1 in IHcontent.
      unfold to_list at 1 in IHcontent. apply Forall_inv in IHcontent.
      unfold all_content in IHcontent. unfold all_array at 1 in IHcontent.
      unfold to_list at 1 in IHcontent. apply Forall_inv in IHcontent.
      destruct (uniform_generateMembers generateComplexTypeInterfaceAs name
                  (complex_annotation complexType) None
                  (match extension_attribute (first (extension (first c))) with
                   | Some a => Some a
                   | None => attribute complexType
                   end)
                  (extension_sequence (first (extension (first c)))) IHcontent)
        as [x Hx].
      exists x. apply uniform_bind; [apply uniform_extendInterface|exact Hx].
  - destruct (uniform_generateMembers generateComplexTypeInterfaceAs name
                (complex_annotation complexType) None
                (attribute complexType) (sequence complexType) IHown)
      as [x Hx].
    exists x. apply Hx.
Qed.

Lemma uniform_generateSimpleTypeInterface (simpleType : ISimpleType) :
  exists x, uniform (generateSimpleTypeInterface simpleType) x.
Proof.
  unfold generateSimpleTypeInterface.
  destruct (Meta.name (simple_meta simpleType)); [|eexists; apply uniform_throw].
  exists None. destruct (restriction simpleType) as [r|].
  - destruct (enumeration (first r)); [apply uniform_addNode|].
    apply uniform_bind; [|intros; apply uniform_addNode].
    destruct (startsUpperCase _); [apply uniform_usedTypes_add|apply uniform_ret].
  - destruct (list_itemType simpleType); [apply uniform_addNode|apply uniform_ret].
Qed.

Lemma uniform_generateElementType (e : IElement) :
  exists x, uniform (generateElementType e) x.
Proof.
  destruct (inline_type e) as [complexType|] eqn:Hinline.
  - rewrite (generateElementType_inline e complexType Hinline).
    apply uniform_bind_ex; [apply uniform_generateComplexTypeInterfaceAs|].
    exists None. intros _. apply uniform_ret.
  - rewrite (generateElementType_otherwise e Hinline). exists None.
    destruct (top_type e) as [type|]; [|apply uniform_ret].
    destruct (JS.truthy type); [|apply uniform_ret].
    intros st. unfold generateElementType_typed.
    destruct (_ && _); [reflexivity|].
    destruct (String.eqb _ _); [reflexivity|].
    revert st. apply uniform_bind; [apply uniform_extendInterface|].
    intros h. apply uniform_bind; [apply uniform_addNode|].
    intros _. apply uniform_ret.
Qed.

Lemma uniform_prefix (schema : option ISchemaDefinition) :
  exists x, uniform (prefix schema) x.
Proof.
  unfold prefix.
  assert (Heach : forall (A B : Type) (f : A -> M B) (xs : option (array A)),
             (forall a, exists x, uniform (f a) x) ->
             exists x,
               uniform
                 match xs with
                 | Some xs => forEach (fun a => f a ;; ret tt)%gen (to_list xs)
                 | None => ret tt
                 end x).
  { intros A B f [xs|] Hf; [|exists None; apply uniform_ret].
    apply uniform_forEach. intros a. apply uniform_bind_ex; [apply Hf|].
    exists None. intros _. apply uniform_ret. }
  assert (Hlast : exists e, forall u : unit,
               uniform (fun st : State => Ok (nodes (this st), st)) e).
  { exists None. intros _ st. reflexivity. }
  apply uniform_bind_ex; [|exact Hlast].
  destruct schema as [schema|]; [|exists None; apply uniform_ret].
  apply uniform_bind_ex;
    [apply Heach, uniform_generateSimpleTypeInterface|].
  destruct (Heach _ _ generateComplexTypeInterface (xs_complexType schema))
    as [[x|] H2].
  { intros ct. apply uniform_generateComplexTypeInterfaceAs. }
  - exists (Some x). intros _. now apply uniform_bind_Throw.
  - destruct (Heach _ _ generateElementType (xs_element schema)
                uniform_generateElementType) as [x H3].
    exists x. intros _. apply uniform_bind; [assumption|]. now intros _.
Qed.

Lemma prefix_failure (schema : option ISchemaDefinition) (st st' : State) :
  failure (prefix schema st) = failure (prefix schema st').
Proof.
  destruct (uniform_prefix schema) as [x H]. now rewrite (H st), (H st').
Qed.

Lemma process_document_failure (w : World) (d : Document) (st : State) :
  failure (process_document w d) = failure (prefix (document_schema d) st).
Proof.
  unfold process_document.
  rewrite (prefix_failure (document_schema d) st
             {| this := newProcessor (document_fileName d);
                links := registry w; console := output w |}).
  now destruct (prefix _ _) as [[ns st']|e].
Qed.

Lemma process_documents_failure (ds : list Document) :
  forall w : World,
    match process_documents w ds with
    | Ok _ => forall d w', In d ds -> failure (process_document w' d) = None
    | Throw e => exists d, In d ds
                           /\ forall w', failure (process_document w' d) = Some e
    end.
Proof.
  induction ds as [|d ds IH]; intros w; simpl; [intros d w' []|].
  destruct (process_document w d) as [w1|e] eqn:E.
  - specialize (IH w1). destruct (process_documents w1 ds) as [w2|e].
    + intros d' w' [<-|Hin]; [|now apply IH].
      rewrite (process_document_failure w' d (Sample.fresh EmptyString)).
      rewrite <- (process_document_failure w d), E. reflexivity.
    + destruct IH as (d' & Hin & Hd'). exists d'. split; [now right|assumption].
  - exists d. split; [now left|]. intros w'.
    rewrite (process_document_failure w' d (Sample.fresh EmptyString)).
    rewrite <- (process_document_failure w d), E. reflexivity.
Qed.

Lemma resolve_loop_Throw (links' : gmap string IType) (ps : list Processor) :
  forall (done : list Processor) (out : list string) (e : exn),
    fold_result
      (fun '(done, out) p =>
         match suffix links' {| this := p; links := links'; console := out |} with
         | Ok st => Ok (done ++ [this st], console st)
         | Throw e => Throw e
         end)
      ps (done, out) = Throw e ->
    exists p out',
      In p ps
      /\ suffix links' {| this := p; links := links'; console := out' |} = Throw e.
Proof.
  induction ps as [|p ps IH]; intros done out e; simpl; [discriminate|].
  destruct (suffix links' {| this := p; links := links'; console := out |})
    as [st|e'] eqn:E.
  - intros H. apply IH in H as (p' & out' & Hin & H). exists p', out'. auto.
  - intros [= <-]. exists p, out. auto.
Qed.

(** The second pass throws only a [TypeError], and only for a type that a
    module needs and whose owner is named like a member of
    [Object.prototype]. *)
Lemma resolve_all_Throw (w : World) (e : exn) :
  resolve_all w = Throw e ->
  e = TypeError
  /\ exists p t f,
       In p (processors w) /\ In t (ImportsNeeded p)
       /\ owner (registry w) t = Some f /\ JSObject.inherited f = true.
Proof.
  unfold resolve_all.
  destruct (fold_result _ _ _) as [[ps out]|e'] eqn:E; [discriminate|].
  intros [= <-]. apply resolve_loop_Throw in E as (p & out' & Hp & E).
  apply suffix_Throw in E as (-> & t & f & Ht & Ho & Hf).
  split; [reflexivity|]. exists p, t, f. apply in_rev in Hp. auto.
Qed.

Lemma first_pass_sound (ds : list Document) (w0 : World) :
  process_documents
    {| processors := []; registry := snd generateBuiltIns; output := [] |} ds
  = Ok w0 ->
  world_invariant w0 /\ registry_sound w0
  /\ List.map fileName (processors w0) = List.map document_fileName ds.
Proof.
  intros E. apply process_documents_sound in E; [exact E|intros p []|].
  intros name o H. left. now apply generateBuiltIns_registry.
Qed.

(** A needed type with an owner is a built-in type, or is declared by
    another module of the run named as the owner is. *)
Lemma needed_owner (w0 : World) (p : Processor) (t f : string) :
  registry_sound w0 ->
  In p (processors w0) ->
  In t (ImportsNeeded p) ->
  owner (registry w0) t = Some f ->
  f = BASICS_FILENAME
  \/ exists q, In q (processors w0) /\ q <> p /\ fileName q = f
               /\ In t (declaredTypes q).
Proof.
  intros Hsound Hp Ht Ho. apply owner_Some in Ho as [Ho _].
  apply Hsound in Ho as [[_ [= ->]]|(q & Hq & [= ->] & Hd)]; [now left|].
  right. exists q. repeat split; try assumption.
  intros ->. apply difference_In in Ht as [_ Ht]. contradiction.
Qed.

Lemma start_alone (d : Document) :
  failure (start [d] [])
  = failure (process_document
               {| processors := []; registry := snd generateBuiltIns; output := [] |}
               d).
Proof.
  unfold start. cbn [app process_documents].
  destruct (process_document _ d) as [w0|e] eqn:E1; [|reflexivity].
  destruct (resolve_all w0) as [w|e] eqn:Hw; [reflexivity|]. exfalso.
  apply resolve_all_Throw in Hw as (_ & p & t & f & Hp & Ht & Ho & Hf).
  assert (Hrun : process_documents
                   {| processors := []; registry := snd generateBuiltIns;
                      output := [] |} [d] = Ok w0).
  { cbn [process_documents]. now rewrite E1. }
  apply first_pass_sound in Hrun as (_ & Hsound & _).
  destruct (needed_owner w0 p t f Hsound Hp Ht Ho)
    as [->|(q & Hq & Hne & _)]; [discriminate|].
  apply process_document_fileName in E1 as (p1 & Hp1 & _). cbn in Hp1.
  rewrite Hp1 in Hp, Hq. destruct Hp as [<-|[]], Hq as [<-|[]]. contradiction.
Qed.

Lemma start_alone_Ok (xsds wsdls : list Document) (w : World) (d : Document) :
  start xsds wsdls = Ok w -> In d (xsds ++ wsdls) ->
  exists w1, start [d] [] = Ok w1.
Proof.
  intros H Hd.
  pose proof (process_documents_failure (xsds ++ wsdls)
                {| processors := []; registry := snd generateBuiltIns;
                   output := [] |}) as Hds.
  unfold start in H.
  destruct (process_documents _ (xsds ++ wsdls)) as [w0|e]; [|discriminate].
  pose proof (start_alone d) as Hs. rewrite (Hds d _ Hd) in Hs.
  destruct (start [d] []) as [w'|e]; [eauto|discriminate].
Qed.

(** A run that fails fails as one of its documents does alone, or in the
    second pass, on a module named like a member of [Object.prototype]. *)
Lemma start_Throw (xsds wsdls : list Document) (e : exn) :
  start xsds wsdls = Throw e ->
  (exists d, In d (xsds ++ wsdls) /\ start [d] [] = Throw e)
  \/ (e = TypeError
      /\ exists d, In d (xsds ++ wsdls)
                   /\ JSObject.inherited (document_fileName d) = true).
Proof.
  pose proof (process_documents_failure (xsds ++ wsdls)
                {| processors := []; registry := snd generateBuiltIns;
                   output := [] |}) as H.
  unfold start at 1.
  destruct (process_documents _ (xsds ++ wsdls)) as [w0|e0] eqn:E.
  - intros Hw. right.
    apply resolve_all_Throw in Hw as (-> & p & t & f & Hp & Ht & Ho & Hf).
    split; [reflexivity|].
    apply first_pass_sound in E as (_ & Hsound & Hnames).
    destruct (needed_owner w0 p t f Hsound Hp Ht Ho)
      as [->|(q & Hq & _ & <- & _)]; [discriminate|].
    assert (Hin : In (fileName q) (List.map document_fileName (xsds ++ wsdls))).
    { rewrite <- Hnames. now apply in_map. }
    apply in_map_iff in Hin as (d & Hd & Hin). exists d. split; [assumption|].
    now rewrite Hd.
  - intros [= <-]. left. destruct H as (d & Hd & He). exists d.
    split; [assumption|].
    pose proof (start_alone d) as Hs. rewrite He in Hs.
    destruct (start [d] []) as [w'|e']; [discriminate|]. now injection Hs as ->.
Qed.

(** X10. Whether generation fails, and with which exception, depends on
    the document alone, not on the module's state, the registry or the
    console: [prefix] on a schema ends the same way from every state. A
    run that fails fails with the exception of one of its documents run
    alone, or with a [TypeError] of the second pass, which takes a
    document named like a member of [Object.prototype]. So every document
    of a run that succeeds succeeds alone; and when no document has such a
    name, a run succeeds as soon as each of its documents does alone. *)
Theorem failure_depends_on_the_document_alone (xsds wsdls : list Document) :
  (forall schema st st',
      failure (prefix schema st) = failure (prefix schema st'))
  /\ (forall e,
         start xsds wsdls = Throw e ->
         (exists d, In d (xsds ++ wsdls) /\ start [d] [] = Throw e)
         \/ (e = TypeError
             /\ exists d, In d (xsds ++ wsdls)
                          /\ JSObject.inherited (document_fileName d) = true))
  /\ (forall w d,
         start xsds wsdls = Ok w -> In d (xsds ++ wsdls) ->
         exists w1, start [d] [] = Ok w1)
  /\ ((forall d, In d (xsds ++ wsdls) ->
                 JSObject.inherited (document_fileName d) = false) ->
      (forall d, In d (xsds ++ wsdls) -> exists w1, start [d] [] = Ok w1) ->
      exists w, start xsds wsdls = Ok w).
Proof.
  split; [exact prefix_failure|].
  split; [intros e; apply start_Throw|].
  split; [intros w d; apply start_alone_Ok|].
  intros Hnames Halone.
  destruct (start xsds wsdls) as [w|e] eqn:E; [eauto|exfalso].
  apply start_Throw in E as [(d & Hd & He)|(_ & d & Hd & Hf)].
  - destruct (Halone d Hd) as [w1 Hw1]. congruence.
  - rewrite (Hnames d Hd) in Hf. discriminate.
Qed.

Lemma failure_witness :
  exists w, start [Run.common; Run.device] [] = Ok w.
Proof.
  apply (proj2 (proj2 (proj2 (failure_depends_on_the_document_alone
                                [Run.common; Run.device] [])))).
  - intros d [<-|[<-|[]]]; reflexivity.
  - intros d [<-|[<-|[]]]; eexists; vm_compute; reflexivity.
Defined.

(** ** References *)

Lemma createProperty_appends (attribute : IAttribute) (st : State) (node : Node)
    (st' : State) :
  createProperty attribute st = Ok (node, st') -> appends st st'.
Proof.
  apply (createProperty_respects appends appends_refl usedTypes_add_appends).
Qed.

Lemma generateComplexTypeInterfaceAs_appends (complexType : IComplexType)
    (name : option string) (st : State) (u : unit) (st' : State) :
  generateComplexTypeInterfaceAs name complexType st = Ok (u, st') -> appends st st'.
Proof.
  apply (generateComplexTypeInterfaceAs_respects appends appends_refl appends_trans
           usedTypes_add_appends addNode_appends).
Qed.

Lemma covers_appends (st st' : State) (ns : list Node) :
  appends st st' ->
  covers (usedTypes (this st)) ns -> covers (usedTypes (this st')) ns.
Proof.
  intros (_ & _ & _ & [added ->] & _) H n t Hn Ht Hup.
  apply in_or_app. left. eauto.
Qed.

Lemma covers_app (used : list string) (ns ns' : list Node) :
  covers used ns -> covers used ns' -> covers used (ns ++ ns').
Proof.
  intros H H' n t Hn. apply in_app_or in Hn as [Hn|Hn]; eauto.
Qed.

Lemma references_annotated (xs_annotation : Annotations) (node : Node) :
  references (createAnnotationIfExists xs_annotation node) = references node.
Proof. now destruct xs_annotation. Qed.

Lemma In_add (x y : string) (s : list string) :
  In x (StringSet.add y s) <-> In x s \/ x = y.
Proof.
  unfold StringSet.add. destruct (StringSet.has y s) eqn:E.
  - split; [auto|]. intros [H| ->]; [assumption|now apply has_In].
  - rewrite in_app_iff. simpl. intuition.
Qed.

Lemma createProperty_covers (attribute : IAttribute) (st : State) (node : Node)
    (st' : State) :
  createProperty attribute st = Ok (node, st') ->
  covers (usedTypes (this st')) [node].
Proof.
  unfold createProperty. destruct (propertyName _); [|discriminate].
  intros H. apply bind_Ok in H as (u & st1 & H1 & [= <- <-]).
  intros n t [<-|[]]. rewrite references_annotated.
  assert (Href : forall b : bool,
             typeReferences
               (if b
                then ArrayType (TypeReference
                                  (cleanName (dataTypes (Meta.type (meta attribute)))))
                else TypeReference
                       (cleanName (dataTypes (Meta.type (meta attribute)))))
             = [cleanName (dataTypes (Meta.type (meta attribute)))]).
  { now intros []. }
  cbn [references]. rewrite Href. intros [<-|[]] Hup.
  rewrite Hup in H1. injection H1 as _ <-. cbn. apply In_add. now right.
Qed.

(** A loop over [xs] whose steps keep [I], only append, and return nodes
    that the used types cover. *)
Lemma mapM_covers {A : Type} (I : State -> Prop) (f : A -> M Node) (xs : list A) :
  Forall (fun x => forall st y st',
              I st -> f x st = Ok (y, st') ->
              I st' /\ appends st st' /\ covers (usedTypes (this st')) [y]) xs ->
  forall st ys st',
    I st -> mapM f xs st = Ok (ys, st') ->
    I st' /\ appends st st' /\ covers (usedTypes (this st')) ys.
Proof.
  induction 1 as [|x xs Hx _ IH]; intros st ys st' HI; simpl.
  - intros [= <- <-]. split; [assumption|]. split; [apply appends_refl|].
    intros n t [].
  - intros H. apply bind_Ok in H as (y & st1 & H1 & H).
    apply bind_Ok in H as (ys' & st2 & H2 & [= <- <-]).
    destruct (Hx st y st1 HI H1) as (HI1 & Ha1 & Hc1).
    destruct (IH st1 ys' st2 HI1 H2) as (HI2 & Ha2 & Hc2).
    split; [assumption|]. split; [eapply appends_trans; eassumption|].
    apply (covers_app _ [y] ys'); [|assumption].
    eapply covers_appends; eassumption.
Qed.

Lemma createProperty_covered (attribute : IAttribute) (st : State) (node : Node)
    (st' : State) :
  covered st -> createProperty attribute st = Ok (node, st') ->
  covered st' /\ appends st st' /\ covers (usedTypes (this st')) [node].
Proof.
  intros Hc H. pose proof (createProperty_appends _ _ _ _ H) as Ha.
  split; [|split; [assumption|eapply createProperty_covers; eassumption]].
  apply createProperty_only_uses in H as (_ & Hn & _).
  unfold covered. rewrite Hn. eapply covers_appends; eassumption.
Qed.

Lemma attributeMembers_covered (xs_attribute : option (array IAttribute))
    (st : State) (members : list Node) (st' : State) :
  covered st -> attributeMembers xs_attribute st = Ok (members, st') ->
  covered st' /\ appends st st' /\ covers (usedTypes (this st')) members.
Proof.
  destruct xs_attribute as [attributes|]; unfold attributeMembers.
  - apply mapM_covers. apply List.Forall_forall.
    intros x _ s y s'. apply createProperty_covered.
  - intros Hc [= <- <-]. split; [assumption|]. split; [apply appends_refl|].
    intros n t [].
Qed.

Lemma addNode_covered (name : string) (node : Node) (st : State) (u : unit)
    (st' : State) :
  covered st -> covers (usedTypes (this st)) [node] ->
  addNode name node st = Ok (u, st') ->
  covered st'.
Proof.
  unfold addNode, covered. intros Hc Hnode.
  destruct (StringSet.has name (declaredTypes (this st))); intros [= _ <-];
    unfold console_log; cbn.
  - assumption.
  - now apply covers_app.
Qed.

Lemma anyMembers_covers (used : list string) (s : Sequence IComplexType)
    (st : State) (wildcard : list Node) (st' : State) :
  anyMembers s st = Ok (wildcard, st') ->
  st' = st /\ covers used wildcard.
Proof.
  intros H. split; [eapply anyMembers_Ok; eassumption|].
  revert H. unfold anyMembers.
  destruct (any s) as [a|]; [|intros [= <- _] n t []].
  destruct (any_meta (first a)) as [m|]; [|discriminate].
  destruct (JS.equals _ _); intros [= <- _]; [|intros n t []].
  intros n t [<-|[]]. rewrite references_annotated.
  intros [<-|[]]. discriminate.
Qed.

Lemma interface_covers (used : list string) (xs_annotation : Annotations)
    (name : string) (heritage : option (list string)) (members : list Node) :
  (forall names h, heritage = Some names -> In h names -> In h used) ->
  covers used members ->
  covers used
    [createAnnotationIfExists xs_annotation
       (InterfaceDeclaration name heritage members)].
Proof.
  intros Hh Hm n t [<-|[]]. rewrite references_annotated. cbn [references].
  intros Hin Hup. apply in_app_or in Hin as [Hin|Hin].
  - destruct heritage as [names|]; [eauto|destruct Hin].
  - apply in_flat_map in Hin as (m & Hm' & Ht). eauto.
Qed.

Lemma elementMember_covered (generate : option string -> IComplexType -> M unit)
    (e : SequenceElement IComplexType) :
  all_element
    (fun ct => forall name st u st',
         covered st -> generate name ct st = Ok (u, st') ->
         covered st' /\ appends st st') e ->
  forall st y st',
    covered st -> elementMember generate e st = Ok (y, st') ->
    covered st' /\ appends st st' /\ covers (usedTypes (this st')) [y].
Proof.
  unfold all_element. intros Hall st y st' Hc.
  destruct (elementMember_cases generate e)
    as [(entries & inline & He & Hfirst & ->)|[(entries & text & _ & _ & ->)|[_ ->]]];
    [rewrite (nested_type_Some _ _ _ He Hfirst) in Hall; cbn in Hall
    |discriminate|].
  - intros H. apply bind_Ok in H as (u & st1 & H1 & H2).
    destruct (Hall _ _ _ _ Hc H1) as [Hc1 Ha1].
    destruct (createProperty_covered _ _ _ _ Hc1 H2) as (Hc2 & Ha2 & Hy).
    split; [assumption|]. split; [eapply appends_trans; eassumption|assumption].
  - now apply createProperty_covered.
Qed.

Lemma generateMembers_covered (generate : option string -> IComplexType -> M unit)
    (name : string) (xs_annotation : Annotations) (heritage : option (list string))
    (xs_attribute : option (array IAttribute))
    (xs_sequence : option (array (Sequence IComplexType))) :
  all_option
    (all_array
       (all_sequence
          (fun ct => forall name st u st',
               covered st -> generate name ct st = Ok (u, st') ->
               covered st' /\ appends st st')))
    xs_sequence ->
  forall st u st',
    covered st ->
    (forall names h, heritage = Some names -> In h names ->
                     In h (usedTypes (this st))) ->
    generateMembers generate name xs_annotation heritage xs_attribute xs_sequence st
    = Ok (u, st') ->
    covered st'.
Proof.
  intros Hall st u st' Hc Hh. unfold generateMembers. intros H.
  apply bind_Ok in H as (members & st1 & Hattr & H).
  apply (attributeMembers_covered _ _ _ _ Hc) in Hattr as (Hc1 & Ha1 & Hm).
  assert (Hh1 : forall names h, heritage = Some names -> In h names ->
                                In h (usedTypes (this st1))).
  { intros names h E Hin. destruct Ha1 as (_ & _ & _ & [added ->] & _).
    apply in_or_app. left. eauto. }
  destruct xs_sequence as [s|].
  - unfold all_option in Hall. unfold all_array at 1 in Hall.
    unfold to_list at 1 in Hall. apply Forall_inv in Hall.
    unfold all_sequence, all_option in Hall.
    destruct (element (first s)) as [elements|].
    + apply bind_Ok in H as (properties & st2 & Hmap & H).
      apply bind_Ok in H as (wildcard & st3 & Hany & H).
      apply (anyMembers_covers (usedTypes (this st2))) in Hany as [-> Hw].
      apply (mapM_covers covered) in Hmap as (Hc2 & Ha2 & Hp); [|clear Hmap|assumption].
      * eapply addNode_covered; [exact Hc2| |exact H].
        apply interface_covers.
        -- intros names h E Hin. destruct Ha2 as (_ & _ & _ & [added ->] & _).
           apply in_or_app. left. eauto.
        -- apply covers_app; [eapply covers_appends; eassumption|].
           apply covers_app; assumption.
      * eapply List.Forall_impl; [|exact Hall].
        intros e He. now apply elementMember_covered.
    + destruct (String.eqb name "Capabilities").
      * now injection H as _ <-.
      * apply bind_Ok in H as (wildcard & st3 & Hany & H).
        apply (anyMembers_covers (usedTypes (this st1))) in Hany as [-> Hw].
        eapply addNode_covered; [exact Hc1| |exact H].
        apply interface_covers; [assumption|].
        apply covers_app; assumption.
  - eapply addNode_covered; [exact Hc1| |exact H].
    now apply interface_covers.
Qed.

Lemma extendInterface_heritage (interfaceName : string) (st : State)
    (heritage : option (list string)) (st' : State) :
  extendInterface interfaceName st = Ok (heritage, st') ->
  nodes (this st') = nodes (this st)
  /\ appends st st'
  /\ forall names h, heritage = Some names -> In h names ->
                     In h (usedTypes (this st')).
Proof.
  unfold extendInterface. destruct (JS.truthy interfaceName).
  - intros H. apply bind_Ok in H as (u & st1 & H1 & [= <- <-]).
    pose proof (usedTypes_add_appends _ _ _ _ H1) as Ha.
    injection H1 as _ <-. cbn in *. split; [reflexivity|]. split; [assumption|].
    intros names h [= <-] [<-|[]]. apply In_add. now right.
  - intros [= <- <-]. split; [reflexivity|]. split; [apply appends_refl|].
    discriminate.
Qed.

Lemma generateComplexTypeInterfaceAs_covered (complexType : IComplexType) :
  forall (name : option string) (st : State) (u : unit) (st' : State),
    covered st ->
    generateComplexTypeInterfaceAs name complexType st = Ok (u, st') ->
    covered st' /\ appends st st'.
Proof.
  induction complexType as [complexType IHcontent IHown]
    using IComplexType_nested_ind.
  intros name st u st' Hc H.
  split; [|eapply generateComplexTypeInterfaceAs_appends; eassumption].
  revert H. rewrite generateComplexTypeInterfaceAs_unfold.
  unfold generateComplexTypeInterface_body.
  destruct name as [name|]; [|discriminate].
  destruct (complexContent complexType) as [c|].
  - destruct (String.eqb _ _); [now intros [= _ <-]|].
    intros H. apply bind_Ok in H as (heritage & st1 & Hext & H).
    apply extendInterface_heritage in Hext as (Hn & Ha & Hh).
    destruct (sequence complexType); [discriminate|].
    unfold all_option in IHcontent. unfold all_array at 1 in IHcontent.
    unfold to_list at 1 in IHcontent. apply Forall_inv in IHcontent.
    unfold all_content in IHcontent. unfold all_array at 1 in IHcontent.
    unfold to_list at 1 in IHcontent. apply Forall_inv in IHcontent.
    eapply generateMembers_covered; [exact IHcontent| |exact Hh|exact H].
    unfold covered. rewrite Hn. eapply covers_appends; eassumption.
  - eapply generateMembers_covered; [exact IHown|exact Hc|discriminate].
Qed.

Lemma generateSimpleTypeInterface_covered (simpleType : ISimpleType) (st : State)
    (u : unit) (st' : State) :
  list_of_named simpleType = false ->
  covered st ->
  generateSimpleTypeInterface simpleType st = Ok (u, st') ->
  covered st'.
Proof.
  unfold generateSimpleTypeInterface, list_of_named. intros Hlist Hc.
  destruct (Meta.name (simple_meta simpleType)); [|discriminate].
  destruct (restriction simpleType) as [r|].
  - destruct (enumeration (first r)) as [values|].
    + apply addNode_covered; [assumption|].
      intros n t [<-|[]]. rewrite references_annotated. cbn [references typeReferences].
      intros Hin. apply in_flat_map in Hin as (x & Hx & Ht).
      apply in_map_iff in Hx as (v & <- & _). destruct Ht.
    + intros H. apply bind_Ok in H as (u1 & st1 & H1 & H).
      eapply addNode_covered; [| |exact H].
      * destruct (startsUpperCase _); [|now injection H1 as _ <-].
        pose proof (usedTypes_add_appends _ _ _ _ H1) as Ha.
        unfold covered. injection H1 as _ <-. cbn.
        intros n t Hn Ht Hup. apply In_add. left. eauto.
      * intros n t [<-|[]]. rewrite references_annotated.
        intros [<-|[]] Hup. rewrite Hup in H1. injection H1 as _ <-. cbn.
        apply In_add. now right.
  - destruct (list_itemType simpleType) as [l|]; [|now intros [= _ <-]].
    apply addNode_covered; [assumption|].
    intros n t [<-|[]]. rewrite references_annotated.
    intros [<-|[]] Hup. congruence.
Qed.

Lemma generateElementType_covered (e : IElement) (st : State) (r : option Node)
    (st' : State) :
  covered st -> generateElementType e st = Ok (r, st') -> covered st'.
Proof.
  intros Hc. destruct (inline_type e) as [complexType|] eqn:Hinline.
  - rewrite (generateElementType_inline e complexType Hinline).
    intros H. apply bind_Ok in H as (u & st1 & H1 & [= _ <-]).
    eapply generateComplexTypeInterfaceAs_covered; eassumption.
  - rewrite (generateElementType_otherwise e Hinline).
    assert (Hnone : @ret (option Node) None st = Ok (r, st') -> covered st').
    { now intros [= _ <-]. }
    destruct (top_type e) as [type|]; [|exact Hnone].
    destruct (JS.truthy type); [|exact Hnone].
    unfold generateElementType_typed.
    destruct (_ && _); [now intros [= _ <-]|].
    destruct (String.eqb _ _); [exact Hnone|].
    intros H. apply bind_Ok in H as (heritage & st1 & Hext & H).
    apply extendInterface_heritage in Hext as (Hn & Ha & Hh).
    apply bind_Ok in H as (u & st3 & Hadd & [= _ <-]).
    eapply addNode_covered; [| |exact Hadd].
    + unfold covered. rewrite Hn. eapply covers_appends; eassumption.
    + apply interface_covers; [assumption|]. intros n t [].
Qed.

Lemma forEach_covered {A B : Type} (Q : A -> Prop) (f : A -> M B) (xs : list A) :
  (forall x st y st', Q x -> covered st -> f x st = Ok (y, st') -> covered st') ->
  (forall x, In x xs -> Q x) ->
  forall st u st',
    covered st ->
    forEach (fun x => f x ;; ret tt)%gen xs st = Ok (u, st') ->
    covered st'.
Proof.
  intros Hf. induction xs as [|x xs IH]; intros HQ st u st' Hc; simpl.
  - now intros [= _ <-].
  - intros H. apply bind_Ok in H as (u1 & st1 & H1 & H).
    apply bind_Ok in H1 as (y & st2 & H1 & [= _ <-]).
    eapply IH; [intros; apply HQ; now right| |exact H].
    eapply Hf; [apply HQ; now left|exact Hc|exact H1].
Qed.

Lemma prefix_covered (schema : option ISchemaDefinition) (st : State)
    (ns : list Node) (st' : State) :
  (forall schema' s, schema = Some schema' -> In s (entries (xs_simpleType schema')) ->
                     list_of_named s = false) ->
  covered st ->
  prefix schema st = Ok (ns, st') ->
  covered st'.
Proof.
  unfold prefix. intros Hlist Hc H.
  apply bind_Ok in H as (u & st1 & H & [= _ <-]).
  destruct schema as [schema|]; [|now injection H as _ <-].
  apply bind_Ok in H as (u1 & st2 & H1 & H).
  apply bind_Ok in H as (u2 & st3 & H2 & H3).
  assert (Hc2 : covered st2).
  { specialize (Hlist schema). unfold entries in Hlist.
    destruct (xs_simpleType schema) as [xs|]; [|now injection H1 as _ <-].
    eapply (forEach_covered (fun s => list_of_named s = false));
      [|intros s Hs; apply Hlist; [reflexivity|exact Hs]|exact Hc|exact H1].
    intros s s0 y s1 Hs. now apply generateSimpleTypeInterface_covered. }
  assert (Hc3 : covered st3).
  { destruct (xs_complexType schema) as [xs|]; [|now injection H2 as _ <-].
    eapply (forEach_covered (fun _ => True)); [|auto|exact Hc2|exact H2].
    intros ct s0 y s1 _ Hs0 Hs. unfold generateComplexTypeInterface in Hs.
    eapply generateComplexTypeInterfaceAs_covered; eassumption. }
  destruct (xs_element schema) as [xs|]; [|now injection H3 as _ <-].
  eapply (forEach_covered (fun _ => True)); [|auto|exact Hc3|exact H3].
  intros e s0 y s1 _. apply generateElementType_covered.
Qed.

Lemma process_documents_covered (ds : list Document) :
  forall w w' : World,
    (forall d s, In d ds -> In s (simpleTypes d) -> list_of_named s = false) ->
    process_documents w ds = Ok w' ->
    (forall p, In p (processors w) -> covers (usedTypes p) (nodes p)) ->
    forall p, In p (processors w') -> covers (usedTypes p) (nodes p).
Proof.
  induction ds as [|d ds IH]; intros w w' Hlist; simpl.
  - now intros [= <-].
  - unfold process_document.
    destruct (prefix (document_schema d) _) as [[ns st]|e] eqn:E; [|discriminate].
    intros H Hw. eapply IH; [|exact H|].
    + intros d' s Hd'. apply Hlist. now right.
    + cbn. intros p Hp. apply in_app_or in Hp as [Hp|[<-|[]]]; [now apply Hw|].
      apply prefix_covered in E; [exact E| |intros n t []].
      intros schema s Hschema Hs. apply (Hlist d s); [now left|].
      unfold simpleTypes. now rewrite Hschema.
Qed.

Lemma start_covered (xsds wsdls : list Document) (w : World) :
  (forall d s, In d (xsds ++ wsdls) -> In s (simpleTypes d) ->
               list_of_named s = false) ->
  start xsds wsdls = Ok w ->
  forall p, In p (processors w) -> covers (usedTypes p) (nodes p).
Proof.
  unfold start. intros Hlist.
  destruct (process_documents _ _) as [w0|e] eqn:E; [|discriminate].
  intros Hw p Hp.
  destruct (resolve_all_processors w0 w Hw) as [Hall _].
  destruct (Forall2_In_r _ _ _ _ Hall Hp) as (p0 & Hp0 & Hres).
  apply in_rev in Hp0.
  apply resolved_module in Hres as (imports & Hn & _ & _ & Hu & _).
  rewrite Hn, Hu.
  pose proof (process_documents_covered _ _ _ Hlist E) as Hc.
  intros n t Hin. apply in_app_or in Hin as [Hin|[<-|Hin]].
  - apply in_map_iff in Hin as (i & <- & _). intros [].
  - intros [].
  - eapply Hc; [intros q []|exact Hp0|exact Hin].
Qed.

(** X11. Every reference of a finished module is accounted for. In a run
    that succeeds over documents with no list simple type of items whose
    type name is in upper case, every type name in upper case that a node
    of a module refers to, as the type of a property or of an alias, or in
    a heritage clause, is recorded as used by the module, and is declared
    by the module, or brought in by one of its import declarations, or
    reported on the console as not found. *)
Theorem start_references_are_accounted_for (xsds wsdls : list Document)
    (w : World) (p : Processor) (n : Node) (t : string) :
  (forall d s, In d (xsds ++ wsdls) -> In s (simpleTypes d) ->
               list_of_named s = false) ->
  start xsds wsdls = Ok w ->
  In p (processors w) ->
  In n (nodes p) ->
  In t (references n) ->
  startsUpperCase t = true ->
  In t (usedTypes p)
  /\ (In t (declaredTypes p)
      \/ (exists names f,
             In (ImportDeclaration names ("./" +:+ f)) (nodes p) /\ In t names)
      \/ In ("Type " +:+ t +:+ " not found in links") (output w)).
Proof.
  intros Hlist H Hp Hn Ht Hup.
  pose proof (start_covered _ _ _ Hlist H p Hp n t Hn Ht Hup) as Hused.
  split; [assumption|].
  destruct (in_dec string_dec t (declaredTypes p)) as [Hd|Hd]; [now left|right].
  apply start_modules in H as (_ & _ & _ & Hmod).
  destruct (Hmod p Hp)
    as (p0 & imports & _ & Hnodes & _ & Hd0 & Hu0 & _ & Himp & Hwarn & _).
  rewrite Hu0 in Hused. rewrite Hd0 in Hd.
  destruct (owner (registry w) t) as [f|] eqn:Ho; [left|right; now apply Hwarn].
  destruct (proj2 (Himp f t)) as (names & Hin & Htn); [auto|].
  exists names, f. split; [|assumption]. rewrite Hnodes.
  apply in_or_app. left. apply in_map_iff. now exists (f, names).
Qed.

Lemma start_references_witness :
  In "Vector" (usedTypes Run.device_module)
  /\ (In "Vector" (declaredTypes Run.device_module)
      \/ (exists names f,
             In (ImportDeclaration names ("./" +:+ f)) (nodes Run.device_module)
             /\ In "Vector" names)
      \/ In "Type Vector not found in links" (output Run.finished)).
Proof.
  apply (start_references_are_accounted_for [Run.common; Run.device] []
           Run.finished Run.device_module
           (InterfaceDeclaration "Position" None
              [PropertySignature "panTilt" false (TypeReference "Vector");
               PropertySignature "label" false (TypeReference "Name");
               PropertySignature "address" false (TypeReference "AnyURI");
               PropertySignature "since" false (TypeReference "Date")])
           "Vector").
  - intros d s [<-|[<-|[]]]; vm_compute; [|intros []].
    intros [<-|[]]. reflexivity.
  - vm_compute. reflexivity.
  - vm_compute. auto.
  - vm_compute. auto 6.
  - vm_compute. auto.
  - reflexivity.
Defined.

(** ** Locality *)

Lemma local_ret {A : Type} (a : A) : local (ret a).
Proof. intros st1 st2 E. unfold ret. cbn. now rewrite E. Qed.

Lemma local_throw {A : Type} (e : exn) : local (@throw A e).
Proof. intros st1 st2 E. reflexivity. Qed.

Lemma local_bind {A B : Type} (m : M A) (k : A -> M B) :
  local m -> (forall a, local (k a)) -> local (bind m k).
Proof.
  intros Hm Hk st1 st2 E. unfold bind. specialize (Hm st1 st2 E).
  destruct (m st1) as [[a1 s1]|e1], (m st2) as [[a2 s2]|e2];
    cbn in Hm; try discriminate.
  - injection Hm as <- Hs. now apply Hk.
  - injection Hm as ->. reflexivity.
Qed.

Lemma local_usedTypes_add (typeName : string) : local (usedTypes_add typeName).
Proof. intros st1 st2 E. unfold usedTypes_add. cbn. now rewrite E. Qed.

Lemma local_addNode (name : string) (node : Node) : local (addNode name node).
Proof.
  intros st1 st2 E. unfold addNode. rewrite E.
  destruct (StringSet.has _ _); cbn; now rewrite ?E.
Qed.

Lemma local_createProperty (attribute : IAttribute) :
  local (createProperty attribute).
Proof.
  unfold createProperty. destruct (propertyName _); [|apply local_throw].
  apply local_bind; [|intros; apply local_ret].
  destruct (startsUpperCase _); [apply local_usedTypes_add|apply local_ret].
Qed.

Lemma local_extendInterface (interfaceName : string) :
  local (extendInterface interfaceName).
Proof.
  unfold extendInterface. destruct (JS.truthy _); [|apply local_ret].
  apply local_bind; [apply local_usedTypes_add|intros; apply local_ret].
Qed.

Lemma local_mapM {A B : Type} (f : A -> M B) (xs : list A) :
  Forall (fun x => local (f x)) xs -> local (mapM f xs).
Proof.
  induction 1 as [|x xs Hx _ IH]; simpl; [apply local_ret|].
  apply local_bind; [assumption|]. intros y.
  apply local_bind; [assumption|]. intros ys. apply local_ret.
Qed.

Lemma local_forEach {A : Type} (f : A -> M unit) (xs : list A) :
  (forall x, local (f x)) -> local (forEach f xs).
Proof.
  intros Hf. induction xs as [|x xs IH]; simpl; [apply local_ret|].
  apply local_bind; [apply Hf|]. now intros _.
Qed.

Lemma local_attributeMembers (xs_attribute : option (array IAttribute)) :
  local (attributeMembers xs_attribute).
Proof.
  destruct xs_attribute as [attributes|]; unfold attributeMembers;
    [|apply local_ret].
  apply local_mapM, List.Forall_forall. intros x _. apply local_createProperty.
Qed.

Lemma local_elementMember (generate : option string -> IComplexType -> M unit)
    (e : SequenceElement IComplexType) :
  all_element (fun ct => forall name, local (generate name ct)) e ->
  local (elementMember generate e).
Proof.
  unfold all_element. intros Hall.
  destruct (elementMember_cases generate e)
    as [(entries & inline & He & Hfirst & ->)|[(entries & text & _ & _ & ->)|[_ ->]]];
    [|apply local_throw|apply local_createProperty].
  rewrite (nested_type_Some _ _ _ He Hfirst) in Hall. cbn in Hall.
  apply local_bind; [apply Hall|]. intros _. apply local_createProperty.
Qed.

Lemma local_anyMembers {CT : Type} (s : Sequence CT) : local (anyMembers s).
Proof.
  unfold anyMembers. destruct (any s) as [a|]; [|apply local_ret].
  destruct (any_meta (first a)) as [m|]; [|apply local_throw].
  destruct (JS.equals _ _); apply local_ret.
Qed.

Lemma local_generateMembers (generate : option string -> IComplexType -> M unit)
    (name : string) (xs_annotation : Annotations) (heritage : option (list string))
    (xs_attribute : option (array IAttribute))
    (xs_sequence : option (array (Sequence IComplexType))) :
  all_option
    (all_array (all_sequence (fun ct => forall name, local (generate name ct))))
    xs_sequence ->
  local (generateMembers generate name xs_annotation heritage xs_attribute
           xs_sequence).
Proof.
  intros Hall. unfold generateMembers.
  apply local_bind; [apply local_attributeMembers|]. intros members.
  destruct xs_sequence as [s|]; [|apply local_addNode].
  unfold all_option in Hall. unfold all_array at 1 in Hall.
  unfold to_list at 1 in Hall. apply Forall_inv in Hall.
  unfold all_sequence, all_option in Hall.
  destruct (element (first s)) as [elements|].
  - apply local_bind.
    + apply local_mapM. eapply List.Forall_impl; [|exact Hall].
      intros e He. now apply local_elementMember.
    + intros properties.
      apply local_bind; [apply local_anyMembers|intros; apply local_addNode].
  - destruct (String.eqb name "Capabilities"); [apply local_ret|].
    apply local_bind; [apply local_anyMembers|intros; apply local_addNode].
Qed.

Lemma local_generateComplexTypeInterfaceAs (complexType : IComplexType) :
  forall name : option string,
    local (generateComplexTypeInterfaceAs name complexType).
Proof.
  induction complexType as [complexType IHcontent IHown]
    using IComplexType_nested_ind.
  intros name. rewrite generateComplexTypeInterfaceAs_unfold.
  unfold generateComplexTypeInterface_body.
  destruct name as [name|]; [|apply local_throw].
  destruct (complexContent complexType) as [c|].
  - destruct (String.eqb _ _); [apply local_ret|].
    apply local_bind; [apply local_extendInterface|]. intros heritage.
    destruct (sequence complexType); [apply local_throw|].
    unfold all_option in IHcontent. unfold all_array at 1 in IHcontent.
    unfold to_list at 1 in IHcontent. apply Forall_inv in IHcontent.
    unfold all_content in IHcontent. unfold all_array at 1 in IHcontent.
    unfold to_list at 1 in IHcontent. apply Forall_inv in IHcontent.
    now apply local_generateMembers.
  - now apply local_generateMembers.
Qed.

Lemma local_generateSimpleTypeInterface (simpleType : ISimpleType) :
  local (generateSimpleTypeInterface simpleType).
Proof.
  unfold generateSimpleTypeInterface.
  destruct (Meta.name (simple_meta simpleType)); [|apply local_throw].
  destruct (restriction simpleType) as [r|].
  - destruct (enumeration (first r)); [apply local_addNode|].
    apply local_bind; [|intros; apply local_addNode].
    destruct (startsUpperCase _); [apply local_usedTypes_add|apply local_ret].
  - destruct (list_itemType simpleType); [apply local_addNode|apply local_ret].
Qed.

Lemma local_generateElementType (e : IElement) : local (generateElementType e).
Proof.
  destruct (inline_type e) as [complexType|] eqn:Hinline.
  - rewrite (generateElementType_inline e complexType Hinline).
    apply local_bind; [apply local_generateComplexTypeInterfaceAs|].
    intros _. apply local_ret.
  - rewrite (generateElementType_otherwise e Hinline).
    destruct (top_type e) as [type|]; [|apply local_ret].
    destruct (JS.truthy type); [|apply local_ret].
    intros st1 st2 E. unfold generateElementType_typed. rewrite E.
    destruct (_ && _); [cbn; now rewrite E|].
    destruct (String.eqb _ _); [cbn; now rewrite E|].
    revert st1 st2 E. apply local_bind; [apply local_extendInterface|].
    intros h. apply local_bind; [apply local_addNode|].
    intros _. apply local_ret.
Qed.

Lemma local_prefix (schema : option ISchemaDefinition) : local (prefix schema).
Proof.
  unfold prefix.
  assert (Heach : forall (A B : Type) (f : A -> M B) (xs : option (array A)),
             (forall a, local (f a)) ->
             local
               match xs with
               | Some xs => forEach (fun a => f a ;; ret tt)%gen (to_list xs)
               | None => ret tt
               end).
  { intros A B f [xs|] Hf; [|apply local_ret].
    apply local_forEach. intros a. apply local_bind; [apply Hf|].
    intros _. apply local_ret. }
  apply local_bind.
  - destruct schema as [schema|]; [|apply local_ret].
    apply local_bind; [apply Heach, local_generateSimpleTypeInterface|].
    intros _. apply local_bind.
    + apply Heach. intros ct. apply local_generateComplexTypeInterfaceAs.
    + intros _. apply Heach, local_generateElementType.
  - intros _ st1 st2 E. cbn. now rewrite E.
Qed.

Lemma module_of_unique (d : Document) (p p' : Processor) :
  module_of d p -> module_of d p' -> p = p'.
Proof.
  intros (l1 & o1 & ns1 & s1 & H1 & ->) (l2 & o2 & ns2 & s2 & H2 & ->).
  pose proof (local_prefix (document_schema d)
                {| this := newProcessor (document_fileName d);
                   links := l1; console := o1 |}
                {| this := newProcessor (document_fileName d);
                   links := l2; console := o2 |} eq_refl) as H.
  rewrite H1, H2 in H. cbn in H. now injection H.
Qed.

Lemma process_documents_modules (ds : list Document) :
  forall w w' : World,
    process_documents w ds = Ok w' ->
    exists new, processors w' = processors w ++ new /\ Forall2 module_of ds new.
Proof.
  induction ds as [|d ds IH]; intros w w'; simpl.
  - intros [= <-]. exists []. rewrite app_nil_r. split; [reflexivity|constructor].
  - unfold process_document.
    destruct (prefix (document_schema d) _) as [[ns st]|e] eqn:E; [|discriminate].
    intros H. apply IH in H as (new & -> & Hall). cbn.
    exists (this st :: new). rewrite <- app_assoc. split; [reflexivity|].
    constructor; [|assumption]. now exists (registry w), (output w), ns, st.
Qed.

(** The module of a document when a run is over, with the module [p0] it
    was when the first pass ended and the import clauses [suffix] gave
    it. *)
Lemma start_document (xsds wsdls : list Document) (w : World) (d : Document) :
  start xsds wsdls = Ok w ->
  In d (xsds ++ wsdls) ->
  exists p0 p imports,
    module_of d p0
    /\ In p (processors w)
    /\ module_invariant {| this := p0; links := registry w; console := [] |}
    /\ nodes p = List.map importNode imports
                 ++ Identifier (String "010" EmptyString) :: nodes p0
    /\ fileName p = document_fileName d
    /\ fileName p0 = document_fileName d
    /\ declaredTypes p = declaredTypes p0
    /\ usedTypes p = usedTypes p0
    /\ (forall f t, imported imports f t
                    <-> (In t (usedTypes p0) /\ ~ In t (declaredTypes p0))
                        /\ owner (registry w) t = Some f).
Proof.
  intros H Hd.
  apply start_Ok in H as (w0 & E & Hinv & _ & _ & _ & Hreg & Hres).
  apply process_documents_modules in E as (new & Hnew & Hall). cbn in Hnew.
  destruct (Forall2_In_l _ _ _ _ Hall Hd) as (p0 & Hp0 & Hmod).
  rewrite <- Hnew in Hp0. specialize (Hinv p0 Hp0). apply in_rev in Hp0.
  destruct (Forall2_In_l _ _ _ _ Hres Hp0) as (p & Hp & Hpp).
  apply resolved_module in Hpp as (imports & Hn & Hf & Hdt & Hu & _ & Himp & _).
  assert (Hname : fileName p0 = document_fileName d).
  { destruct Hmod as (l & o & ns & st' & Hpre & ->).
    apply prefix_registers_own in Hpre as [(Hfn & _) _]. exact Hfn. }
  exists p0, p, imports. rewrite Hreg.
  destruct Hinv as (I1 & I2 & I3 & I4).
  split; [assumption|]. split; [assumption|].
  split; [repeat split; assumption|].
  split; [assumption|]. split; [congruence|]. auto.
Qed.

(** X13. What a module holds apart from its imports depends on its own
    document alone. The result of [prefix] and what it makes of the
    processor's own fields do not depend on the registry or the console;
    so in a run that succeeds, the module of a document has the name, the
    declared types, the used types and, after the imports and the line
    break, the nodes that it has when the document is run alone. *)
Theorem module_depends_on_its_document_alone :
  (forall schema, local (prefix schema))
  /\ forall (xsds wsdls : list Document) (w : World) (d : Document),
       start xsds wsdls = Ok w ->
       In d (xsds ++ wsdls) ->
       exists p p1 w1 imports imports1 body,
         In p (processors w)
         /\ start [d] [] = Ok w1 /\ processors w1 = [p1]
         /\ fileName p = document_fileName d
         /\ fileName p1 = document_fileName d
         /\ declaredTypes p = declaredTypes p1
         /\ usedTypes p = usedTypes p1
         /\ nodes p = List.map importNode imports
                      ++ Identifier (String "010" EmptyString) :: body
         /\ nodes p1 = List.map importNode imports1
                       ++ Identifier (String "010" EmptyString) :: body.
Proof.
  split; [exact local_prefix|].
  intros xsds wsdls w d H Hd.
  destruct (start_alone_Ok xsds wsdls w d H Hd) as [w1 Hw1].
  destruct (start_document xsds wsdls w d H Hd)
    as (p0 & p & imports & Hmod & Hp & _ & Hn & Hf & _ & Hdt & Hu & _).
  destruct (start_document [d] [] w1 d Hw1 (or_introl eq_refl))
    as (p0' & p1 & imports1 & Hmod' & Hp1 & _ & Hn1 & Hf1 & _ & Hdt1 & Hu1 & _).
  pose proof (module_of_unique d p0 p0' Hmod Hmod') as <-.
  assert (Hone : processors w1 = [p1]).
  { apply start_modules in Hw1 as (Hnames & _). cbn in Hnames.
    destruct (processors w1) as [|q [|q' qs]]; try discriminate.
    destruct Hp1 as [->|[]]. reflexivity. }
  exists p, p1, w1, imports, imports1, (nodes p0).
  repeat (split; [congruence|]). assumption.
Qed.

Lemma module_alone_witness :
  exists p p1 w1 imports imports1 body,
    In p (processors Run.finished)
    /\ start [Run.device] [] = Ok w1 /\ processors w1 = [p1]
    /\ fileName p = "device"
    /\ fileName p1 = "device"
    /\ declaredTypes p = declaredTypes p1
    /\ usedTypes p = usedTypes p1
    /\ nodes p = List.map importNode imports
                 ++ Identifier (String "010" EmptyString) :: body
    /\ nodes p1 = List.map importNode imports1
                  ++ Identifier (String "010" EmptyString) :: body.
Proof.
  apply (proj2 module_depends_on_its_document_alone
           [Run.common; Run.device] [] Run.finished Run.device).
  - vm_compute. reflexivity.
  - right. left. reflexivity.
Defined.

(** ** Comments *)

Lemma contains_gt_strip_tags (s : string) :
  forall in_tag : bool,
    Comment.contains_gt (Comment.strip_tags in_tag s) = true ->
    Comment.contains_gt s = true.
Proof.
  induction s as [|c s IH]; intros in_tag; simpl; [auto|].
  destruct in_tag.
  - intros H. apply IH in H. rewrite H. apply orb_true_r.
  - destruct (Ascii.eqb c "<" && Comment.contains_gt s) eqn:E.
    + intros H. apply IH in H. rewrite H. apply orb_true_r.
    + simpl. intros H. apply orb_true_iff in H as [H|H].
      * rewrite H. reflexivity.
      * apply IH in H. rewrite H. apply orb_true_r.
Qed.

Lemma has_tag_strip_tags (s : string) :
  forall in_tag : bool, has_tag (Comment.strip_tags in_tag s) = false.
Proof.
  induction s as [|c s IH]; intros in_tag; simpl; [reflexivity|].
  destruct in_tag; [apply IH|].
  destruct (Ascii.eqb c "<" && Comment.contains_gt s) eqn:E; [apply IH|].
  simpl. rewrite IH, orb_false_r.
  destruct (Ascii.eqb c "<"); [|reflexivity]. simpl in E |- *.
  destruct (Comment.contains_gt (Comment.strip_tags false s)) eqn:G;
    [|reflexivity].
  apply contains_gt_strip_tags in G. congruence.
Qed.

Lemma strip_tags_plain (s : string) :
  has_tag s = false -> Comment.strip_tags false s = s.
Proof.
  induction s as [|c s IH]; simpl; [reflexivity|].
  intros H. apply orb_false_iff in H as [H1 H2]. rewrite H1.
  now rewrite (IH H2).
Qed.

Lemma filter_nil_Forall {A : Type} (f : A -> bool) (l : list A) :
  List.filter f l = [] <-> Forall (fun x => f x = false) l.
Proof.
  induction l as [|x l IH]; simpl; [split; [constructor|reflexivity]|].
  destruct (f x) eqn:E; split.
  - discriminate.
  - intros H. apply Forall_inv in H. congruence.
  - intros H. constructor; [assumption|now apply IH].
  - intros H. apply IH. eapply Forall_inv_tail. exact H.
Qed.

Lemma append_empty (a : string) : a +:+ EmptyString = a.
Proof.
  induction a as [|d a IH]; [reflexivity|]. rewrite append_String.
  now f_equal.
Qed.

Lemma has_newline_append (a b : string) :
  has_newline (a +:+ b) = has_newline a || has_newline b.
Proof.
  induction a as [|d a IH]; [reflexivity|]. rewrite append_String. simpl.
  now rewrite IH, orb_assoc.
Qed.

Lemma split_lines_plain (s : string) :
  forall line, has_newline s = false ->
               Comment.split_lines line s = [line +:+ s].
Proof.
  induction s as [|c s IH]; intros line; simpl.
  - now rewrite append_empty.
  - intros H. apply orb_false_iff in H as [-> H].
    rewrite (IH _ H), append_assoc. reflexivity.
Qed.

Lemma split_lines_break (a b : string) :
  forall line, has_newline a = false ->
               Comment.split_lines line (a +:+ String "010" b)
               = (line +:+ a) :: Comment.split_lines EmptyString b.
Proof.
  induction a as [|c a IH]; intros line.
  - intros _. change (EmptyString +:+ String "010" b) with (String "010" b).
    simpl. now rewrite append_empty.
  - rewrite append_String. simpl. intros H.
    apply orb_false_iff in H as [-> H].
    rewrite (IH _ H), append_assoc. reflexivity.
Qed.

Lemma split_lines_no_newline (s : string) :
  forall line x, has_newline line = false ->
                 In x (Comment.split_lines line s) -> has_newline x = false.
Proof.
  induction s as [|c s IH]; intros line x Hline; simpl.
  - intros [<-|[]]. exact Hline.
  - destruct (Ascii.eqb c "010") eqn:E.
    + intros [<-|H]; [exact Hline|]. now apply (IH EmptyString).
    + apply IH. rewrite has_newline_append, Hline. simpl. now rewrite E.
Qed.

Lemma trimStart_no_newline (s : string) :
  has_newline s = false -> has_newline (Comment.trimStart s) = false.
Proof.
  induction s as [|c s IH]; simpl; [auto|]. intros H.
  destruct (Comment.whitespace c); [|exact H].
  apply orb_false_iff in H as [_ H]. auto.
Qed.

Lemma trimEnd_no_newline (s : string) :
  has_newline s = false -> has_newline (Comment.trimEnd s) = false.
Proof.
  induction s as [|c s IH]; simpl; [auto|]. intros H.
  apply orb_false_iff in H as [Hc H]. specialize (IH H).
  destruct (Comment.trimEnd s).
  - destruct (Comment.whitespace c); simpl; [reflexivity|].
    now rewrite Hc.
  - simpl in IH |- *. now rewrite Hc, IH.
Qed.

Lemma strip_tags_no_newline (s : string) :
  forall in_tag, has_newline s = false ->
                 has_newline (Comment.strip_tags in_tag s) = false.
Proof.
  induction s as [|c s IH]; intros in_tag; simpl; [auto|]. intros H.
  apply orb_false_iff in H as [Hc H].
  destruct in_tag; [auto|].
  destruct (Ascii.eqb c "<" && Comment.contains_gt s); [auto|].
  simpl. now rewrite Hc, IH.
Qed.

Lemma contains_gt_append (a b : string) :
  Comment.contains_gt (a +:+ b)
  = Comment.contains_gt a || Comment.contains_gt b.
Proof.
  induction a as [|d a IH]; [reflexivity|]. rewrite append_String. simpl.
  now rewrite IH, orb_assoc.
Qed.

Lemma has_tag_space (s : string) : has_tag (s +:+ " ") = has_tag s.
Proof.
  induction s as [|c s IH]; [reflexivity|]. rewrite append_String. simpl.
  rewrite IH, contains_gt_append. simpl. now rewrite orb_false_r.
Qed.

(** The lines of a block of comment lines, each one without a line
    break, followed by a line break and [rest]. *)
Lemma split_lines_concat (l : list string) (x rest : string) :
  Forall (fun a => has_newline a = false) (x :: l) ->
  Comment.split_lines EmptyString
    (String.concat (String "010" EmptyString) (x :: l)
     +:+ String "010" rest)
  = (x :: l) ++ Comment.split_lines EmptyString rest.
Proof.
  revert x. induction l as [|y l IH]; intros x H.
  - cbn [String.concat]. apply Forall_inv in H.
    now rewrite (split_lines_break x rest EmptyString H).
  - change (String.concat (String "010" EmptyString) (x :: y :: l))
      with (x +:+ String "010" EmptyString
              +:+ String.concat (String "010" EmptyString) (y :: l)).
    rewrite !append_assoc.
    change (String "010" EmptyString +:+ ?t) with (String "010" t).
    rewrite (split_lines_break x _ EmptyString (Forall_inv H)).
    rewrite (IH y (Forall_inv_tail H)). reflexivity.
Qed.

(** The lines [formatComment] keeps: trimmed, stripped, and without a
    line break. *)
Lemma kept_lines (str : string) :
  Forall (fun a => has_newline a = false /\ has_tag a = false)
    (List.map (fun a => Comment.strip_tags false (Comment.trim a))
       (List.filter
          (fun a => negb (String.eqb (Comment.trim a) EmptyString))
          (Comment.split_lines EmptyString str))).
Proof.
  apply List.Forall_forall. intros x Hx.
  apply in_map_iff in Hx as (a & <- & Ha).
  apply List.filter_In in Ha as [Ha _].
  split; [|apply has_tag_strip_tags].
  apply strip_tags_no_newline, trimEnd_no_newline, trimStart_no_newline.
  now apply (split_lines_no_newline str EmptyString).
Qed.

(** X14. What [formatComment] does to markup and to blank text. No line
    of the comment it produces holds a complete tag: no [<] is followed,
    however far on the line, by a [>]. A text of one line that is not
    blank gives that line, trimmed and stripped of its tags, after a
    star and a space and before a space; stripping a line without a
    complete tag changes nothing, so stripping twice changes nothing
    more; and the comment is empty exactly when every line of the text
    is blank. *)
Theorem formatComment_strips_tags :
  (forall str line,
      In line (Comment.split_lines EmptyString (Comment.formatComment str)) ->
      has_tag line = false)
  /\ (forall s, has_tag (Comment.strip_tags false s) = false)
  /\ (forall s, has_tag s = false -> Comment.strip_tags false s = s)
  /\ (forall s, Comment.strip_tags false (Comment.strip_tags false s)
                = Comment.strip_tags false s)
  /\ (forall s,
         has_newline s = false -> Comment.trim s <> EmptyString ->
         Comment.formatComment s
         = "* " +:+ Comment.strip_tags false (Comment.trim s) +:+ " ")
  /\ (forall str,
         Comment.formatComment str = EmptyString
         <-> Forall (fun a => Comment.trim a = EmptyString)
               (Comment.split_lines EmptyString str)).
Proof.
  split.
  { intros str line. unfold Comment.formatComment.
    pose proof (kept_lines str) as Hkept.
    destruct (List.map _ _) as [|x [|y l]].
    - intros [<-|[]]. reflexivity.
    - apply Forall_inv in Hkept as [Hn Ht].
      rewrite split_lines_plain
        by (rewrite !has_newline_append, Hn; reflexivity).
      intros [<-|[]].
      change (has_tag ((String "*" (String " " x)) +:+ " ") = false).
      rewrite has_tag_space. simpl. exact Ht.
    - change (In line
                (Comment.split_lines EmptyString
                   (String "*" (String "010" (" * " +:+ x +:+ String "010"
                      (String.concat (String "010" EmptyString)
                         (List.map (fun a => " * " +:+ a) (y :: l))
                       +:+ String "010" " ")))))
              -> has_tag line = false).
      cbn [Comment.split_lines Ascii.eqb Bool.eqb]. 
      change (EmptyString +:+ String "*" EmptyString) with "*".
      assert (Hmarked : Forall (fun a => has_newline a = false
                                         /\ has_tag a = false)
                          (List.map (fun a => " * " +:+ a) (x :: y :: l))).
      { apply List.Forall_forall. intros a Ha.
        apply in_map_iff in Ha as (b & <- & Hb).
        rewrite List.Forall_forall in Hkept.
        destruct (Hkept b Hb) as [Hn Ht]. split.
        - rewrite has_newline_append, Hn. reflexivity.
        - simpl. exact Ht. }
      rewrite <- append_assoc.
      rewrite (split_lines_break (" * " +:+ x) _ EmptyString)
        by (apply (Forall_inv Hmarked)).
      cbn [List.map].
      rewrite split_lines_concat.
      2:{ eapply List.Forall_impl; [|exact (Forall_inv_tail Hmarked)].
          now intros a [Hn _]. }
      intros [<-|[<-|H]]; [reflexivity|apply (Forall_inv Hmarked)|].
      apply in_app_or in H as [H|[<-|[]]]; [|reflexivity].
      rewrite List.Forall_forall in Hmarked.
      apply (Hmarked line). right. exact H. }
  split; [intros s; apply has_tag_strip_tags|].
  split; [exact strip_tags_plain|].
  split; [intros s; apply strip_tags_plain, has_tag_strip_tags|].
  split.
  { intros s Hn Hs. unfold Comment.formatComment.
    rewrite (split_lines_plain s EmptyString Hn).
    change (EmptyString +:+ s) with s. simpl.
    destruct (String.eqb (Comment.trim s) EmptyString) eqn:E;
      [apply String.eqb_eq in E; contradiction|]. reflexivity. }
  intros str. unfold Comment.formatComment.
  assert (Hblank : forall l,
             Forall (fun a => negb (String.eqb (Comment.trim a) EmptyString) = false) l
             <-> Forall (fun a => Comment.trim a = EmptyString) l).
  { intros l. rewrite !List.Forall_forall. split; intros H a Ha.
    - specialize (H a Ha). apply negb_false_iff in H. now apply String.eqb_eq.
    - apply negb_false_iff, String.eqb_eq. now apply H. }
  rewrite <- Hblank, <- filter_nil_Forall.
  destruct (List.filter _ _) as [|x [|y l]]; simpl.
  - split; reflexivity.
  - split; discriminate.
  - split; discriminate.
Qed.

(** ** Two documents that declare one name *)

Lemma process_documents_app (ds1 ds2 : list Document) :
  forall w w' : World,
    process_documents w (ds1 ++ ds2) = Ok w' ->
    exists w1, process_documents w ds1 = Ok w1
               /\ process_documents w1 ds2 = Ok w'.
Proof.
  induction ds1 as [|d ds1 IH]; intros w w'; simpl.
  - intros H. now exists w.
  - destruct (process_document w d) as [w1|e]; [|discriminate]. apply IH.
Qed.

(** The first document of a run to declare a name that is not a built-in
    type's becomes its owner in the registry. *)
Lemma first_declaration_owns (before : list Document) (d : Document)
    (wa wb : World) (name : string) :
  process_documents
    {| processors := []; registry := snd generateBuiltIns; output := [] |}
    before = Ok wa ->
  process_document wa d = Ok wb ->
  document_declares d name ->
  ~ built_in name ->
  (forall d', In d' before -> ~ document_declares d' name) ->
  registry wb !! name = Some (owned_by (document_fileName d)).
Proof.
  intros Ha Hb (p & Hmod & Hname) Hbuilt Hfirst.
  assert (Hnone : registry wa !! name = None).
  { destruct (registry wa !! name) as [o|] eqn:E; [exfalso|reflexivity].
    destruct (first_pass_sound before wa Ha) as (_ & Hsound & _).
    apply Hsound in E as [[E _]|(q & Hq & _ & Hdecl)]; [now apply Hbuilt|].
    apply process_documents_modules in Ha as (new & Hnew & Hall).
    cbn in Hnew. rewrite Hnew in Hq.
    destruct (Forall2_In_r _ _ _ _ Hall Hq) as (d' & Hd' & Hmod').
    apply (Hfirst d' Hd'). now exists q. }
  revert Hb. unfold process_document.
  destruct (prefix (document_schema d) _) as [[ns st]|e] eqn:E; [|discriminate].
  intros [= <-]. cbn [registry].
  assert (Hp : p = this st).
  { apply (module_of_unique d); [assumption|].
    now exists (registry wa), (output wa), ns, st. }
  subst p.
  assert (Hinv : module_invariant st).
  { apply prefix_invariant in E; [assumption|].
    unfold module_invariant. cbn. repeat split; try constructor.
    intros x []. }
  destruct Hinv as (_ & _ & _ & Hlinks).
  destruct (Hlinks name Hname) as [o Ho]. rewrite Ho. f_equal.
  apply prefix_registers_own in E as [(Hf & _) Hown].
  apply Hown in Ho as [Ho|[-> _]]; [cbn in Ho; congruence|].
  cbn in Hf. now rewrite Hf.
Qed.

(** C2. When two documents of a run each declare the same top-level type
    name, not a built-in type's, the first of them stays the owner of the
    name in the registry; the declaration of the second is kept all the
    same: the name is in the declared types of its module and the node
    that declares it is in its declaration list, so the name is not among
    the types the module needs to import and no import clause of the
    module names it. *)
Theorem second_declaration_is_kept
    (xsds wsdls before between after : list Document) (d1 d2 : Document)
    (name : string) (w : World) :
  start xsds wsdls = Ok w ->
  xsds ++ wsdls = before ++ d1 :: between ++ d2 :: after ->
  document_declares d1 name ->
  document_declares d2 name ->
  ~ built_in name ->
  (forall d, In d before -> ~ document_declares d name) ->
  registry w !! name = Some (owned_by (document_fileName d1))
  /\ exists p2 q2 imports,
       module_of d2 p2
       /\ In q2 (processors w)
       /\ fileName q2 = document_fileName d2
       /\ declaredTypes q2 = declaredTypes p2
       /\ In name (declaredTypes q2)
       /\ nodes q2 = List.map importNode imports
                     ++ Identifier (String "010" EmptyString) :: nodes p2
       /\ (exists node, In node (nodes p2) /\ declares name node)
       /\ ~ In name (ImportsNeeded q2)
       /\ (forall f, ~ imported imports f name)
       /\ (forall names spec,
              In (ImportDeclaration names spec) (nodes q2) -> ~ In name names).
Proof.
  intros Hstart Hdocs Hd1 Hd2 Hbuilt Hfirst. split.
  - apply start_Ok in Hstart as (w0 & E & _ & _ & _ & _ & -> & _).
    rewrite Hdocs in E.
    apply process_documents_app in E as (wa & Ha & E). simpl in E.
    destruct (process_document wa d1) as [wb|e] eqn:Hb; [|discriminate].
    eapply process_documents_kept; [exact E|].
    now apply (first_declaration_owns before d1 wa wb name).
  - assert (Hin : In d2 (xsds ++ wsdls)).
    { rewrite Hdocs. apply in_or_app. right. right.
      apply in_or_app. right. now left. }
    destruct (start_document xsds wsdls w d2 Hstart Hin)
      as (p0 & q2 & imports & Hmod & Hq & Hinv & Hn & Hf & _ & Hdt & Hu & Himp).
    destruct Hd2 as (p2 & Hmod2 & Hname).
    pose proof (module_of_unique d2 p2 p0 Hmod2 Hmod) as ->.
    destruct Hinv as (_ & _ & Hnodes & _). cbn in Hnodes.
    assert (Hnot : forall f, ~ imported imports f name).
    { intros f Hi. apply Himp in Hi as [[_ Hi] _]. now apply Hi. }
    exists p0, q2, imports.
    split; [assumption|]. split; [assumption|]. split; [assumption|].
    split; [assumption|]. split; [now rewrite Hdt|]. split; [assumption|].
    split.
    { destruct (Forall2_In_l _ _ _ _ Hnodes Hname) as (node & Hnode & Hdecl).
      now exists node. }
    split.
    { unfold ImportsNeeded. rewrite difference_In, Hdt. tauto. }
    split; [assumption|].
    intros names spec Hi Hnames. rewrite Hn in Hi.
    apply (import_node_In _ _ _ _ _ Hnodes) in Hi as (f & _ & Hi).
    apply (Hnot f). now exists names.
Qed.

Lemma second_declaration_witness :
  exists w,
    start [Sample.twice_declared "onvif"; Sample.twice_declared "media"] [] = Ok w
    /\ registry w !! "Capabilities" = Some (owned_by "onvif")
    /\ exists q2, In q2 (processors w)
                  /\ fileName q2 = "media"
                  /\ In "Capabilities" (declaredTypes q2)
                  /\ ~ In "Capabilities" (ImportsNeeded q2).
Proof.
  assert (Hdecl : forall f,
             document_declares (Sample.twice_declared f) "Capabilities").
  { intros f.
    destruct (prefix (document_schema (Sample.twice_declared f))
                {| this := newProcessor f; links := ∅; console := [] |})
      as [[ns st]|e] eqn:E; [|discriminate].
    exists (this st). split; [now exists ∅, [], ns, st|].
    revert E. vm_compute. intros [= _ <-]. now left. }
  assert (Hstart : {w | start [Sample.twice_declared "onvif";
                               Sample.twice_declared "media"] [] = Ok w})
    by (eexists; vm_compute; reflexivity).
  destruct Hstart as [w Hstart]. exists w. split; [exact Hstart|].
  destruct (second_declaration_is_kept
              [Sample.twice_declared "onvif"; Sample.twice_declared "media"] []
              [] [] [] (Sample.twice_declared "onvif")
              (Sample.twice_declared "media") "Capabilities" w Hstart eq_refl
              (Hdecl "onvif") (Hdecl "media"))
    as (Hreg & p2 & q2 & imports & _ & Hq & Hf & _ & Hname & _ & _ & Hneed & _).
  - vm_compute. intuition discriminate.
  - intros d [].
  - split; [exact Hreg|]. exists q2. auto.
Defined.

(** ** The import resolver on any module *)

Lemma first_seen_ext (l : list string) :
  forall s1 s2 : list string,
    (forall x, existsb (String.eqb x) s1 = existsb (String.eqb x) s2) ->
    first_seen s1 l = first_seen s2 l.
Proof.
  induction l as [|x l IH]; intros s1 s2 H; simpl; [reflexivity|].
  rewrite <- (H x). destruct (existsb (String.eqb x) s1); [now apply IH|].
  f_equal. apply IH. intros y. simpl. now rewrite H.
Qed.

(** The own properties of [imports] when the loop ends: the ones it
    started with, then the owners met, each where it was first met. *)
Lemma suffix_loop_keys (links' : gmap string IType) (types : list string) :
  forall (imports : list (string * list string)) (out : list string)
         (r : list (string * list string) * list string),
    fold_result (suffix_step links') types (imports, out) = Ok r ->
    List.map fst (fst r)
    = List.map fst imports
      ++ first_seen (List.map fst imports) (omap (owner links') types).
Proof.
  induction types as [|type types IH]; intros imports out r; simpl.
  - intros [= <-]. now rewrite app_nil_r.
  - unfold suffix_step at 1. cbn [fst snd].
    destruct (owner links' type) as [f|] eqn:Howner; [|apply IH].
    assert (Hpush : fold_result (suffix_step links') types
                      (imports_push f type imports, out) = Ok r ->
                    List.map fst (fst r)
                    = List.map fst imports
                      ++ first_seen (List.map fst imports)
                           (f :: omap (owner links') types)).
    { intros H. apply IH in H. rewrite H, imports_push_keys. simpl.
      destruct (existsb (String.eqb f) (List.map fst imports)); [reflexivity|].
      rewrite <- app_assoc. simpl. do 2 f_equal. apply first_seen_ext.
      intros x. rewrite existsb_app. simpl.
      now rewrite orb_false_r, orb_comm. }
    unfold has_own.
    destruct (existsb (String.eqb f) (List.map fst imports)) eqn:Hhas;
      [exact Hpush|].
    destruct (JSObject.inherited f); [discriminate|exact Hpush].
Qed.

Lemma imports_push_In (f t : string) (imports : list (string * list string))
    (g : string) (ts : list string) :
  List.NoDup (List.map fst imports) ->
  In (g, ts) (imports_push f t imports) ->
  (g <> f /\ In (g, ts) imports)
  \/ (g = f /\ exists ts0, In (f, ts0) imports /\ ts = ts0 ++ [t])
  \/ (g = f /\ ~ In f (List.map fst imports) /\ ts = [t]).
Proof.
  induction imports as [|[h types] imports IH]; simpl; intros Hnd.
  - intros [[= <- <-]|[]]. right. right. auto.
  - apply List.NoDup_cons_iff in Hnd as [Hh Hnd].
    destruct (String.eqb_spec h f) as [->|NE].
    + intros [[= <- <-]|Hin].
      * right. left. split; [reflexivity|]. exists types. auto.
      * left. split; [|now right]. intros ->. apply Hh.
        now apply (in_map fst) in Hin.
    + intros [[= <- <-]|Hin]; [left; auto|].
      apply (IH Hnd) in Hin as [[Hg Hin]|[(-> & ts0 & Hin & ->)|(-> & Hf & ->)]].
      * left. auto.
      * right. left. split; [reflexivity|]. exists ts0. auto.
      * right. right. split; [reflexivity|]. split; [|reflexivity].
        intros [E|E]; [now apply NE|now apply Hf].
Qed.

Lemma owned_owner (links' : gmap string IType) (f t : string) :
  f <> EmptyString ->
  owned links' f t = true <-> owner links' t = Some f.
Proof.
  intros Hf. unfold owned, owner.
  destruct (links' !! t) as [[[g|]]|]; simpl; try (split; discriminate).
  destruct (String.eqb_spec g f) as [->|NE].
  - destruct f; [contradiction|]. simpl. split; reflexivity.
  - split; [discriminate|]. destruct (JS.truthy g); [|discriminate].
    intros [= E]. contradiction.
Qed.

Lemma owner_truthy (links' : gmap string IType) (f t : string) :
  owner links' t = Some f -> f <> EmptyString.
Proof. intros H. now apply owner_Some in H. Qed.

(** Each array of [imports] when the loop ends: what it held at the
    start, then the types of that owner in the order met. *)
Lemma suffix_loop_order (links' : gmap string IType) (types : list string) :
  forall (imports : list (string * list string)) (out : list string)
         (r : list (string * list string) * list string),
    fold_result (suffix_step links') types (imports, out) = Ok r ->
    List.NoDup (List.map fst imports) ->
    (forall g, In g (List.map fst imports) -> g <> EmptyString) ->
    forall g ts,
      In (g, ts) (fst r) ->
      g <> EmptyString
      /\ ((exists ts0, In (g, ts0) imports
                       /\ ts = ts0 ++ List.filter (owned links' g) types)
          \/ (~ In g (List.map fst imports)
              /\ ts = List.filter (owned links' g) types)).
Proof.
  induction types as [|type types IH]; intros imports out r; simpl.
  - intros [= <-] _ Hkeys g ts Hin. cbn in Hin. split.
    + apply Hkeys. now apply (in_map fst) in Hin.
    + left. exists ts. now rewrite app_nil_r.
  - unfold suffix_step at 1. cbn [fst snd]. intros H Hnd Hkeys.
    destruct (owner links' type) as [f|] eqn:Howner.
    + assert (Hpush : fold_result (suffix_step links') types
                        (imports_push f type imports, out) = Ok r ->
                      forall g ts,
                        In (g, ts) (fst r) ->
                        g <> EmptyString
                        /\ ((exists ts0,
                                In (g, ts0) imports
                                /\ ts = ts0
                                        ++ (if owned links' g type
                                            then type :: List.filter (owned links' g) types
                                            else List.filter (owned links' g) types))
                            \/ (~ In g (List.map fst imports)
                                /\ ts = if owned links' g type
                                        then type :: List.filter (owned links' g) types
                                        else List.filter (owned links' g) types))).
      { intros E g ts Hin.
        pose proof (owner_truthy _ _ _ Howner) as Hf.
        assert (Hkeys' : forall h, In h (List.map fst (imports_push f type imports)) ->
                                   h <> EmptyString).
        { intros h. rewrite imports_push_keys.
          destruct (existsb _ _); [apply Hkeys|].
          intros Hh. apply in_app_or in Hh as [Hh|[<-|[]]]; auto. }
        destruct (IH _ _ _ E (imports_push_NoDup f type imports Hnd) Hkeys' g ts Hin)
          as [Hg Hts].
        split; [assumption|].
        assert (Hown : owned links' g type = true <-> f = g).
        { rewrite (owned_owner links' g type Hg), Howner.
          split; [now intros [= ->]|now intros ->]. }
        destruct Hts as [(ts0 & Hin0 & ->)|[Hnot ->]].
        - apply (imports_push_In _ _ _ _ _ Hnd) in Hin0
            as [[Hne Hin0]|[(-> & ts1 & Hin1 & ->)|(-> & Hnew & ->)]].
          + left. exists ts0. split; [assumption|].
            destruct (owned links' g type) eqn:Ho; [|reflexivity].
            exfalso. apply Hne. symmetry. now apply Hown.
          + left. exists ts1. split; [assumption|].
            rewrite (proj2 Hown eq_refl), <- app_assoc. reflexivity.
          + right. split; [assumption|].
            rewrite (proj2 Hown eq_refl). reflexivity.
        - right.
          assert (Hne : f <> g).
          { intros ->. apply Hnot. rewrite imports_push_keys.
            destruct (existsb _ _) eqn:Hex.
            - apply existsb_exists in Hex as (x & Hx & Ex).
              apply String.eqb_eq in Ex. now subst.
            - apply in_or_app. right. now left. }
          split.
          + intros Hg'. apply Hnot. rewrite imports_push_keys.
            destruct (existsb _ _); [assumption|apply in_or_app; now left].
          + destruct (owned links' g type) eqn:Ho; [|reflexivity].
            exfalso. apply Hne. now apply Hown. }
      destruct (has_own f imports); [exact (Hpush H)|].
      destruct (JSObject.inherited f); [discriminate|exact (Hpush H)].
    + intros g ts Hin.
      destruct (IH _ _ _ H Hnd Hkeys g ts Hin) as [Hg Hts].
      split; [assumption|].
      assert (Ho : owned links' g type = false).
      { destruct (owned links' g type) eqn:Ho; [|reflexivity].
        apply (owned_owner links' g type Hg) in Ho. congruence. }
      rewrite Ho. exact Hts.
Qed.

Lemma In_omap {A B : Type} (f : A -> option B) (l : list A) (y : B) :
  In y (omap f l) -> exists x, In x l /\ f x = Some y.
Proof.
  induction l as [|a l IH]; simpl; [intros []|].
  destruct (f a) as [b|] eqn:E.
  - intros [<-|H]; [exists a; auto|].
    apply IH in H as (x & Hx & Hy). exists x. auto.
  - intros H. apply IH in H as (x & Hx & Hy). exists x. auto.
Qed.

Lemma inherited_truthy (f : string) :
  JSObject.inherited f = true -> f <> EmptyString.
Proof. intros H ->. discriminate. Qed.

(** X15. What [suffix] does for any module on any registry. It works
    on the used types the module does not declare. It throws, a
    [TypeError], exactly when the registry names as the owner of one of
    them a module called like a member of [Object.prototype]. Otherwise
    it puts in front of the nodes one import declaration per owning
    module, from [./] and the module name, then a line break; no module
    comes twice; each declaration lists the needed types the registry
    gives to that module, in the order they were first used, and is not
    empty; a needed type absent from the registry is in no import and has
    its warning on the console; no import brings in a type the module
    declares; the file name, the declared and used types and the registry
    are left as they were; and when no owner is named like an array
    index, the declarations come in the order their modules are first
    needed. *)
Theorem suffix_resolves_imports (links' : gmap string IType) (st : State) :
  let needed := ImportsNeeded (this st) in
  (forall type, In type needed
                <-> In type (usedTypes (this st))
                    /\ ~ In type (declaredTypes (this st)))
  /\ ((exists e, suffix links' st = Throw e)
      <-> exists type f, In type needed
                         /\ links' !! type = Some {| IType_name := Some f |}
                         /\ JSObject.inherited f = true)
  /\ (forall e, suffix links' st = Throw e -> e = TypeError)
  /\ forall st',
       suffix links' st = Ok st' ->
       exists imports : list (string * list string),
         nodes (this st')
         = List.map (fun entry => ImportDeclaration (snd entry) ("./" +:+ fst entry))
             imports
           ++ Identifier (String "010" EmptyString) :: nodes (this st)
         /\ List.NoDup (List.map fst imports)
         /\ (forall f types,
                In (f, types) imports ->
                types = List.filter (owned links' f) needed /\ types <> [])
         /\ (forall f type,
                imported imports f type
                <-> In type needed
                    /\ links' !! type = Some {| IType_name := Some f |}
                    /\ f <> EmptyString)
         /\ (forall type,
                In type needed -> links' !! type = None ->
                In ("Type " +:+ type +:+ " not found in links") (console st')
                /\ forall f, ~ imported imports f type)
         /\ (forall f type,
                imported imports f type -> ~ In type (declaredTypes (this st)))
         /\ fileName (this st') = fileName (this st)
         /\ declaredTypes (this st') = declaredTypes (this st)
         /\ usedTypes (this st') = usedTypes (this st)
         /\ links st' = links st
         /\ ((forall f, In f (List.map fst imports) ->
                        JSObject.array_index f = None) ->
             List.map fst imports = first_seen [] (omap (owner links') needed)).
Proof.
  intros needed.
  split; [intros type; apply difference_In|].
  split.
  { split.
    - intros [e He]. apply suffix_Throw in He as (_ & t & f & Hin & Ho & Hf).
      exists t, f. apply owner_Some in Ho as [Ho _]. auto.
    - intros (t & f & Hin & Ho & Hf). exists TypeError.
      unfold suffix, suffix_imports.
      rewrite (suffix_loop_inherited links' _ [] (console st) t f);
        [reflexivity|intros g []|assumption| |assumption].
      apply owner_found; [assumption|now apply inherited_truthy]. }
  split; [intros e He; now apply suffix_Throw in He|].
  intros st'. unfold suffix, suffix_imports.
  destruct (fold_result _ _ _) as [[own console']|e] eqn:E; [|discriminate].
  intros [= <-]. cbn [this console nodes fileName declaredTypes usedTypes links].
  fold needed in E.
  pose proof (suffix_loop_keys _ _ _ _ _ E) as Hkeys.
  pose proof (suffix_loop_order _ _ _ _ _ E) as Horder.
  apply suffix_loop in E as (Hnd & Himp & Hwarn & _). cbn [fst snd] in *.
  assert (Himp' : forall f t,
             imported (JSObject.entries own) f t
             <-> In t needed /\ owner links' t = Some f).
  { intros f t. rewrite entries_imported, Himp. split; [|now right].
    intros [(ts & [] & _)|H]. exact H. }
  exists (JSObject.entries own).
  split; [reflexivity|].
  split; [apply entries_NoDup, Hnd; constructor|].
  split.
  { intros f types Hin. apply (proj1 (entries_In _ _)) in Hin.
    destruct (Horder (List.NoDup_nil _) (fun g (H : In g []) => match H with end)
                f types Hin) as [Hf [(ts0 & [] & _)|[_ Hts]]].
    split; [exact Hts|].
    destruct (Forall2_In_l (fun (kv : string * list string) k => fst kv = k)
                own (List.map fst own) (f, types)) as (k & Hk & <-); [|assumption|].
    { clear. induction own; constructor; auto. }
    rewrite Hkeys in Hk. cbn in Hk.
    assert (Hseen : forall l seen x, In x (first_seen seen l) -> In x l).
    { induction l as [|y l IH]; simpl; [auto|]. intros seen x.
      destruct (existsb _ _); [intros H; right; eapply IH; exact H|].
      intros [H|H]; [now left|right; eapply IH; exact H]. }
    apply Hseen, In_omap in Hk as (t & Ht & Ho). cbn [fst] in Ho.
    apply (owned_owner links' _ t Hf) in Ho.
    intros Hnil.
    assert (Hin' : In t (List.filter (owned links' f) needed))
      by (apply List.filter_In; auto).
    rewrite <- Hts, Hnil in Hin'. destruct Hin'. }
  split.
  { intros f t. rewrite Himp'. split.
    - intros [Hin Ho]. apply owner_Some in Ho as [Ho Hf]. auto.
    - intros (Hin & Ho & Hf). split; [assumption|now apply owner_found]. }
  split.
  { intros type Hin Hnone. apply owner_None in Hnone.
    split; [now apply Hwarn|].
    intros f H. apply Himp' in H as [_ H]. congruence. }
  split.
  { intros f type H. apply Himp' in H as [H _].
    now apply difference_In in H. }
  repeat (split; [reflexivity|]).
  intros Hidx. rewrite entries_named; [exact Hkeys|].
  intros kv Hkv. apply Hidx, in_map. now apply entries_In.
Qed.

(** Three modules that declare a type, named [10], [9] and [common],
    and the module that uses the three types in that order: the
    imports from [9] and [10] come first, in the order of the numbers,
    then the import from [common]. *)
Lemma imports_follow_property_order :
  exists w p rest,
    start [Plain.declaring "common" "Name"; Plain.declaring "10" "Vector";
           Plain.declaring "9" "Color";
           Plain.referring "service" ["tt:Name"; "tt:Vector"; "tt:Color"]] []
    = Ok w
    /\ processors w = p :: rest
    /\ usedTypes p = ["Name"; "Vector"; "Color"]
    /\ nodes p
       = [ImportDeclaration ["Color"] "./9";
          ImportDeclaration ["Vector"] "./10";
          ImportDeclaration ["Name"] "./common";
          Identifier (String "010" EmptyString);
          InterfaceDeclaration "Service" None
            [PropertySignature "name" false (TypeReference "Name");
             PropertySignature "vector" false (TypeReference "Vector");
             PropertySignature "color" false (TypeReference "Color")]].
Proof.
  eexists _, _, _. split; [vm_compute; reflexivity|].
  split; [reflexivity|]. split; reflexivity.
Qed.
